(** * rip: reading a stream in parallel, chunk by chunk

    A shallow embedding of [rip.go]: the split function
    [ScanChunksWithBoundary], the buffer [Pool], the two entry points [Read]
    and [ReadFixed], together with the parts of Go's [bufio.Scanner],
    [bytes] and [io] packages they are driven by.

    Conventions.
    - A [[]byte] is a [list byte]; Go's [int] sizes, lengths and offsets are
      [nat] (a negative size makes [make] panic before anything else
      happens), the result of [bytes.LastIndex] is a [Z] because the code
      compares it with [-1].
    - An [io.Reader] is a type class with one operation; the source only
      ever calls [Read] on it.
    - The loops of [bufio.Scanner.Scan], [io.ReadFull], [Read] and
      [ReadFixed] take fuel; the theorems at the end show that fuel linear
      in the size of the input is always enough.
    - Worker goroutines are modelled by the eager schedule: with
      [Concurrency >= 1], a chunk sent on [r.chunks] is received at once by
      a worker, which calls the callback on [chunk.ReadableBytes()] and
      returns the buffer to the pool; the bytes of a chunk do not depend
      on the schedule, because every buffer that the pool hands out has
      length [ChunkSize] whichever buffer it is.  With [Concurrency = 0]
      [startWorkers] starts no goroutine: the chunks sent wait in the queue
      of [r.chunks], and the send that finds the queue full blocks for
      ever.
    - A call is the first one on its reader: the queue of [r.chunks] is
      open, and empty as [NewParallelReader] makes it.  The callback is
      taken to return; what it does with a chunk is not modelled. *)

From Stdlib Require Import String.
From Stdlib Require Import List Arith ZArith Lia Bool.
From Stdlib Require Import Strings.Byte.
Import ListNotations.
Import Corelib.Init.Datatypes.

Set Implicit Arguments.

(* ================================================================== *)
(** * Bytes *)
(* ================================================================== *)

Module Bytes.

(** [[]byte(s)] for a string literal [s]. *)
Definition of_string (s : String.string) : list byte := String.list_byte_of_string s.

(** [bytes.HasPrefix(s, prefix)] *)
Fixpoint HasPrefix (s prefix : list byte) {struct prefix} : bool :=
  match prefix, s with
  | [], _ => true
  | p :: prefix', x :: s' => Byte.eqb x p && HasPrefix s' prefix'
  | _ :: _, [] => false
  end.

(** The candidates [i, i-1, ..., 0] of a search from the right. *)
Fixpoint lastIndexFrom (s sep : list byte) (i : nat) : Z :=
  if HasPrefix (skipn i s) sep then Z.of_nat i
  else match i with
       | O => (-1)%Z
       | S j => lastIndexFrom s sep j
       end.

(** [bytes.LastIndex(s, sep)]: the index of the last instance of [sep] in
    [s], or [-1] if [sep] is not present in [s]; an empty [sep] is found
    at [len(s)].  The library's search is replaced by the plain search
    from the right; [LastIndex_some] and [LastIndex_none] show that it
    computes what the library documents. *)
Definition LastIndex (s sep : list byte) : Z :=
  if length s <? length sep then (-1)%Z
  else lastIndexFrom s sep (length s - length sep).

(** The candidates [i, i+1, ...] of a search from the left; [k] bounds the
    number of candidates left. *)
Fixpoint indexFrom (s sep : list byte) (i k : nat) : Z :=
  if HasPrefix (skipn i s) sep then Z.of_nat i
  else match k with
       | O => (-1)%Z
       | S k' => indexFrom s sep (S i) k'
       end.

(** [bytes.Index(s, sep)]: the index of the first instance of [sep] in
    [s], or [-1]. *)
Definition Index (s sep : list byte) : Z :=
  if length s <? length sep then (-1)%Z
  else indexFrom s sep 0 (length s - length sep).

(** [sep] occurs in [s] at offset [i]. *)
Definition occurs_at (sep s : list byte) (i : nat) : Prop :=
  exists pre post, s = pre ++ sep ++ post /\ length pre = i.

(** [i] is the offset of the last occurrence of [sep] in [s]. *)
Definition last_occurrence (sep s : list byte) (i : nat) : Prop :=
  occurs_at sep s i /\ forall j, occurs_at sep s j -> j <= i.

(** [i] is the offset of the first occurrence of [sep] in [s]. *)
Definition first_occurrence (sep s : list byte) (i : nat) : Prop :=
  occurs_at sep s i /\ forall j, occurs_at sep s j -> i <= j.

(** [copy(dst, src)]: the new contents of [dst] and the number of bytes
    copied, the smaller of the two lengths. *)
Definition copy (dst src : list byte) : list byte * nat :=
  let n := Nat.min (length dst) (length src) in
  (firstn n src ++ skipn n dst, n).

(** [make([]byte, n)] *)
Definition make (n : nat) : list byte := repeat x00 n.

(** [buf[lo:hi]] *)
Definition slice (buf : list byte) (lo hi : nat) : list byte :=
  firstn (hi - lo) (skipn lo buf).

(** What a callee that is handed the slice [buf[at_:]] and writes [bs] at
    its start leaves in [buf]. *)
Definition store (buf : list byte) (at_ : nat) (bs : list byte) : list byte :=
  firstn at_ buf ++ bs ++ skipn (at_ + length bs) buf.

End Bytes.

Import Bytes.


(* ================================================================== *)
(** * Errors, readers and [io.ReadFull] *)
(* ================================================================== *)

(** The error values that flow through the program: the sentinels of [io]
    and [bufio], and [ReadFault] for any other error a reader returns. *)
Inductive error : Type :=
| EOF                 (* io.EOF *)
| ErrUnexpectedEOF    (* io.ErrUnexpectedEOF *)
| ErrShortBuffer      (* io.ErrShortBuffer *)
| ErrNoProgress       (* io.ErrNoProgress *)
| ErrTooLong          (* bufio.ErrTooLong *)
| ErrAdvanceTooFar    (* bufio.ErrAdvanceTooFar *)
| ErrBadReadCount     (* bufio.ErrBadReadCount *)
| ErrFinalToken       (* bufio.ErrFinalToken *)
| ReadFault (msg : String.string).

Definition is_nil (A : Type) (o : option A) : bool :=
  match o with None => true | Some _ => false end.

Definition not_nil (A : Type) (o : option A) : bool := negb (is_nil o).

Module io.

(** [io.Reader]: [Read rd n] is [rd.Read(p)] for a slice [p] of length
    [n]; it gives the bytes stored at the start of [p] (their number is
    the count that [Read] returns), the error and the reader afterwards. *)
Class Reader (R : Type) : Type :=
  { Read : R -> nat -> list byte * option error * R }.

(** The loop [for n < min && err == nil] of [io.ReadAtLeast]. *)
Fixpoint readAtLeastLoop (R : Type) `{Reader R} (fuel : nat) (rd : R)
    (buf : list byte) (min n : nat) (err : option error)
  : option (list byte * nat * option error * R) :=
  if (n <? min) && is_nil err then
    match fuel with
    | O => None
    | S fuel' =>
      let '(bs, e, rd') := Read rd (length buf - n) in
      readAtLeastLoop fuel' rd' (store buf n bs) min (n + length bs) e
    end
  else Some (buf, n, err, rd).

(** [io.ReadAtLeast(r, buf, min)]; [None] when the fuel runs out. *)
Definition ReadAtLeast (R : Type) `{Reader R} (fuel : nat) (rd : R)
    (buf : list byte) (min : nat)
  : option (list byte * nat * option error * R) :=
  if length buf <? min then Some (buf, 0, Some ErrShortBuffer, rd)
  else
    match readAtLeastLoop fuel rd buf min 0 None with
    | None => None
    | Some (buf', n, err, rd') =>
      if min <=? n then Some (buf', n, None, rd')
      else
        match err with
        | Some EOF => if 0 <? n then Some (buf', n, Some ErrUnexpectedEOF, rd')
                      else Some (buf', n, err, rd')
        | _ => Some (buf', n, err, rd')
        end
    end.

(** [io.ReadFull(r, buf)] *)
Definition ReadFull (R : Type) `{Reader R} (fuel : nat) (rd : R)
    (buf : list byte) :=
  ReadAtLeast fuel rd buf (length buf).

(** A reader as a source of bytes: [content rd] is what [rd] has yet to
    deliver.  A read hands over a prefix of it that fits the slice,
    signals [EOF] only once nothing is left, and signals nothing but
    [EOF] or a fault of its own; in particular it does not itself return
    [io.ErrUnexpectedEOF], the sentinel by which [io.ReadFull] reports a
    short read. *)
Record Lawful (R : Type) `{Reader R} (content : R -> list byte) : Prop :=
  { read_bytes : forall rd n bs e rd',
      Read rd n = (bs, e, rd') -> content rd = bs ++ content rd';
    read_count : forall rd n bs e rd',
      Read rd n = (bs, e, rd') -> length bs <= n;
    read_eof : forall rd n bs rd',
      Read rd n = (bs, Some EOF, rd') -> content rd' = [];
    read_signal : forall rd n bs e rd',
      Read rd n = (bs, Some e, rd') -> e = EOF \/ exists msg, e = ReadFault msg }.

(** A reader that never returns a zero count with a nil error on a
    non-empty slice. *)
Definition Progressing (R : Type) `{Reader R} : Prop :=
  forall rd n bs rd', 0 < n -> Read rd n = (bs, None, rd') -> bs <> [].

(** A reader that never signals the end of its stream. *)
Definition NeverEOF (R : Type) `{Reader R} : Prop :=
  forall rd n bs rd', Read rd n <> (bs, Some EOF, rd').

(** A reader whose only signal is the end of its stream. *)
Definition FaultFree (R : Type) `{Reader R} : Prop :=
  forall rd n bs e rd', Read rd n = (bs, Some e, rd') -> e = EOF.

End io.

Module strings.

(** [strings.Reader]: the string and the current reading index. *)
Record Reader : Type := { s : list byte; i : nat }.

Definition NewReader (str : list byte) : Reader := {| s := str; i := 0 |}.

Definition Read (rd : Reader) (n : nat) : list byte * option error * Reader :=
  if length (s rd) <=? i rd then ([], Some EOF, rd)
  else
    let bs := firstn n (skipn (i rd) (s rd)) in
    (bs, None, {| s := s rd; i := i rd + length bs |}).

#[global] Instance Reader_io : io.Reader Reader := {| io.Read := Read |}.

(** The unread portion of the string. *)
Definition content (rd : Reader) : list byte := skipn (i rd) (s rd).

End strings.

Module iotest.

(** A reader that delivers [s] and then fails with an error of its own
    instead of signalling the end of the stream: what
    [io.MultiReader(strings.NewReader(s), iotest.ErrReader(errors.New(msg)))]
    does. *)
Record FaultyReader : Type := { s : list byte; i : nat; msg : String.string }.

Definition NewFaultyReader (str : list byte) (m : String.string)
  : FaultyReader :=
  {| s := str; i := 0; msg := m |}.

Definition Read (rd : FaultyReader) (n : nat)
  : list byte * option error * FaultyReader :=
  if length (s rd) <=? i rd then ([], Some (ReadFault (msg rd)), rd)
  else
    let bs := firstn n (skipn (i rd) (s rd)) in
    (bs, None, {| s := s rd; i := i rd + length bs; msg := msg rd |}).

#[global] Instance FaultyReader_io : io.Reader FaultyReader := {| io.Read := Read |}.

Definition content (rd : FaultyReader) : list byte := skipn (i rd) (s rd).

(** A reader that delivers [data] and then returns the error [err] on
    every read, whichever error it is: what
    [io.MultiReader(strings.NewReader(data), iotest.ErrReader(err))]
    does, and [iotest.ErrReader(err)] itself when [data] is empty. *)
Record ErrReader : Type := { data : list byte; pos : nat; err : error }.

Definition NewErrReader (str : list byte) (e : error) : ErrReader :=
  {| data := str; pos := 0; err := e |}.

Definition ReadErr (rd : ErrReader) (n : nat)
  : list byte * option error * ErrReader :=
  if length (data rd) <=? pos rd then ([], Some (err rd), rd)
  else
    let bs := firstn n (skipn (pos rd) (data rd)) in
    (bs, None, {| data := data rd; pos := pos rd + length bs; err := err rd |}).

#[global] Instance ErrReader_io : io.Reader ErrReader := {| io.Read := ReadErr |}.

End iotest.

(* ================================================================== *)
(** * Buffered channels, as the pool and the reader use them *)
(* ================================================================== *)

Module Chan.

(** [make(chan A, cap)] and the values queued in it. *)
Record chan (A : Type) : Type := { cap : nat; queue : list A }.

Definition make (A : Type) (n : nat) : chan A := {| cap := n; queue := [] |}.

(** The receive case of a [select] with a [default]: [None] when receiving
    would block. *)
Definition try_recv (A : Type) (c : chan A) : option (A * chan A) :=
  match queue c with
  | [] => None
  | x :: q => Some (x, {| cap := cap c; queue := q |})
  end.

(** The send case of a [select] with a [default]: [None] when sending
    would block. *)
Definition try_send (A : Type) (c : chan A) (x : A) : option (chan A) :=
  if length (queue c) <? cap c
  then Some {| cap := cap c; queue := queue c ++ [x] |}
  else None.

End Chan.

(* ================================================================== *)
(** * [bufio.Scanner] *)
(* ================================================================== *)

(** The scanner of Go's standard library (scan.go, as of Go 1.22), field
    by field and branch by branch.  The only omission is the guard against
    a buffer longer than [maxInt/2], which unbounded [nat] lengths make
    moot. *)

Module bufio.

(** [bufio.SplitFunc]: from the window and [atEOF] to
    [(advance, token, err)]; a nil token is [None]. *)
Definition SplitFunc : Type :=
  list byte -> bool -> nat * option (list byte) * option error.

Definition maxConsecutiveEmptyReads : nat := 100.
Definition startBufSize : nat := 4096.

Record Scanner (R : Type) : Type := mkScanner
  { r : R;                        (* the reader provided by the client *)
    split : SplitFunc;            (* the function to split the tokens *)
    maxTokenSize : nat;           (* maximum size of a token *)
    token : option (list byte);   (* last token returned by split *)
    buf : list byte;              (* buffer used as argument to split *)
    start : nat;                  (* first non-processed byte in buf *)
    end_ : nat;                   (* end of data in buf *)
    err : option error;           (* sticky error *)
    empties : nat;                (* count of successive empty tokens *)
    done : bool }.                (* scan has finished *)

Section Scanner.

Context (R : Type) `{io.Reader R}.

(** [bufio.NewScanner(rd)] followed by [scanner.Buffer(scanBuf, max)] and
    [scanner.Split(f)]: the buffer is [scanBuf[0:cap(scanBuf)]]. *)
Definition NewScanner (rd : R) (scanBuf : list byte) (max : nat)
    (f : SplitFunc) : Scanner R :=
  {| r := rd; split := f; maxTokenSize := max; token := None;
     buf := scanBuf; start := 0; end_ := 0; err := None; empties := 0;
     done := false |}.

Definition set_r (s : Scanner R) (rd : R) : Scanner R :=
  mkScanner rd (split s) (maxTokenSize s) (token s) (buf s) (start s)
            (end_ s) (err s) (empties s) (done s).

Definition set_token (s : Scanner R) (t : option (list byte)) : Scanner R :=
  mkScanner (r s) (split s) (maxTokenSize s) t (buf s) (start s)
            (end_ s) (err s) (empties s) (done s).

Definition set_data (s : Scanner R) (b : list byte) (st en : nat) : Scanner R :=
  mkScanner (r s) (split s) (maxTokenSize s) (token s) b st en
            (err s) (empties s) (done s).

Definition set_err (s : Scanner R) (e : option error) : Scanner R :=
  mkScanner (r s) (split s) (maxTokenSize s) (token s) (buf s) (start s)
            (end_ s) e (empties s) (done s).

Definition set_empties (s : Scanner R) (n : nat) : Scanner R :=
  mkScanner (r s) (split s) (maxTokenSize s) (token s) (buf s) (start s)
            (end_ s) (err s) n (done s).

Definition set_done (s : Scanner R) (d : bool) : Scanner R :=
  mkScanner (r s) (split s) (maxTokenSize s) (token s) (buf s) (start s)
            (end_ s) (err s) (empties s) d.

(** [s.buf[s.start:s.end]] *)
Definition window (s : Scanner R) : list byte :=
  slice (buf s) (start s) (end_ s).

(** [Scanner.Bytes] *)
Definition Bytes (s : Scanner R) : list byte :=
  match token s with Some t => t | None => [] end.

(** [Scanner.Err]: the first non-EOF error met by the scanner. *)
Definition Err (s : Scanner R) : option error :=
  match err s with
  | Some EOF => None
  | e => e
  end.

(** [Scanner.setErr]: records the first error encountered. *)
Definition setErr (s : Scanner R) (e : error) : Scanner R :=
  match err s with
  | None | Some EOF => set_err s (Some e)
  | Some _ => s
  end.

(** [Scanner.advance]; the offset is a [nat], so the test for a negative
    advance is not needed. *)
Definition advance (s : Scanner R) (n : nat) : bool * Scanner R :=
  if end_ s - start s <? n then (false, setErr s ErrAdvanceTooFar)
  else (true, set_data s (buf s) (start s + n) (end_ s)).

(** The read loop at the end of an iteration of [Scan]; [k] counts down
    the empty reads that are still tolerated. *)
Fixpoint fill (k : nat) (s : Scanner R) : Scanner R :=
  let '(bs, e, rd') := io.Read (r s) (length (buf s) - end_ s) in
  let s0 := set_r s rd' in
  if length (buf s0) - end_ s0 <? length bs then setErr s0 ErrBadReadCount
  else
    let s1 := set_data s0 (store (buf s0) (end_ s0) bs) (start s0)
                       (end_ s0 + length bs) in
    match e with
    | Some e' => setErr s1 e'
    | None =>
      if 0 <? length bs then set_empties s1 0
      else match k with
           | O => setErr s1 ErrNoProgress
           | S k' => fill k' s1
           end
    end.

(** The outcome of one iteration of the loop of [Scan]. *)
Inductive result : Type :=
| Return (b : bool) (s : Scanner R)     (* [Scan] returns [b] *)
| Panic (msg : String.string)           (* [Scan] panics *)
| Continue (s : Scanner R)              (* the loop goes round again *)
| Exhausted.                            (* the model ran out of fuel *)

(** First half of an iteration: see if a token can be had with what the
    buffer holds.  [Continue] falls through to the second half. *)
Definition trySplit (s : Scanner R) : result :=
  if (start s <? end_ s) || not_nil (err s) then
    let '(adv, tok, e) := split s (window s) (not_nil (err s)) in
    match e with
    | Some ErrFinalToken =>
      Return (not_nil tok) (set_done (set_token s tok) true)
    | Some e' => Return false (setErr s e')
    | None =>
      match advance s adv with
      | (false, s1) => Return false s1
      | (true, s1) =>
        let s2 := set_token s1 tok in
        match tok with
        | Some _ =>
          if is_nil (err s2) || (0 <? adv) then Return true (set_empties s2 0)
          else
            let s3 := set_empties s2 (S (empties s2)) in
            if maxConsecutiveEmptyReads <? empties s3
            then Panic "bufio.Scan: too many empty tokens without progressing"%string
            else Return true s3
        | None => Continue s2
        end
      end
    end
  else Continue s.

(** Shift the data to the beginning of the buffer if there is lots of
    empty space or space is needed. *)
Definition shift (s : Scanner R) : Scanner R :=
  if (0 <? start s)
     && ((end_ s =? length (buf s)) || (length (buf s) / 2 <? start s))
  then set_data s (fst (copy (buf s) (window s))) 0 (end_ s - start s)
  else s.

(** Resize a full buffer; [None] when it has reached [maxTokenSize]. *)
Definition grow (s : Scanner R) : option (Scanner R) :=
  if end_ s =? length (buf s) then
    if maxTokenSize s <=? length (buf s) then None
    else
      let newSize := length (buf s) * 2 in
      let newSize := if newSize =? 0 then startBufSize else newSize in
      let newSize := Nat.min newSize (maxTokenSize s) in
      let newBuf := make newSize in
      Some (set_data s (fst (copy newBuf (window s))) 0 (end_ s - start s))
  else Some s.

(** Second half of an iteration: no token could be generated. *)
Definition readMore (s : Scanner R) : result :=
  if not_nil (err s) then Return false (set_data s (buf s) 0 0)
  else
    match grow (shift s) with
    | None => Return false (setErr (shift s) ErrTooLong)
    | Some s1 => Continue (fill maxConsecutiveEmptyReads s1)
    end.

Definition scanStep (s : Scanner R) : result :=
  match trySplit s with
  | Continue s1 => readMore s1
  | res => res
  end.

Fixpoint scanLoop (fuel : nat) (s : Scanner R) : result :=
  match fuel with
  | O => Exhausted
  | S fuel' =>
    match scanStep s with
    | Continue s1 => scanLoop fuel' s1
    | res => res
    end
  end.

(** [Scanner.Scan] *)
Definition Scan (fuel : nat) (s : Scanner R) : result :=
  if done s then Return false s else scanLoop fuel s.

End Scanner.

End bufio.

(* ================================================================== *)
(** * rip.go *)
(* ================================================================== *)

(** Stores the backing buffer and length at which a receiver will need to
    slice the backing buffer to get a full token. *)
Record chunk : Type := { readableSize : nat; buffer : list byte }.

(** [chunk.buffer[:chunk.readableSize]] *)
Definition ReadableBytes (c : chunk) : list byte :=
  firstn (readableSize c) (buffer c).

Module Pool.

Record t : Type := { pool : Chan.chan (list byte); bufferSize : nat }.

Definition NewPool (max bufferSize : nat) : t :=
  {| pool := Chan.make (list byte) max; bufferSize := bufferSize |}.

(** [select { case c = <-p.pool: default: c = make([]byte, p.bufferSize) }] *)
Definition Borrow (p : t) : list byte * t :=
  match Chan.try_recv (pool p) with
  | Some (c, ch) => (c, {| pool := ch; bufferSize := bufferSize p |})
  | None => (make (bufferSize p), p)
  end.

(** [select { case p.pool <- c: default: }] *)
Definition Return (p : t) (c : list byte) : t :=
  match Chan.try_send (pool p) c with
  | Some ch => {| pool := ch; bufferSize := bufferSize p |}
  | None => p
  end.

End Pool.

(** The fields of the reader that outlive a call; [r.pool] is set afresh
    by every [Read] and [ReadFixed] and is threaded through their loops
    here. *)
Record ParallelReader : Type :=
  { Concurrency : nat;
    ChunkSize : nat;
    ChunkBoundary : list byte;
    chunks : Chan.chan chunk }.

(** [NewParallelReader], on a machine where [runtime.NumCPU()] is
    [NumCPU]. *)
Definition NewParallelReader (NumCPU : nat) : ParallelReader :=
  {| Concurrency := NumCPU;
     ChunkBoundary := [x0a];
     ChunkSize := Nat.shiftl 1 16;
     chunks := Chan.make chunk NumCPU |}.

(** The assignments [r.Concurrency = n], [r.ChunkSize = n] and
    [r.ChunkBoundary = b] a caller makes after construction. *)
Definition set_Concurrency (r : ParallelReader) (n : nat) : ParallelReader :=
  {| Concurrency := n; ChunkSize := ChunkSize r;
     ChunkBoundary := ChunkBoundary r; chunks := chunks r |}.

Definition set_ChunkSize (r : ParallelReader) (n : nat) : ParallelReader :=
  {| Concurrency := Concurrency r; ChunkSize := n;
     ChunkBoundary := ChunkBoundary r; chunks := chunks r |}.

Definition set_ChunkBoundary (r : ParallelReader) (b : list byte)
  : ParallelReader :=
  {| Concurrency := Concurrency r; ChunkSize := ChunkSize r;
     ChunkBoundary := b; chunks := chunks r |}.

(** Custom [bufio.Scanner] split function that returns chunks of bytes as
    close to the configured [ChunkSize] as possible, while respecting the
    record boundary specified by [ChunkBoundary]. *)
Definition ScanChunksWithBoundary (r : ParallelReader) : bufio.SplitFunc :=
  fun data atEOF =>
    (* Request more data until we have at least the desired chunk size. *)
    if negb atEOF && (length data <? ChunkSize r) then (0, None, None)
    else
      let idx := LastIndex data (ChunkBoundary r) in
      if (idx >? -1)%Z then
        let boundaryEnd := Z.to_nat idx + length (ChunkBoundary r) in
        (boundaryEnd, Some (firstn boundaryEnd data), None)
      else if negb atEOF then (0, None, None)
      else (0, Some data, Some ErrFinalToken).

(** How a call of [Read] or [ReadFixed] ends. *)
Inductive status : Type :=
| Returned                           (* the call returns *)
| Panicked (e : error)               (* [panic(err)] *)
| ScanPanicked (msg : String.string) (* a panic inside [Scan] *)
| Blocked                            (* the send on [r.chunks] blocks for ever *)
| OutOfFuel.                         (* the model ran out of fuel *)

(** The end of a call and the chunks sent on [r.chunks], in the order in
    which they were sent, each as the bytes [chunk.ReadableBytes()] that
    the worker receiving it passes to the callback; with no worker
    ([r.Concurrency = 0]) they wait in the queue and the callback is
    never called. *)
Record outcome : Type := { ending : status; delivered : list (list byte) }.

(** What a worker goroutine of [startWorkers] does with a chunk it
    receives: [fn(chunk.ReadableBytes())], then
    [r.pool.Return(chunk.buffer)]. *)
Definition worker (p : Pool.t) (c : chunk) (calls : list (list byte))
  : Pool.t * list (list byte) :=
  (Pool.Return p (buffer c), calls ++ [ReadableBytes c]).

(** The send [r.chunks <- c] of the reader goroutine, with the
    [workers] goroutines that [startWorkers] has started ranging over
    [r.chunks].  With at least one worker, the workers are taken to be
    waiting on the queue whenever the reader sends (the queue, empty when
    the reader is constructed, then stays empty): the chunk is received at
    once and handled by [worker].  With [r.Concurrency = 0] no goroutine
    ever receives: the chunk waits in the queue while there is room, and
    once the queue is full the send blocks for ever, which is [None]. *)
Definition send (workers : nat) (ch : Chan.chan chunk) (p : Pool.t)
    (c : chunk) (calls : list (list byte))
  : option (Chan.chan chunk * Pool.t * list (list byte)) :=
  match workers with
  | O =>
    match Chan.try_send ch c with
    | Some ch1 => Some (ch1, p, calls ++ [ReadableBytes c])
    | None => None
    end
  | S _ => let (p1, calls1) := worker p c calls in Some (ch, p1, calls1)
  end.

Section Entry.

Context (R : Type) `{io.Reader R}.

(** The loop [for scanner.Scan() { ... }] of [Read] and what follows it,
    with [workers] goroutines started by [startWorkers] and the queue
    [ch] of [r.chunks]. *)
Fixpoint scanAll (fuel : nat) (workers : nat) (scanner : bufio.Scanner R)
    (pool : Pool.t) (ch : Chan.chan chunk) (calls : list (list byte))
  : outcome :=
  match fuel with
  | O => {| ending := OutOfFuel; delivered := calls |}
  | S fuel' =>
    match bufio.Scan fuel' scanner with
    | bufio.Return true scanner1 =>
      let token := bufio.Bytes scanner1 in
      let (buf, pool1) := Pool.Borrow pool in
      if 0 <? length token then
        let (buf1, size) := copy buf token in
        match send workers ch pool1
                   {| buffer := buf1; readableSize := size |} calls with
        | Some (ch1, pool2, calls1) =>
          scanAll fuel' workers scanner1 pool2 ch1 calls1
        | None => {| ending := Blocked; delivered := calls |}
        end
      else scanAll fuel' workers scanner1 pool1 ch calls
    | bufio.Return false scanner1 =>
      match bufio.Err scanner1 with
      | Some e => {| ending := Panicked e; delivered := calls |}
      | None => {| ending := Returned; delivered := calls |}
      end
    | bufio.Panic _ msg => {| ending := ScanPanicked msg; delivered := calls |}
    | bufio.Continue _ | bufio.Exhausted _ =>
      {| ending := OutOfFuel; delivered := calls |}
    end
  end.

(** [Read] takes an input stream and calls the passed callback once per
    chunk. *)
Definition Read (fuel : nat) (r : ParallelReader) (stream : R) : outcome :=
  let pool := Pool.NewPool (Concurrency r) (ChunkSize r) in
  let scanBuf := make (ChunkSize r) in
  let scanner :=
    bufio.NewScanner stream scanBuf (ChunkSize r) (ScanChunksWithBoundary r) in
  scanAll fuel (Concurrency r) scanner pool (chunks r) [].

(** The loop of [ReadFixed], with [workers] goroutines started by
    [startWorkers] and the queue [ch] of [r.chunks]. *)
Fixpoint readFixedLoop (fuel : nat) (workers : nat) (stream : R)
    (pool : Pool.t) (ch : Chan.chan chunk) (calls : list (list byte))
  : outcome :=
  match fuel with
  | O => {| ending := OutOfFuel; delivered := calls |}
  | S fuel' =>
    let (buf, pool1) := Pool.Borrow pool in
    match io.ReadFull fuel' stream buf with
    | None => {| ending := OutOfFuel; delivered := calls |}
    | Some (buf1, actualReadSize, err, stream1) =>
      let chunk := {| buffer := buf1; readableSize := actualReadSize |} in
      match err with
      | None =>
        match send workers ch pool1 chunk calls with
        | Some (ch1, pool2, calls1) =>
          readFixedLoop fuel' workers stream1 pool2 ch1 calls1
        | None => {| ending := Blocked; delivered := calls |}
        end
      | Some ErrUnexpectedEOF =>
        (* at EOF, but there is still some data *)
        match send workers ch pool1 chunk calls with
        | Some (_, _, calls1) => {| ending := Returned; delivered := calls1 |}
        | None => {| ending := Blocked; delivered := calls |}
        end
      | Some EOF => {| ending := Returned; delivered := calls |}
      | Some e => {| ending := Panicked e; delivered := calls |}
      end
    end
  end.

(** [ReadFixed]: fixed size chunks, no record boundary. *)
Definition ReadFixed (fuel : nat) (r : ParallelReader) (stream : R) : outcome :=
  readFixedLoop fuel (Concurrency r) stream
                (Pool.NewPool (Concurrency r) (ChunkSize r)) (chunks r) [].

End Entry.

(* ================================================================== *)
(** * Required and bracketed boundaries *)
(* ================================================================== *)

(** Modelled from the spec: the configuration fields [ChunkBoundaryStart]
    and [RequireBoundary], which rip_test.go assigns and rip.go does not
    declare.  Section 3: [ChunkBoundaryStart] is an optional literal byte
    sequence beginning a bracketed record, empty meaning that the boundary
    is end-only; with [RequireBoundary], trailing unterminated data at the
    end of the stream is discarded. *)
Record Boundaries : Type :=
  { ChunkBoundaryStart : list byte; RequireBoundary : bool }.

(** Modelled from the spec: the split function for these two fields,
    missing from rip.go, after section 4.2.  Steps 1 to 3 are those of
    [ScanChunksWithBoundary].  Step 4, at the end of the input with no
    boundary found: emit what remains when [RequireBoundary] is false,
    discard it (emit nothing) when it is true.  With a start sequence a
    chunk begins at the first start sequence of the window and ends at its
    last end sequence; the bytes before the start are passed over, and at
    the end of the input what holds no complete span is discarded
    whatever [RequireBoundary] is. *)
Definition ScanChunksWithBoundaries (r : ParallelReader) (b : Boundaries)
  : bufio.SplitFunc :=
  fun data atEOF =>
    if negb atEOF && (length data <? ChunkSize r) then (0, None, None)
    else
      match ChunkBoundaryStart b with
      | [] =>
        let idx := LastIndex data (ChunkBoundary r) in
        if (idx >? -1)%Z then
          let boundaryEnd := Z.to_nat idx + length (ChunkBoundary r) in
          (boundaryEnd, Some (firstn boundaryEnd data), None)
        else if negb atEOF then (0, None, None)
        else if RequireBoundary b then (0, None, Some ErrFinalToken)
        else (0, Some data, Some ErrFinalToken)
      | _ :: _ =>
        let first := Index data (ChunkBoundaryStart b) in
        let last := LastIndex data (ChunkBoundary r) in
        if (first >? -1)%Z && (last >? -1)%Z
           && (Z.to_nat first + length (ChunkBoundaryStart b) <=? Z.to_nat last)
        then
          let boundaryEnd := Z.to_nat last + length (ChunkBoundary r) in
          (boundaryEnd,
           Some (slice data (Z.to_nat first) boundaryEnd), None)
        else if negb atEOF then (0, None, None)
        else (0, None, Some ErrFinalToken)
      end.

(** Modelled from the spec: [Read] with the split function above; the
    rest of the call is that of rip.go. *)
Definition ReadWithBoundaries (R : Type) `{io.Reader R} (fuel : nat)
    (r : ParallelReader) (b : Boundaries) (stream : R) : outcome :=
  let pool := Pool.NewPool (Concurrency r) (ChunkSize r) in
  let scanBuf := make (ChunkSize r) in
  let scanner :=
    bufio.NewScanner stream scanBuf (ChunkSize r)
                     (ScanChunksWithBoundaries r b) in
  scanAll fuel (Concurrency r) scanner pool (chunks r) [].

(* ================================================================== *)
(** * The vocabulary of the statements *)
(* ================================================================== *)

(** [t] ends with [sep] / begins with [sep]. *)
Definition ends_with (sep t : list byte) : Prop := exists pre, t = pre ++ sep.
Definition begins_with (sep t : list byte) : Prop := exists post, t = sep ++ post.

(** [sep] occurs nowhere in [t]. *)
Definition free_of (sep t : list byte) : Prop := forall j, ~ occurs_at sep t j.

(** [toks] are successive pieces of [inp], in order and without overlap;
    what lies before each piece satisfies [G]. *)
Inductive Pieces (G : list byte -> Prop) : list byte -> list (list byte) -> Prop :=
| Pieces_nil (inp : list byte) : Pieces G inp []
| Pieces_cons (gap t inp : list byte) (toks : list (list byte)) :
    G gap -> Pieces G inp toks -> Pieces G (gap ++ t ++ inp) (t :: toks).

(** Every stretch of [n] consecutive bytes of [inp] holds an occurrence
    of [sep]: no record of [inp], with its boundary, is longer than [n]. *)
Definition every_stretch_holds (sep : list byte) (n : nat) (inp : list byte)
  : Prop :=
  forall pre w post,
    inp = pre ++ w ++ post -> length w = n -> exists j, occurs_at sep w j.

(** The same, decided: the stretch of [n] bytes at every offset of [inp]
    is searched with [LastIndex], as the split function searches its
    window. *)
Definition stretches_hold (sep : list byte) (n : nat) (inp : list byte)
  : bool :=
  forallb (fun i => (LastIndex (slice inp i (i + n)) sep >? -1)%Z)
          (seq 0 (length inp + 1 - n)).

(** The fixed-size cutting of a stream that the spec describes for
    [ReadFixed]: pieces of [n] bytes, the last one shorter when the length
    is not a multiple of [n], and no piece for what is empty. *)
Fixpoint chunksOf_ (k n : nat) (l : list byte) : list (list byte) :=
  match k with
  | O => []
  | S k' =>
    match l with
    | [] => []
    | _ :: _ => firstn n l :: chunksOf_ k' n (skipn n l)
    end
  end.

Definition chunksOf (n : nat) (l : list byte) : list (list byte) :=
  chunksOf_ (length l) n l.

(** Every buffer of the pool has the length the pool allocates, and the
    pool holds no more than its capacity. *)
Record PoolOK (B : nat) (p : Pool.t) : Prop :=
  { pool_size : Pool.bufferSize p = B;
    pool_bufs : Forall (fun b => length b = B) (Chan.queue (Pool.pool p));
    pool_cap : length (Chan.queue (Pool.pool p)) <= Chan.cap (Pool.pool p) }.

(** What a split function has to guarantee for the scanner to cut the
    input into pieces: a token ends where the scanner advances to, and it
    is preceded there by a gap satisfying [G]; [P] holds of the tokens
    that are not final and [Q] of the final one; no token without
    advancing before the end of the input; [ErrFinalToken] is the only
    error, only at the end of the input. *)
Record SplitSpec (G P Q : list byte -> Prop) (f : bufio.SplitFunc) : Prop :=
  { split_token : forall data atEOF adv t,
      f data atEOF = (adv, Some t, None) ->
      adv <= length data /\
      exists gap, firstn adv data = gap ++ t /\ G gap /\ P t;
    split_more : forall data atEOF adv,
      f data atEOF = (adv, None, None) -> adv = 0;
    split_err : forall data atEOF adv tok e,
      f data atEOF = (adv, tok, Some e) -> e = ErrFinalToken /\ atEOF = true;
    split_final : forall data atEOF adv t e,
      f data atEOF = (adv, Some t, Some e) ->
      exists gap, data = gap ++ t /\ G gap /\ Q t;
    split_moves : forall data adv t,
      data <> [] -> f data false = (adv, Some t, None) -> 0 < adv;
    gap_nil : G [];
    gap_app : forall g1 g2, G g1 -> G g2 -> G (g1 ++ g2) }.

(** A split function that leaves nothing out: no gaps, and a token
    whenever the input is at its end. *)
Record SplitExact (G : list byte -> Prop) (f : bufio.SplitFunc) : Prop :=
  { exact_gap : forall g, G g -> g = [];
    exact_eof : forall data adv e, f data true <> (adv, None, e) }.

(** The signals of a lawful reader. *)
Definition signal_ok (e : option error) : Prop :=
  match e with
  | None | Some EOF | Some (ReadFault _) => True
  | Some _ => False
  end.

(** What the loop of [ReadFixed] may do on a pool of buffers of [B]
    bytes: the chunks it delivers begin the fixed-size cutting of the
    stream and are all of it when the call returns; it panics on faults of
    the reader only, returns only after an [EOF], and ends within the
    fuel bound when the reader makes progress. *)
Definition fixed_ok (R : Type) `{io.Reader R} (content : R -> list byte)
    (B : nat) (stream : R) (calls : list (list byte))
    (fuel : nat) (o : outcome) : Prop :=
  exists new,
    delivered o = calls ++ new /\
    (exists more, chunksOf B (content stream) = new ++ more) /\
    (ending o = Returned -> new = chunksOf B (content stream)) /\
    (ending o <> Returned -> Forall (fun c => length c = B) new) /\
    (forall e, ending o = Panicked e -> exists msg, e = ReadFault msg) /\
    (forall msg, ending o <> ScanPanicked msg) /\
    (io.NeverEOF (R := R) -> ending o <> Returned) /\
    (io.Progressing (R := R) ->
     length (content stream) + B + 1 < fuel -> ending o <> OutOfFuel).

Section ScannerInvariant.

Context (R : Type) `{io.Reader R}.
Variable content : R -> list byte.
Variables G P Q : list byte -> Prop.
Variable f : bufio.SplitFunc.
Variable M : nat.

(** The bytes the scanner has not yet advanced over: the window and what
    the reader still holds; once the final token is out, the window has
    been handed over too. *)
Definition pending (s : bufio.Scanner R) : list byte :=
  if bufio.done s then content (bufio.r s)
  else bufio.window s ++ content (bufio.r s).

(** The invariant of the scanner of [Read]: the window lies within the
    buffer, the buffer never exceeds [maxTokenSize], and the counters are
    in step with the sticky error. *)
Record Inv (s : bufio.Scanner R) : Prop :=
  { inv_split : bufio.split s = f;
    inv_max : bufio.maxTokenSize s = M;
    inv_start : bufio.start s <= bufio.end_ s;
    inv_end : bufio.end_ s <= length (bufio.buf s);
    inv_buf : length (bufio.buf s) = M;
    inv_eof : bufio.err s = Some EOF -> content (bufio.r s) = [];
    inv_done : bufio.done s = true -> bufio.err s <> None;
    inv_empties : bufio.empties s <= bufio.maxConsecutiveEmptyReads;
    inv_fresh : bufio.err s = None -> bufio.empties s = 0 }.

(** Bounds on the iterations of [Scan] left in one call, and on the calls
    of [Scan] left in a run. *)
Definition iterations (s : bufio.Scanner R) : nat :=
  (bufio.maxTokenSize s - length (bufio.window s))
  + (if is_nil (bufio.err s) then 1 else 0).

Definition calls_left (s : bufio.Scanner R) : nat :=
  102 * length (pending s)
  + (if bufio.done s then 0 else 1 + (101 - bufio.empties s)).

(** [Scan] has returned true with the token [t], taking the scanner from
    [s] to [s']: the token follows a gap at the head of the pending bytes,
    it fits the buffer, and fewer calls are left. *)
Definition token_step (s s' : bufio.Scanner R) (t : list byte) : Prop :=
  Inv s' /\ bufio.token s' = Some t /\ length t <= M /\
  calls_left s' < calls_left s /\
  exists gap, G gap /\ pending s = gap ++ t ++ pending s' /\
    ((bufio.done s' = false /\ P t) \/ (bufio.done s' = true /\ Q t)).

(** What one iteration of the loop of [Scan] may do from [s]. *)
Definition step_ok (s : bufio.Scanner R) (res : bufio.result R) : Prop :=
  match res with
  | bufio.Return true s' => exists t, token_step s s' t
  | bufio.Return false s' =>
    bufio.Err s' = None -> SplitExact G f -> False
  | bufio.Panic _ _ => True
  | bufio.Continue s' =>
    Inv s' /\ bufio.done s' = false /\
    pending s' = pending s /\
    iterations s' < iterations s /\
    calls_left s' <= calls_left s
  | bufio.Exhausted _ => False
  end.

(** What a call of [Scan] may do from [s]. *)
Definition scan_ok (fuel : nat) (s : bufio.Scanner R) (res : bufio.result R)
  : Prop :=
  match res with
  | bufio.Return true s' => bufio.done s = false /\ exists t, token_step s s' t
  | bufio.Return false s' =>
    bufio.Err s' = None -> SplitExact G f -> pending s = []
  | bufio.Panic _ _ => True
  | bufio.Continue _ => False
  | bufio.Exhausted _ => fuel <= iterations s
  end.

(** What the loop of [Read] may do from [s]: it calls the callback on the
    tokens that are not final, then on the final one if there is one; they
    are non-empty pieces of the pending bytes that fit a buffer; when the
    call returns and the split function is exact they are all of the
    pending bytes; and the fuel is enough beyond a bound. *)
Definition run_ok (s : bufio.Scanner R) (calls : list (list byte))
    (fuel : nat) (o : outcome) : Prop :=
  exists toks last,
    delivered o = calls ++ toks ++ last /\
    Forall P toks /\
    (last = [] \/ exists t, last = [t] /\ Q t) /\
    Forall (fun t => t <> [] /\ length t <= M) (toks ++ last) /\
    Pieces G (pending s) (toks ++ last) /\
    (bufio.done s = true -> toks ++ last = []) /\
    (ending o = Returned -> SplitExact G f ->
     concat (toks ++ last) = pending s) /\
    (calls_left s + M + 2 < fuel -> ending o <> OutOfFuel).

End ScannerInvariant.

(** The scanner has met no fault, and what it has not yet advanced over
    is the end of [input]. *)
Definition on_track (R : Type) `{io.Reader R} (content : R -> list byte)
    (input : list byte) (s : bufio.Scanner R) : Prop :=
  (bufio.err s = None \/ bufio.err s = Some EOF) /\
  exists pre, input = pre ++ pending content s.

(** Unfolds the updates of a scanner and the projections of the result. *)
Ltac scn :=
  unfold calls_left, iterations in *; unfold pending in *;
  unfold bufio.setErr, bufio.Err, bufio.Bytes, bufio.window in *;
  unfold bufio.set_r, bufio.set_token, bufio.set_data, bufio.set_err,
    bufio.set_empties, bufio.set_done in *;
  cbn [bufio.r bufio.split bufio.maxTokenSize bufio.token bufio.buf
       bufio.start bufio.end_ bufio.err bufio.empties bufio.done] in *.

(* ================================================================== *)
(** * Facts about the byte functions *)
(* ================================================================== *)

Section BytesFacts.

Lemma HasPrefix_app (s p : list byte) :
  HasPrefix s p = true <-> exists post, s = p ++ post.
Proof.
  revert s; induction p as [|x p IH]; intros s; simpl.
  - split; [intros _; now exists s | reflexivity].
  - destruct s as [|y s].
    + split; [discriminate | intros [post H]; discriminate].
    + rewrite andb_true_iff, IH. split.
      * intros [H [post ->]]. apply byte_dec_bl in H. subst. now exists post.
      * intros [post [= -> ->]]. split; [now apply byte_dec_lb | now exists post].
Qed.

Lemma skipn_app_exact (A : Type) (pre l : list A) :
  skipn (length pre) (pre ++ l) = l.
Proof. induction pre; simpl; auto. Qed.

Lemma firstn_app_exact (A : Type) (pre l : list A) :
  firstn (length pre) (pre ++ l) = pre.
Proof. induction pre; simpl; f_equal; auto. Qed.

Lemma HasPrefix_occurs (sep s : list byte) (i : nat) :
  i <= length s ->
  (HasPrefix (skipn i s) sep = true <-> occurs_at sep s i).
Proof.
  intros Hi. rewrite HasPrefix_app. split.
  - intros [post H]. exists (firstn i s), post. split.
    + rewrite <- H. symmetry. apply firstn_skipn.
    + rewrite length_firstn. lia.
  - intros (pre & post & -> & <-). exists post. apply skipn_app_exact.
Qed.

Lemma occurs_at_bound (sep s : list byte) (i : nat) :
  occurs_at sep s i -> i + length sep <= length s.
Proof.
  intros (pre & post & -> & <-). rewrite !length_app. lia.
Qed.

Lemma lastIndexFrom_unfold (s sep : list byte) (i : nat) :
  lastIndexFrom s sep i =
  if HasPrefix (skipn i s) sep then Z.of_nat i
  else match i with
       | O => (-1)%Z
       | S j => lastIndexFrom s sep j
       end.
Proof. destruct i; reflexivity. Qed.

Lemma lastIndexFrom_none (s sep : list byte) (i : nat) :
  i <= length s ->
  lastIndexFrom s sep i = (-1)%Z ->
  forall j, j <= i -> ~ occurs_at sep s j.
Proof.
  induction i as [|i IH]; intros Hi H j Hj Hocc;
    rewrite lastIndexFrom_unfold in H;
    destruct (HasPrefix (skipn _ s) sep) eqn:E; try lia.
  - assert (j = 0) by lia. subst j.
    apply HasPrefix_occurs in Hocc; [congruence | lia].
  - destruct (Nat.eq_dec j (S i)) as [->|Hne].
    + apply HasPrefix_occurs in Hocc; [congruence | lia].
    + apply (IH ltac:(lia) H j ltac:(lia) Hocc).
Qed.

Lemma lastIndexFrom_some (s sep : list byte) (i k : nat) :
  i <= length s ->
  lastIndexFrom s sep i = Z.of_nat k ->
  k <= i /\ occurs_at sep s k /\
  forall j, j <= i -> occurs_at sep s j -> j <= k.
Proof.
  induction i as [|i IH]; intros Hi H;
    rewrite lastIndexFrom_unfold in H;
    destruct (HasPrefix (skipn _ s) sep) eqn:E; try lia.
  - assert (k = 0) by lia. subst k. split; [lia|]. split.
    + apply HasPrefix_occurs; [lia | exact E].
    + intros; lia.
  - assert (k = S i) by lia. subst k. split; [lia|]. split.
    + apply HasPrefix_occurs; [lia | exact E].
    + intros; lia.
  - destruct (IH ltac:(lia) H) as (Hk & Hocc & Hmax).
    split; [lia|]. split; [exact Hocc|].
    intros j Hj Hj'. destruct (Nat.eq_dec j (S i)) as [->|Hne].
    + apply HasPrefix_occurs in Hj'; [congruence | lia].
    + apply Hmax; [lia | exact Hj'].
Qed.

Lemma lastIndexFrom_range (s sep : list byte) (i : nat) :
  lastIndexFrom s sep i = (-1)%Z \/
  exists k, lastIndexFrom s sep i = Z.of_nat k.
Proof.
  induction i as [|i IH]; rewrite lastIndexFrom_unfold.
  - destruct (HasPrefix _ _); [right; now exists 0 | now left].
  - destruct (HasPrefix _ _); [right; now exists (S i) | exact IH].
Qed.

(** [LastIndex] finds nothing exactly when there is no occurrence. *)
Lemma LastIndex_none (s sep : list byte) :
  LastIndex s sep = (-1)%Z <-> forall j, ~ occurs_at sep s j.
Proof.
  unfold LastIndex. destruct (Nat.ltb_spec (length s) (length sep)) as [Hlt|Hge].
  - split; [|reflexivity]. intros _ j Hocc.
    apply occurs_at_bound in Hocc. lia.
  - split.
    + intros H j Hocc. pose proof (occurs_at_bound Hocc).
      apply (@lastIndexFrom_none s sep (length s - length sep)
               ltac:(lia) H j ltac:(lia) Hocc).
    + intros H.
      destruct (lastIndexFrom_range s sep (length s - length sep))
        as [E|[k E]]; [exact E|].
      destruct (@lastIndexFrom_some s sep (length s - length sep) k ltac:(lia) E) as (_ & Hocc & _).
      now apply H in Hocc.
Qed.

(** [LastIndex] returns [i] exactly when [i] is the last occurrence. *)
Lemma LastIndex_some (s sep : list byte) (i : nat) :
  LastIndex s sep = Z.of_nat i <-> last_occurrence sep s i.
Proof.
  unfold LastIndex, last_occurrence.
  destruct (Nat.ltb_spec (length s) (length sep)) as [Hlt|Hge].
  - split; [lia|]. intros [Hocc _]. apply occurs_at_bound in Hocc. lia.
  - split.
    + intros H. destruct (@lastIndexFrom_some s sep (length s - length sep) i ltac:(lia) H)
        as (_ & Hocc & Hmax).
      split; [exact Hocc|]. intros j Hj. pose proof (occurs_at_bound Hj).
      apply Hmax; [lia | exact Hj].
    + intros [Hocc Hmax].
      destruct (lastIndexFrom_range s sep (length s - length sep))
        as [E|[k E]].
      * pose proof (occurs_at_bound Hocc).
        exfalso. apply (@lastIndexFrom_none s sep (length s - length sep) ltac:(lia) E i ltac:(lia) Hocc).
      * destruct (@lastIndexFrom_some s sep (length s - length sep) k ltac:(lia) E)
          as (_ & Hocc' & Hmax').
        pose proof (occurs_at_bound Hocc).
        assert (k <= i) by now apply Hmax.
        assert (i <= k) by (apply Hmax'; [lia | exact Hocc]).
        rewrite E. f_equal. lia.
Qed.

Lemma LastIndex_range (s sep : list byte) :
  LastIndex s sep = (-1)%Z \/ exists i, LastIndex s sep = Z.of_nat i.
Proof.
  unfold LastIndex. destruct (length s <? length sep); [now left|].
  apply lastIndexFrom_range.
Qed.

End BytesFacts.

(* ================================================================== *)
(** * The split function *)
(* ================================================================== *)

Section SplitFacts.

Variable r : ParallelReader.

Lemma scan_more (data : list byte) :
  length data < ChunkSize r ->
  ScanChunksWithBoundary r data false = (0, None, None).
Proof.
  intros Hlt. unfold ScanChunksWithBoundary.
  apply Nat.ltb_lt in Hlt. now rewrite Hlt.
Qed.

Lemma scan_ready (data : list byte) (atEOF : bool) :
  atEOF = true \/ ChunkSize r <= length data ->
  negb atEOF && (length data <? ChunkSize r) = false.
Proof.
  intros [-> | Hge]; [reflexivity|].
  apply Nat.ltb_ge in Hge. rewrite Hge. apply andb_false_r.
Qed.

Lemma scan_found (data : list byte) (atEOF : bool) (i : nat) :
  atEOF = true \/ ChunkSize r <= length data ->
  LastIndex data (ChunkBoundary r) = Z.of_nat i ->
  ScanChunksWithBoundary r data atEOF =
  (i + length (ChunkBoundary r),
   Some (firstn (i + length (ChunkBoundary r)) data), None).
Proof.
  intros Hready Hidx. unfold ScanChunksWithBoundary.
  rewrite (scan_ready _ Hready), Hidx.
  replace (Z.of_nat i >? -1)%Z with true by (symmetry; apply Z.gtb_lt; lia).
  now rewrite Nat2Z.id.
Qed.

Lemma scan_not_found (data : list byte) (atEOF : bool) :
  atEOF = true \/ ChunkSize r <= length data ->
  LastIndex data (ChunkBoundary r) = (-1)%Z ->
  ScanChunksWithBoundary r data atEOF =
  if atEOF then (0, Some data, Some ErrFinalToken) else (0, None, None).
Proof.
  intros Hready Hidx. unfold ScanChunksWithBoundary.
  rewrite (scan_ready _ Hready), Hidx. simpl. now destruct atEOF.
Qed.

End SplitFacts.

(** C1. In end-only mode the boundary scanner, on a window [data] and a
    flag [atEOF]: asks for more data (advance 0, no token) when the input
    is not at its end and the window is shorter than [ChunkSize];
    otherwise, when the last occurrence of the boundary in the window is
    at offset [i], it emits exactly [data[0 .. i+len(boundary))] and
    consumes exactly [i+len(boundary)] bytes. *)
Theorem C1_scan_end_only (r : ParallelReader) (data : list byte) (atEOF : bool) :
  (atEOF = false -> length data < ChunkSize r ->
   ScanChunksWithBoundary r data atEOF = (0, None, None))
  /\
  (forall i,
     atEOF = true \/ ChunkSize r <= length data ->
     last_occurrence (ChunkBoundary r) data i ->
     ScanChunksWithBoundary r data atEOF =
     (i + length (ChunkBoundary r),
      Some (firstn (i + length (ChunkBoundary r)) data), None)).
Proof.
  split.
  - intros -> Hlt. now apply scan_more.
  - intros i Hready Hlast. apply scan_found; [exact Hready|].
    now apply LastIndex_some.
Qed.

(** The window "ab\ncd\nef" at the end of the input: the last newline is
    at offset 5, the chunk is "ab\ncd\n" and 6 bytes are consumed. *)
Lemma C1_scan_end_only_witness :
  ScanChunksWithBoundary (NewParallelReader 4)
    (of_string "ab" ++ [x0a] ++ of_string "cd" ++ [x0a] ++ of_string "ef") true
  = (6, Some (of_string "ab" ++ [x0a] ++ of_string "cd" ++ [x0a]), None).
Proof.
  apply (proj2 (C1_scan_end_only (NewParallelReader 4)
    (of_string "ab" ++ [x0a] ++ of_string "cd" ++ [x0a] ++ of_string "ef")
    true) 5).
  - left; reflexivity.
  - apply LastIndex_some. reflexivity.
Defined.

(* ================================================================== *)
(** * The buffer pool and the chunk queue *)
(* ================================================================== *)

Section PoolFacts.

Lemma length_make (n : nat) : length (make n) = n.
Proof. apply repeat_length. Qed.

Lemma NewPool_ok (max B : nat) : PoolOK B (Pool.NewPool max B).
Proof. split; simpl; [reflexivity | constructor | lia]. Qed.

Lemma Borrow_ok (B : nat) (p : Pool.t) :
  PoolOK B p ->
  length (fst (Pool.Borrow p)) = B /\ PoolOK B (snd (Pool.Borrow p)).
Proof.
  intros Hp. pose proof Hp as [Hsize Hbufs Hcap].
  unfold Pool.Borrow, Chan.try_recv.
  destruct (Chan.queue (Pool.pool p)) as [|b q] eqn:E; simpl.
  - split; [now rewrite length_make | exact Hp].
  - inversion Hbufs; subst. split; [assumption|].
    split; simpl in *; [reflexivity | assumption | lia].
Qed.

Lemma Return_ok (B : nat) (p : Pool.t) (c : list byte) :
  PoolOK B p -> length c = B -> PoolOK B (Pool.Return p c).
Proof.
  intros [Hsize Hbufs Hcap] Hc. unfold Pool.Return, Chan.try_send.
  destruct (Nat.ltb_spec (length (Chan.queue (Pool.pool p)))
                         (Chan.cap (Pool.pool p))) as [Hlt|Hge].
  - split; simpl; [exact Hsize | | rewrite length_app; simpl; lia].
    apply Forall_app. split; [exact Hbufs | now constructor].
  - now split.
Qed.

Lemma length_copy (dst src : list byte) :
  length (fst (copy dst src)) = length dst.
Proof.
  unfold copy; simpl. rewrite length_app, length_firstn, length_skipn. lia.
Qed.

Lemma send_spec (w : nat) (ch : Chan.chan chunk) (p : Pool.t) (c : chunk)
    (calls : list (list byte)) :
  match send w ch p c calls with
  | Some (ch1, p1, calls1) =>
    calls1 = calls ++ [ReadableBytes c] /\
    ((0 < w /\ ch1 = ch /\ p1 = Pool.Return p (buffer c)) \/
     (w = 0 /\ p1 = p /\ Chan.try_send ch c = Some ch1))
  | None => w = 0 /\ Chan.try_send ch c = None
  end.
Proof.
  unfold send, worker. destruct w as [|w].
  - destruct (Chan.try_send ch c) as [ch1|]; [|now split].
    split; [reflexivity|]. right. now repeat split.
  - split; [reflexivity|]. left. repeat split. lia.
Qed.

Lemma send_workers (w : nat) (ch : Chan.chan chunk) (p : Pool.t) (c : chunk)
    (calls : list (list byte)) :
  0 < w ->
  send w ch p c calls
  = Some (ch, Pool.Return p (buffer c), calls ++ [ReadableBytes c]).
Proof. destruct w; [lia | reflexivity]. Qed.

Lemma send_pool (B w : nat) (ch : Chan.chan chunk) (p : Pool.t) (c : chunk)
    (calls : list (list byte)) (ch1 : Chan.chan chunk) (p1 : Pool.t)
    (calls1 : list (list byte)) :
  PoolOK B p -> length (buffer c) = B ->
  send w ch p c calls = Some (ch1, p1, calls1) ->
  PoolOK B p1 /\ calls1 = calls ++ [ReadableBytes c].
Proof.
  intros HP Hlen E. pose proof (send_spec w ch p c calls) as Hs.
  rewrite E in Hs. destruct Hs as [-> [(_ & _ & ->) | (_ & -> & _)]].
  - split; [now apply Return_ok | reflexivity].
  - now split.
Qed.

End PoolFacts.

(** C8. [Pool.Borrow] always yields a buffer: the oldest pooled one when
    the pool holds any, and otherwise a fresh buffer whose length is the
    pool's buffer size, which [Read] and [ReadFixed] set to [ChunkSize].
    [Pool.Return] always yields a pool: the buffer is stored for reuse when
    the pool holds fewer buffers than its capacity, which [Read] and
    [ReadFixed] set to [Concurrency], and the pool is left as it was
    otherwise. *)
Theorem C8_pool_never_blocks (p : Pool.t) (c : list byte) :
  (forall b q, Chan.queue (Pool.pool p) = b :: q ->
     fst (Pool.Borrow p) = b /\
     Chan.queue (Pool.pool (snd (Pool.Borrow p))) = q)
  /\
  (Chan.queue (Pool.pool p) = [] ->
     fst (Pool.Borrow p) = make (Pool.bufferSize p) /\
     length (fst (Pool.Borrow p)) = Pool.bufferSize p /\
     snd (Pool.Borrow p) = p)
  /\
  (length (Chan.queue (Pool.pool p)) < Chan.cap (Pool.pool p) ->
     Chan.queue (Pool.pool (Pool.Return p c)) = Chan.queue (Pool.pool p) ++ [c])
  /\
  (Chan.cap (Pool.pool p) <= length (Chan.queue (Pool.pool p)) ->
     Pool.Return p c = p)
  /\
  Chan.cap (Pool.pool (snd (Pool.Borrow p))) = Chan.cap (Pool.pool p)
  /\
  Chan.cap (Pool.pool (Pool.Return p c)) = Chan.cap (Pool.pool p)
  /\
  (forall r : ParallelReader,
     Chan.cap (Pool.pool (Pool.NewPool (Concurrency r) (ChunkSize r)))
       = Concurrency r /\
     length (fst (Pool.Borrow (Pool.NewPool (Concurrency r) (ChunkSize r))))
       = ChunkSize r).
Proof.
  unfold Pool.Borrow, Pool.Return, Chan.try_recv, Chan.try_send.
  split; [|split; [|split; [|split; [|split; [|split]]]]].
  - intros b q E. rewrite E. now split.
  - intros E. rewrite E. simpl. repeat split. apply length_make.
  - intros Hlt. apply Nat.ltb_lt in Hlt. now rewrite Hlt.
  - intros Hge. apply Nat.ltb_ge in Hge. now rewrite Hge.
  - destruct (Chan.queue (Pool.pool p)); reflexivity.
  - destruct (_ <? _); reflexivity.
  - intros r. simpl. split; [reflexivity | apply length_make].
Qed.

(** The pool of [Return (NewPool 1 4) b] is full: a second buffer is
    dropped, and the pooled one is handed out again. *)
Lemma C8_pool_never_blocks_witness :
  let p := Pool.Return (Pool.NewPool 1 4) (make 4) in
  Pool.Return p (of_string "abcd") = p /\ fst (Pool.Borrow p) = make 4.
Proof.
  intros p. split.
  - apply (proj1 (proj2 (proj2 (proj2
      (C8_pool_never_blocks p (of_string "abcd")))))). simpl. lia.
  - apply (proj1 (C8_pool_never_blocks p []) (make 4) []). reflexivity.
Defined.

(** C9 (the code departs from it). The chunk queue is made once, by
    [NewParallelReader], with the number of CPUs as its capacity, and
    neither [Read] nor [ReadFixed] makes it again: after
    [r.Concurrency = 10] on a machine with 4 CPUs the queue still has
    capacity 4, while the pool that [Read] builds has capacity 10. *)
Theorem C9_queue_capacity_is_NumCPU :
  (forall NumCPU n,
     Chan.cap (chunks (set_Concurrency (NewParallelReader NumCPU) n)) = NumCPU)
  /\
  let r := set_Concurrency (NewParallelReader 4) 10 in
  Concurrency r = 10 /\ Chan.cap (chunks r) = 4 /\
  Chan.cap (Pool.pool (Pool.NewPool (Concurrency r) (ChunkSize r))) = 10.
Proof. split; [reflexivity | repeat split]. Qed.

(* ================================================================== *)
(** * Windows of a buffer *)
(* ================================================================== *)

Section WindowFacts.

Lemma slice_length (buf : list byte) (st en : nat) :
  en <= length buf -> length (slice buf st en) = en - st.
Proof.
  intros He. unfold slice. rewrite length_firstn, length_skipn. lia.
Qed.

Lemma slice_advance (buf : list byte) (st en n : nat) :
  slice buf (st + n) en = skipn n (slice buf st en).
Proof.
  unfold slice. rewrite skipn_firstn_comm, skipn_skipn.
  f_equal; [lia | f_equal; lia].
Qed.

Lemma slice_from_0 (buf : list byte) (en : nat) :
  slice buf 0 en = firstn en buf.
Proof. unfold slice. now rewrite Nat.sub_0_r, skipn_O. Qed.

Lemma slice_split (buf : list byte) (st en : nat) :
  st <= en -> firstn en buf = firstn st buf ++ slice buf st en.
Proof.
  intros Hs. unfold slice.
  rewrite <- (firstn_skipn st (firstn en buf)) at 1.
  rewrite firstn_firstn, skipn_firstn_comm.
  replace (Nat.min st en) with st by lia. reflexivity.
Qed.

Lemma length_store (buf bs : list byte) (en : nat) :
  en + length bs <= length buf -> length (store buf en bs) = length buf.
Proof.
  intros He. unfold store.
  rewrite !length_app, length_firstn, length_skipn. lia.
Qed.

Lemma slice_store (buf bs : list byte) (st en : nat) :
  st <= en -> en <= length buf ->
  slice (store buf en bs) st (en + length bs) = slice buf st en ++ bs.
Proof.
  intros Hs He. unfold slice, store.
  assert (Hl : length (firstn en buf) = en) by (rewrite length_firstn; lia).
  rewrite skipn_app, Hl.
  replace (st - en) with 0 by lia. rewrite skipn_O.
  rewrite firstn_app, length_skipn, Hl.
  replace (en + length bs - st - (en - st)) with (length bs) by lia.
  rewrite firstn_app, Nat.sub_diag, firstn_O, app_nil_r, firstn_all.
  rewrite (firstn_all2 (n := en + length bs - st));
    [| rewrite length_skipn, Hl; lia].
  f_equal. rewrite skipn_firstn_comm. reflexivity.
Qed.

Lemma slice_shift (buf : list byte) (st en : nat) :
  en <= length buf ->
  slice (fst (copy buf (slice buf st en))) 0 (en - st) = slice buf st en.
Proof.
  intros He. pose proof (@slice_length buf st en He) as Hl.
  rewrite slice_from_0. unfold copy. simpl. rewrite Hl.
  replace (Nat.min (length buf) (en - st)) with (length (slice buf st en)) by lia.
  rewrite firstn_all.
  rewrite firstn_app, Hl, Nat.sub_diag, firstn_O, app_nil_r.
  rewrite <- Hl. apply firstn_all.
Qed.

Lemma store_prefix (buf bs : list byte) (n : nat) :
  n <= length buf ->
  firstn (n + length bs) (store buf n bs) = firstn n buf ++ bs.
Proof.
  intros Hn. unfold store.
  assert (Hl : length (firstn n buf) = n) by (rewrite length_firstn; lia).
  rewrite firstn_app, Hl.
  replace (n + length bs - n) with (length bs) by lia.
  rewrite firstn_app, Nat.sub_diag, firstn_O, app_nil_r, firstn_all.
  rewrite firstn_all2; [reflexivity | rewrite Hl; lia].
Qed.

End WindowFacts.


(* ================================================================== *)
(** * One call of [Scan], and the loop of [Read] *)
(* ================================================================== *)

Section ScannerFacts.

Context (R : Type) `{io.Reader R}.
Variable content : R -> list byte.
Hypothesis Hlaw : io.Lawful content.
Variables G P Q : list byte -> Prop.
Variable f : bufio.SplitFunc.
Hypothesis Hspec : SplitSpec G P Q f.
Variable M : nat.

Lemma fill_unfold (k : nat) (s : bufio.Scanner R) :
  bufio.fill k s =
  let '(bs, e, rd') :=
    io.Read (bufio.r s) (length (bufio.buf s) - bufio.end_ s) in
  let s0 := bufio.set_r s rd' in
  if length (bufio.buf s0) - bufio.end_ s0 <? length bs
  then bufio.setErr s0 ErrBadReadCount
  else
    let s1 := bufio.set_data s0 (store (bufio.buf s0) (bufio.end_ s0) bs)
                (bufio.start s0) (bufio.end_ s0 + length bs) in
    match e with
    | Some e' => bufio.setErr s1 e'
    | None =>
      if 0 <? length bs then bufio.set_empties s1 0
      else match k with
           | O => bufio.setErr s1 ErrNoProgress
           | S k' => bufio.fill k' s1
           end
    end.
Proof. destruct k; reflexivity. Qed.

Lemma fill_spec (k : nat) (s : bufio.Scanner R) :
  Inv content f M s -> bufio.done s = false -> bufio.err s = None ->
  Inv content f M (bufio.fill k s) /\
  bufio.done (bufio.fill k s) = false /\
  pending content (bufio.fill k s) = pending content s /\
  length (bufio.window s) <= length (bufio.window (bufio.fill k s)) /\
  (bufio.err (bufio.fill k s) = None ->
   length (bufio.window s) < length (bufio.window (bufio.fill k s))).
Proof.
  revert s. induction k as [|k IH]; intros s HI Hd He;
    rewrite fill_unfold;
    destruct (io.Read (bufio.r s) (length (bufio.buf s) - bufio.end_ s))
      as [[bs e] rd'] eqn:E;
    pose proof (io.read_bytes Hlaw _ _ E) as Hbytes;
    pose proof (io.read_count Hlaw _ _ E) as Hcount;
    destruct s as [rd sp mx tk bf st en er em dn];
    destruct HI as [I1 I2 I3 I4 I5 I6 I7 I8 I9]; scn; subst er dn;
    (replace (length bf - en <? length bs) with false
      by (symmetry; apply Nat.ltb_ge; lia));
    pose proof (@slice_store bf bs st en I3 I4) as Hw;
    pose proof (@length_store bf bs en ltac:(lia)) as Hl;
    pose proof (@slice_length bf st en I4) as Hwl;
    (destruct e as [e'|];
      [| destruct (Nat.ltb_spec 0 (length bs)) as [Hpos|Hzero] ]).
  all: scn.
  all: try (rewrite Hw, length_app, Hbytes, <- app_assoc;
    split; [split; scn; try rewrite Hl; try lia; try discriminate;
            try assumption;
            try (intros [= ->]; eapply io.read_eof; eassumption)|];
    split; [reflexivity|]; split; [reflexivity|];
    split; [lia | try discriminate; intros; lia]).
  (* no bytes and no error: the loop reads again *)
  assert (Hbs : bs = []) by (destruct bs; [reflexivity | simpl in Hzero; lia]).
  subst bs. cbn [length] in *. rewrite Nat.add_0_r in *.
  match goal with |- context [bufio.fill k ?s1] =>
    destruct (IH s1) as (J1 & J2 & J3 & J4 & J5) end.
  { split; scn; try rewrite Hl; try lia; try discriminate; assumption. }
  { reflexivity. }
  { reflexivity. }
  scn. rewrite Hw, app_nil_r in *.
  split; [exact J1|]. split; [exact J2|].
  split; [rewrite J3, Hbytes; reflexivity|].
  split; assumption.
Qed.

Lemma trySplit_spec (s : bufio.Scanner R) :
  Inv content f M s -> bufio.done s = false ->
  match bufio.trySplit s with
  | bufio.Continue s' =>
    Inv content f M s' /\ bufio.done s' = false /\
    pending content s' = pending content s /\
    iterations s' = iterations s /\
    calls_left content s' = calls_left content s /\
    bufio.err s' = bufio.err s /\
    (bufio.err s <> None -> SplitExact G f -> False)
  | res => step_ok content G P Q f M s res
  end.
Proof.
  intros HI Hd. unfold bufio.trySplit.
  destruct s as [rd sp mx tk bf st en er em dn].
  destruct HI as [I1 I2 I3 I4 I5 I6 I7 I8 I9]. scn. subst sp dn mx.
  pose proof (@slice_length bf st en I4) as Hwl.
  destruct ((st <? en) || not_nil er) eqn:Hcall.
  2:{ apply orb_false_iff in Hcall. destruct Hcall as [_ Hnn].
      destruct er; [discriminate|].
      split; [split; scn; auto|]. repeat split; auto. }
  destruct (f (slice bf st en) (not_nil er)) as [[adv tok] e] eqn:E.
  destruct e as [e|].
  - destruct (split_err Hspec _ _ E) as [-> HatEOF].
    destruct tok as [t|]; cbn [not_nil is_nil negb step_ok].
    + destruct (split_final Hspec _ _ E) as (gap & Hdata & Hgap & HQ).
      exists t. unfold token_step, calls_left. scn.
      assert (Hlen : length (slice bf st en) = length gap + length t)
        by (rewrite Hdata, length_app; reflexivity).
      split; [split; scn; auto; try lia|].
      { intros _. destruct er; [discriminate | discriminate HatEOF]. }
      split; [reflexivity|]. split; [lia|].
      split; [rewrite length_app; lia|].
      exists gap. split; [exact Hgap|].
      split; [rewrite Hdata, <- !app_assoc; reflexivity | right; auto].
    + intros _ Hex. rewrite HatEOF in E.
      exact (exact_eof Hex _ E).
  - unfold bufio.advance. scn.
    destruct tok as [t|].
    + destruct (split_token Hspec _ _ E) as (Hadv & gap & Hfirst & Hgap & HP).
      replace (en - st <? adv) with false
        by (symmetry; apply Nat.ltb_ge; lia).
      scn.
      assert (Hpend : slice bf st en = gap ++ t ++ slice bf (st + adv) en).
      { rewrite slice_advance, app_assoc, <- Hfirst. symmetry.
        apply firstn_skipn. }
      assert (Hlen : length (slice bf st en)
                     = length gap + length t + length (slice bf (st + adv) en))
        by (rewrite Hpend at 1; rewrite !length_app; lia).
      assert (Hadvlen : adv = length gap + length t).
      { rewrite <- length_app, <- Hfirst, length_firstn. lia. }
      pose proof (@slice_length bf (st + adv) en I4) as Hwl'.
      destruct (is_nil er || (0 <? adv)) eqn:Hmove; cbn [step_ok].
      * assert (0 < adv).
        { destruct er as [e0|]; cbn [is_nil orb] in Hmove.
          - now apply Nat.ltb_lt.
          - cbn [not_nil is_nil negb] in E, Hcall.
            rewrite orb_false_r in Hcall. apply Nat.ltb_lt in Hcall.
            apply (split_moves Hspec (data := slice bf st en) (adv := adv) (t := t));
              [|exact E].
            intros Hnil. rewrite Hnil in Hwl. simpl in Hwl. lia. }
        exists t. unfold token_step, calls_left. scn.
        split; [split; scn; auto; try lia|].
        split; [reflexivity|]. split; [lia|].
        split; [rewrite !length_app; unfold bufio.maxConsecutiveEmptyReads in *; lia|].
        exists gap. split; [exact Hgap|].
        split; [rewrite Hpend, <- !app_assoc; reflexivity | left; auto].
      * apply orb_false_iff in Hmove. destruct Hmove as [Hnn Hz].
        apply Nat.ltb_ge in Hz.
        assert (Hg0 : length gap = 0) by lia.
        assert (Ht0 : length t = 0) by lia.
        apply length_zero_iff_nil in Hg0, Ht0. subst gap t.
        assert (Ha : adv = 0) by lia. rewrite Ha in *. clear Ha.
        destruct (Nat.ltb_spec bufio.maxConsecutiveEmptyReads (S em)) as [Hmax|Hmax];
          cbn [step_ok]; [exact I|].
        exists []. unfold token_step, calls_left. scn.
        split; [split; scn; auto; try lia|].
        { intros ->. discriminate. }
        split; [reflexivity|]. split; [simpl; lia|].
        split; [rewrite !length_app; unfold bufio.maxConsecutiveEmptyReads in *; lia|].
        exists []. split; [exact (gap_nil Hspec)|].
        split; [rewrite Nat.add_0_r; reflexivity | left; auto].
    + pose proof (split_more Hspec _ _ E) as ->.
      replace (en - st <? 0) with false by (symmetry; apply Nat.ltb_ge; lia).
      scn. rewrite Nat.add_0_r.
      split; [split; scn; auto|]. repeat split; auto.
      intros Hne Hex. destruct er; [|congruence].
      exact (exact_eof Hex _ E).
Qed.

Lemma readMore_spec (s : bufio.Scanner R) :
  Inv content f M s -> bufio.done s = false ->
  match bufio.readMore s with
  | bufio.Return false s' => bufio.Err s' = None -> bufio.err s <> None
  | bufio.Continue s' =>
    Inv content f M s' /\ bufio.done s' = false /\
    pending content s' = pending content s /\
    iterations s' < iterations s /\
    calls_left content s' <= calls_left content s
  | _ => False
  end.
Proof.
  intros HI Hd. unfold bufio.readMore.
  destruct (bufio.err s) as [e|] eqn:He; cbn [not_nil is_nil negb];
    [discriminate|].
  assert (Hshift : Inv content f M (bufio.shift s) /\
                   bufio.done (bufio.shift s) = false /\
                   bufio.err (bufio.shift s) = None /\
                   bufio.window (bufio.shift s) = bufio.window s /\
                   bufio.r (bufio.shift s) = bufio.r s /\
                   bufio.maxTokenSize (bufio.shift s) = bufio.maxTokenSize s).
  { unfold bufio.shift.
    destruct ((0 <? bufio.start s) && _);
      [|split; [exact HI | repeat split; auto]].
    destruct s as [rd sp mx tk bf st en er em dn].
    destruct HI as [I1 I2 I3 I4 I5 I6 I7 I8 I9]. scn.
    pose proof (@slice_length bf st en I4) as Hwl.
    pose proof (length_copy bf (slice bf st en)) as Hcl.
    split; [split; scn; auto; try lia|].
    repeat split; auto. now apply slice_shift. }
  destruct Hshift as (HI' & Hd' & He' & Hw' & Hr' & Hm').
  assert (Hgrow : bufio.grow (bufio.shift s) = None \/
                  bufio.grow (bufio.shift s) = Some (bufio.shift s)).
  { unfold bufio.grow. destruct (_ =? _); [|now right].
    rewrite (inv_buf HI'), (inv_max HI'), Nat.leb_refl. now left. }
  destruct Hgrow as [-> | ->].
  - unfold bufio.setErr, bufio.Err. rewrite He'. cbn. discriminate.
  - destruct (@fill_spec bufio.maxConsecutiveEmptyReads (bufio.shift s)
                HI' Hd' He') as (J1 & J2 & J3 & J4 & J5).
    split; [exact J1|]. split; [exact J2|].
    assert (Hp : pending content (bufio.shift s) = pending content s).
    { unfold pending. rewrite Hd', Hd, Hw', Hr'. reflexivity. }
    split; [congruence|].
    assert (Hwin : length (bufio.window (bufio.fill bufio.maxConsecutiveEmptyReads
                                                    (bufio.shift s))) <= M).
    { unfold bufio.window. rewrite slice_length by apply (inv_end J1).
      pose proof (inv_end J1). pose proof (inv_buf J1). lia. }
    split.
    + unfold iterations. rewrite (inv_max J1), (inv_max HI), He.
      rewrite Hw' in *. cbn [is_nil].
      destruct (bufio.err (bufio.fill _ _)) eqn:Hef; cbn [is_nil].
      * lia.
      * specialize (J5 eq_refl). lia.
    + unfold calls_left. rewrite J2, Hd, J3, Hp.
      rewrite (inv_fresh HI He). lia.
Qed.

Lemma scanStep_spec (s : bufio.Scanner R) :
  Inv content f M s -> bufio.done s = false ->
  step_ok content G P Q f M s (bufio.scanStep s).
Proof.
  intros HI Hd. unfold bufio.scanStep.
  pose proof (trySplit_spec HI Hd) as Hsplit.
  destruct (bufio.trySplit s) as [b s1|msg|s1|]; try exact Hsplit.
  destruct Hsplit as (HI1 & Hd1 & Hp1 & Hit1 & Hc1 & He1 & Heof).
  pose proof (readMore_spec HI1 Hd1) as Hmore.
  destruct (bufio.readMore s1) as [b s2|msg|s2|]; cbn [step_ok];
    try contradiction.
  - destruct b; [contradiction|]. intros Herr Hex.
    apply Heof; [|exact Hex].
    rewrite <- He1. now apply Hmore.
  - rewrite <- Hp1, <- Hit1, <- Hc1. exact Hmore.
Qed.

Lemma token_step_from (s s1 s' : bufio.Scanner R) (t : list byte) :
  pending content s1 = pending content s ->
  calls_left content s1 <= calls_left content s ->
  token_step content G P Q f M s1 s' t -> token_step content G P Q f M s s' t.
Proof.
  intros Hp Hc (J1 & J2 & J3 & J4 & gap & J5 & J6 & J7).
  split; [exact J1|]. split; [exact J2|]. split; [exact J3|].
  split; [lia|]. exists gap. rewrite <- Hp. auto.
Qed.

Lemma scanLoop_spec (fuel : nat) (s : bufio.Scanner R) :
  Inv content f M s -> bufio.done s = false ->
  scan_ok content G P Q f M fuel s (bufio.scanLoop fuel s).
Proof.
  revert s. induction fuel as [|fuel IH]; intros s HI Hd; cbn [bufio.scanLoop].
  - cbn. lia.
  - pose proof (scanStep_spec HI Hd) as Hstep.
    destruct (bufio.scanStep s) as [b s1|msg|s1|]; cbn [step_ok scan_ok] in *.
    + destruct b; [split; [exact Hd | exact Hstep]|].
      intros Herr Hex. destruct (Hstep Herr Hex).
    + exact I.
    + destruct Hstep as (HI1 & Hd1 & Hp1 & Hit1 & Hc1).
      specialize (IH s1 HI1 Hd1).
      destruct (bufio.scanLoop fuel s1) as [b s2|msg|s2|];
        cbn [scan_ok] in *; auto.
      * destruct b.
        -- destruct IH as [_ [t Ht]]. split; [exact Hd|]. exists t.
           eapply token_step_from; eauto.
        -- intros Herr Hex. rewrite <- Hp1. auto.
      * lia.
    + contradiction.
Qed.

Lemma Scan_spec (fuel : nat) (s : bufio.Scanner R) :
  Inv content f M s -> scan_ok content G P Q f M fuel s (bufio.Scan fuel s).
Proof.
  intros HI. unfold bufio.Scan. destruct (bufio.done s) eqn:Hd.
  - cbn [scan_ok]. intros Herr _. unfold pending. rewrite Hd.
    apply (inv_eof HI). unfold bufio.Err in Herr.
    pose proof (inv_done HI Hd) as Hne.
    destruct (bufio.err s) as [[]|]; congruence.
  - now apply scanLoop_spec.
Qed.

Lemma iterations_bound (s : bufio.Scanner R) :
  Inv content f M s -> iterations s <= M + 1.
Proof.
  intros HI. unfold iterations. rewrite (inv_max HI).
  destruct (is_nil _); lia.
Qed.

Lemma Pieces_gap (gap inp : list byte) (toks : list (list byte)) :
  G gap -> Pieces G inp toks -> Pieces G (gap ++ inp) toks.
Proof.
  intros Hg [inp'|gap' t inp' toks' Hg' Hrest]; [constructor|].
  rewrite app_assoc. constructor; [|exact Hrest].
  now apply (gap_app Hspec).
Qed.

Lemma copy_chunk (buf t : list byte) :
  length t <= length buf ->
  ReadableBytes {| buffer := fst (copy buf t); readableSize := snd (copy buf t) |}
  = t.
Proof.
  intros Hlen. unfold ReadableBytes, copy. cbn.
  replace (Nat.min (length buf) (length t)) with (length t) by lia.
  rewrite firstn_all, firstn_app, Nat.sub_diag, firstn_O, app_nil_r.
  apply firstn_all.
Qed.

Theorem scanAll_spec (fuel w : nat) (s : bufio.Scanner R) (pool : Pool.t)
    (ch : Chan.chan chunk) (calls : list (list byte)) :
  Inv content f M s -> PoolOK M pool ->
  run_ok content G P Q f M s calls fuel (scanAll fuel w s pool ch calls).
Proof.
  revert s pool ch calls.
  induction fuel as [|fuel IH]; intros s pool ch calls HI HP; cbn [scanAll].
  - exists [], []. cbn. rewrite app_nil_r.
    repeat split; auto; try constructor; try discriminate; lia.
  - pose proof (Scan_spec fuel HI) as Hscan.
    pose proof (iterations_bound HI) as Hit.
    destruct (bufio.Scan fuel s) as [b s1|msg|s1|]; cbn [scan_ok] in Hscan.
    + destruct b.
      * destruct Hscan as [Hd (t & HI1 & Htok & Hlen & Hcl & gap & Hgap & Hpend & Hkind)].
        unfold bufio.Bytes. rewrite Htok.
        destruct (Borrow_ok HP) as [Hbuf HP1].
        destruct (Pool.Borrow pool) as [buf pool1]. cbn [fst snd] in Hbuf, HP1.
        destruct (Nat.ltb_spec 0 (length t)) as [Hpos|Hzero].
        -- pose proof (@copy_chunk buf t ltac:(lia)) as Hchunk.
           pose proof (length_copy buf t) as Hcl'.
           destruct (copy buf t) as [buf1 size]. cbn [fst snd] in Hchunk, Hcl'.
           destruct (send w ch pool1 {| buffer := buf1; readableSize := size |}
                          calls) as [[[ch1 pool2] calls1]|] eqn:Esend.
           2:{ exists [], []. cbn. rewrite app_nil_r.
               repeat split; auto; try constructor; try discriminate. }
           apply send_pool with (B := M) in Esend;
             [|exact HP1 | cbn [buffer]; lia].
           destruct Esend as [HP2 ->].
           rewrite Hchunk.
           destruct (IH s1 pool2 ch1 (calls ++ [t]) HI1 HP2)
             as (toks & last & E1 & E2 & E3 & E4 & E5 & E6 & E7 & E8).
           assert (Hne : t <> []) by (intros ->; simpl in Hpos; lia).
           destruct Hkind as [[Hd1 HPt] | [Hd1 HQt]].
           ++ exists (t :: toks), last. rewrite E1, <- !app_assoc. cbn [app].
              split; [reflexivity|]. split; [now constructor|].
              split; [exact E3|]. split; [constructor; auto|].
              split; [rewrite Hpend; now constructor|].
              split; [congruence|]. split.
              ** intros Hret Hex. cbn [concat]. rewrite (E7 Hret Hex), Hpend.
                 now rewrite (exact_gap Hex _ Hgap).
              ** intros Hfuel. apply E8. lia.
           ++ specialize (E6 Hd1). rewrite E6 in *.
              apply app_eq_nil in E6. destruct E6 as [-> ->].
              exists [], [t]. rewrite E1, <- !app_assoc. cbn [app].
              split; [reflexivity|]. split; [constructor|].
              split; [right; exists t; auto|].
              split; [constructor; auto|].
              split; [rewrite Hpend; constructor; [exact Hgap | constructor]|].
              split; [congruence|]. split.
              ** intros Hret Hex. cbn [concat]. rewrite Hpend.
                 cbn [concat] in E7. rewrite <- (E7 Hret Hex).
                 now rewrite (exact_gap Hex _ Hgap), !app_nil_r.
              ** intros Hfuel. apply E8. lia.
        -- assert (t = []) by (destruct t; [reflexivity | simpl in Hzero; lia]).
           subst t. cbn [app] in Hpend.
           destruct (IH s1 pool1 ch calls HI1 HP1)
             as (toks & last & E1 & E2 & E3 & E4 & E5 & E6 & E7 & E8).
           exists toks, last.
           split; [exact E1|]. split; [exact E2|]. split; [exact E3|].
           split; [exact E4|].
           split; [rewrite Hpend; now apply Pieces_gap|].
           split; [congruence|]. split.
           ++ intros Hret Hex. rewrite (E7 Hret Hex), Hpend.
              now rewrite (exact_gap Hex _ Hgap).
           ++ intros Hfuel. apply E8. lia.
      * exists [], []. cbn [app]. rewrite app_nil_r.
        split; [now destruct (bufio.Err s1)|].
        split; [constructor|]. split; [now left|]. split; [constructor|].
        split; [constructor|]. split; [reflexivity|]. split.
        -- intros Hret Hex. cbn [concat]. symmetry. apply Hscan; [|exact Hex].
           destruct (bufio.Err s1); [discriminate Hret | reflexivity].
        -- intros _. now destruct (bufio.Err s1).
    + exists [], []. cbn. rewrite app_nil_r.
      repeat split; auto; try constructor; discriminate.
    + contradiction.
    + exists [], []. cbn. rewrite app_nil_r.
      repeat split; auto; try constructor; try discriminate. lia.
Qed.

End ScannerFacts.

(* ================================================================== *)
(** * [ScanChunksWithBoundary] as a split function, and [Read] *)
(* ================================================================== *)

Section ReadFacts.

Variable r : ParallelReader.

Lemma LastIndex_cases (data sep : list byte) :
  (LastIndex data sep = (-1)%Z /\ (LastIndex data sep >? -1)%Z = false) \/
  (exists i, LastIndex data sep = Z.of_nat i /\
             (LastIndex data sep >? -1)%Z = true).
Proof.
  destruct (LastIndex_range data sep) as [E | [i E]]; rewrite E.
  - left. now split.
  - right. exists i. split; [reflexivity | apply Z.gtb_lt; lia].
Qed.

Lemma firstn_occurrence (sep data : list byte) (i : nat) :
  occurs_at sep data i ->
  i + length sep <= length data /\
  ends_with sep (firstn (i + length sep) data).
Proof.
  intros Hocc. split; [now apply occurs_at_bound|].
  destruct Hocc as (pre & post & -> & <-). exists pre.
  rewrite app_assoc, <- length_app. apply firstn_app_exact.
Qed.

Lemma LastIndex_empty_sep (data : list byte) (i : nat) :
  LastIndex data [] = Z.of_nat i -> i = length data.
Proof.
  intros Hi. apply LastIndex_some in Hi. destruct Hi as [Hocc Hmax].
  apply occurs_at_bound in Hocc. simpl in Hocc.
  assert (length data <= i); [|lia].
  apply Hmax. exists data, []. now rewrite app_nil_r.
Qed.

Lemma ScanChunksWithBoundary_spec :
  SplitSpec (fun gap => gap = []) (ends_with (ChunkBoundary r))
            (free_of (ChunkBoundary r)) (ScanChunksWithBoundary r).
Proof.
  split; unfold ScanChunksWithBoundary.
  - intros data atEOF adv t.
    destruct (negb atEOF && _); [discriminate|].
    destruct (LastIndex_cases data (ChunkBoundary r)) as [[E ->] | (i & E & ->)].
    + destruct (negb atEOF); discriminate.
    + rewrite E, Nat2Z.id. intros [= <- <-].
      apply LastIndex_some in E. destruct E as [Hocc _].
      destruct (firstn_occurrence Hocc) as [Hb He].
      split; [exact Hb|]. exists []. auto.
  - intros data atEOF adv.
    destruct (negb atEOF && _); [now intros [= <-]|].
    destruct (LastIndex_cases data (ChunkBoundary r)) as [[E ->] | (i & E & ->)].
    + destruct (negb atEOF); [now intros [= <-] | discriminate].
    + discriminate.
  - intros data atEOF adv tok e.
    destruct (negb atEOF && _); [discriminate|].
    destruct (LastIndex_cases data (ChunkBoundary r)) as [[E ->] | (i & E & ->)].
    + destruct atEOF; cbn [negb]; [|discriminate]. now intros [= <- <- <-].
    + discriminate.
  - intros data atEOF adv t e.
    destruct (negb atEOF && _); [discriminate|].
    destruct (LastIndex_cases data (ChunkBoundary r)) as [[E ->] | (i & E & ->)].
    + destruct (negb atEOF); [discriminate|]. intros [= <- <- <-].
      exists []. split; [reflexivity|]. split; [reflexivity|].
      exact (proj1 (LastIndex_none data (ChunkBoundary r)) E).
    + discriminate.
  - intros data adv t Hne. cbn [negb andb].
    destruct (length data <? ChunkSize r); [discriminate|].
    destruct (LastIndex_cases data (ChunkBoundary r)) as [[E ->] | (i & E & ->)].
    + discriminate.
    + rewrite E, Nat2Z.id. intros [= <- <-].
      destruct (ChunkBoundary r) as [|b bs] eqn:Eb; [|simpl; lia].
      apply LastIndex_empty_sep in E. subst i.
      destruct data; [congruence | simpl; lia].
  - reflexivity.
  - now intros g1 g2 -> ->.
Qed.

Lemma ScanChunksWithBoundary_exact :
  SplitExact (fun gap => gap = []) (ScanChunksWithBoundary r).
Proof.
  split; [auto|]. intros data adv e. unfold ScanChunksWithBoundary.
  cbn [negb andb].
  destruct (LastIndex data (ChunkBoundary r) >? -1)%Z; discriminate.
Qed.

Lemma Pieces_exact_prefix (inp : list byte) (toks : list (list byte)) :
  Pieces (fun gap => gap = []) inp toks ->
  exists rest, inp = concat toks ++ rest.
Proof.
  induction 1 as [inp | gap t inp toks' -> _ [rest IH]].
  - now exists inp.
  - exists rest. cbn. now rewrite IH, app_assoc.
Qed.

Context (R : Type) `{io.Reader R}.
Variable content : R -> list byte.
Hypothesis Hlaw : io.Lawful content.

Lemma NewScanner_inv (stream : R) (f : bufio.SplitFunc) (n : nat) :
  Inv content f n (bufio.NewScanner stream (make n) n f) /\
  pending content (bufio.NewScanner stream (make n) n f) = content stream /\
  calls_left content (bufio.NewScanner stream (make n) n f)
  = 102 * length (content stream) + 102.
Proof.
  split; [split; cbn; auto; try lia; try discriminate; apply length_make|].
  unfold calls_left, pending, bufio.window, slice. cbn. split; reflexivity.
Qed.

(** The run of [Read] on a lawful reader: see [run_ok]. *)
Lemma Read_run (fuel : nat) (stream : R) :
  exists toks last,
    delivered (Read fuel r stream) = toks ++ last /\
    Forall (ends_with (ChunkBoundary r)) toks /\
    (last = [] \/ exists t, last = [t] /\ free_of (ChunkBoundary r) t) /\
    Forall (fun t => t <> [] /\ length t <= ChunkSize r) (toks ++ last) /\
    (exists rest, content stream = concat (toks ++ last) ++ rest) /\
    (ending (Read fuel r stream) = Returned ->
     concat (toks ++ last) = content stream) /\
    (102 * length (content stream) + ChunkSize r + 104 < fuel ->
     ending (Read fuel r stream) <> OutOfFuel).
Proof.
  destruct (NewScanner_inv stream (ScanChunksWithBoundary r) (ChunkSize r))
    as (HI & Hp & Hc).
  destruct (@scanAll_spec R _ content Hlaw _ _ _ _ ScanChunksWithBoundary_spec
              (ChunkSize r) fuel (Concurrency r) _ _ (chunks r) [] HI
              (NewPool_ok (Concurrency r) (ChunkSize r)))
    as (toks & last & E1 & E2 & E3 & E4 & E5 & _ & E7 & E8).
  exists toks, last. fold (Read fuel r stream) in *. rewrite Hp in *.
  split; [exact E1|]. split; [exact E2|]. split; [exact E3|].
  split; [exact E4|]. split; [|split].
  - now apply Pieces_exact_prefix.
  - intros Hret. apply E7; [exact Hret | apply ScanChunksWithBoundary_exact].
  - intros Hfuel. apply E8. lia.
Qed.

End ReadFacts.

(* ================================================================== *)
(** * More fuel changes nothing *)
(* ================================================================== *)

Section Fuel.

Context (R : Type) `{io.Reader R}.

Lemma scanLoop_mono (fuel k : nat) (s : bufio.Scanner R) :
  bufio.scanLoop fuel s <> bufio.Exhausted R ->
  bufio.scanLoop (fuel + k) s = bufio.scanLoop fuel s.
Proof.
  revert s. induction fuel as [|fuel IH]; intros s; cbn [bufio.scanLoop Nat.add].
  - congruence.
  - destruct (bufio.scanStep s); auto.
Qed.

Lemma Scan_mono (fuel k : nat) (s : bufio.Scanner R) :
  bufio.Scan fuel s <> bufio.Exhausted R ->
  bufio.Scan (fuel + k) s = bufio.Scan fuel s.
Proof.
  unfold bufio.Scan. destruct (bufio.done s); [reflexivity|].
  apply scanLoop_mono.
Qed.

Lemma scanAll_mono (fuel k w : nat) (s : bufio.Scanner R) (pool : Pool.t)
    (ch : Chan.chan chunk) (calls : list (list byte)) :
  ending (scanAll fuel w s pool ch calls) <> OutOfFuel ->
  scanAll (fuel + k) w s pool ch calls = scanAll fuel w s pool ch calls.
Proof.
  revert s pool ch calls.
  induction fuel as [|fuel IH]; intros s pool ch calls; cbn [scanAll Nat.add].
  - cbn. congruence.
  - destruct (bufio.Scan fuel s) as [b s1|msg|s1|] eqn:E;
      try (cbn; congruence);
      rewrite (@Scan_mono fuel k s) by (rewrite E; discriminate);
      rewrite E; [|reflexivity].
    destruct b; [|reflexivity].
    destruct (Pool.Borrow pool) as [buf pool1].
    destruct (0 <? length (bufio.Bytes s1)); [|apply IH].
    destruct (copy buf (bufio.Bytes s1)) as [buf1 size].
    destruct (send w ch pool1 _ calls) as [[[ch1 pool2] calls1]|];
      [apply IH | reflexivity].
Qed.

Lemma readAtLeastLoop_mono (fuel k : nat) (rd : R) (buf : list byte)
    (min n : nat) (err : option error) :
  io.readAtLeastLoop fuel rd buf min n err <> None ->
  io.readAtLeastLoop (fuel + k) rd buf min n err
  = io.readAtLeastLoop fuel rd buf min n err.
Proof.
  revert rd buf n err.
  induction fuel as [|fuel IH]; intros rd buf n err;
    cbn [io.readAtLeastLoop Nat.add];
    destruct ((n <? min) && is_nil err) eqn:E.
  - congruence.
  - intros _. destruct k; cbn [io.readAtLeastLoop]; now rewrite E.
  - destruct (io.Read rd (length buf - n)) as [[bs e] rd']. apply IH.
  - reflexivity.
Qed.

Lemma ReadFull_mono (fuel k : nat) (rd : R) (buf : list byte) :
  io.ReadFull fuel rd buf <> None ->
  io.ReadFull (fuel + k) rd buf = io.ReadFull fuel rd buf.
Proof.
  unfold io.ReadFull, io.ReadAtLeast.
  destruct (length buf <? length buf); [reflexivity|].
  intros Hne. rewrite readAtLeastLoop_mono; [reflexivity|].
  intros E. rewrite E in Hne. congruence.
Qed.

Lemma readFixedLoop_mono (fuel k w : nat) (stream : R) (pool : Pool.t)
    (ch : Chan.chan chunk) (calls : list (list byte)) :
  ending (readFixedLoop fuel w stream pool ch calls) <> OutOfFuel ->
  readFixedLoop (fuel + k) w stream pool ch calls
  = readFixedLoop fuel w stream pool ch calls.
Proof.
  revert stream pool ch calls.
  induction fuel as [|fuel IH]; intros stream pool ch calls;
    cbn [readFixedLoop Nat.add].
  - cbn. congruence.
  - destruct (Pool.Borrow pool) as [buf pool1].
    destruct (io.ReadFull fuel stream buf) as [[[[buf1 n] err] stream1]|] eqn:E;
      [|cbn; congruence].
    rewrite (@ReadFull_mono fuel k stream buf) by (rewrite E; discriminate).
    rewrite E. destruct err as [e|]; [reflexivity|].
    destruct (send w ch pool1 _ calls) as [[[ch1 pool2] calls1]|];
      [apply IH | reflexivity].
Qed.

End Fuel.

(* ================================================================== *)
(** * [io.ReadFull] and [ReadFixed] *)
(* ================================================================== *)

Section ChunksOf.

Variable n : nat.
Hypothesis Hn : 0 < n.

Lemma chunksOf__enough (k1 k2 : nat) (l : list byte) :
  length l <= k1 -> length l <= k2 -> chunksOf_ k1 n l = chunksOf_ k2 n l.
Proof.
  revert k2 l. induction k1 as [|k1 IH]; intros k2 l H1 H2.
  - destruct l; [|simpl in H1; lia]. now destruct k2.
  - destruct l as [|b l]; [now destruct k2|].
    destruct k2 as [|k2]; [simpl in H2; lia|].
    cbn [chunksOf_]. f_equal.
    apply IH; rewrite length_skipn; cbn [length] in *; lia.
Qed.

Lemma chunksOf_nil : chunksOf n [] = [].
Proof. reflexivity. Qed.

Lemma chunksOf_full (bs rest : list byte) :
  length bs = n -> chunksOf n (bs ++ rest) = bs :: chunksOf n rest.
Proof.
  intros Hbs. unfold chunksOf.
  destruct (bs ++ rest) as [|b l] eqn:E.
  - destruct bs; [simpl in Hbs; lia | discriminate].
  - cbn [length chunksOf_]. rewrite <- E.
    replace (firstn n (bs ++ rest)) with bs
      by (rewrite <- Hbs; symmetry; apply firstn_app_exact).
    replace (skipn n (bs ++ rest)) with rest
      by (rewrite <- Hbs; symmetry; apply skipn_app_exact).
    f_equal. apply chunksOf__enough; [|lia].
    assert (length (b :: l) = length bs + length rest)
      by (rewrite <- E; apply length_app).
    simpl in *. lia.
Qed.

Lemma chunksOf_short (bs : list byte) :
  0 < length bs -> length bs <= n -> chunksOf n bs = [bs].
Proof.
  intros Hpos Hle. unfold chunksOf.
  destruct bs as [|b l]; [simpl in Hpos; lia|].
  cbn [length chunksOf_]. rewrite firstn_all2 by exact Hle.
  rewrite skipn_all2 by exact Hle. now destruct (length l).
Qed.

Lemma chunksOf__sizes (k : nat) (l : list byte) :
  Forall (fun c => 0 < length c <= n) (chunksOf_ k n l) /\
  Forall (fun c => length c = n) (removelast (chunksOf_ k n l)).
Proof.
  revert l. induction k as [|k IH]; intros l; [split; constructor|].
  destruct l as [|b l]; [split; constructor|].
  cbn [chunksOf_]. destruct (IH (skipn n (b :: l))) as [IH1 IH2].
  split.
  - constructor; [|exact IH1]. rewrite length_firstn. cbn [length]. lia.
  - destruct (chunksOf_ k n (skipn n (b :: l))) as [|c cs] eqn:E;
      [constructor|].
    change (removelast (firstn n (b :: l) :: c :: cs))
      with (firstn n (b :: l) :: removelast (c :: cs)).
    constructor; [|exact IH2]. rewrite length_firstn.
    destruct (Nat.le_gt_cases (length (b :: l)) n) as [Hle|Hgt]; [|lia].
    rewrite skipn_all2 in E by exact Hle. now destruct k.
Qed.

Lemma chunksOf__concat (k : nat) (l : list byte) :
  length l <= k -> concat (chunksOf_ k n l) = l.
Proof.
  revert l. induction k as [|k IH]; intros l Hk.
  - destruct l; [reflexivity | simpl in Hk; lia].
  - destruct l as [|b l]; [reflexivity|].
    cbn [chunksOf_ concat]. rewrite IH.
    + apply firstn_skipn.
    + rewrite length_skipn. cbn [length] in *. lia.
Qed.

End ChunksOf.

Section ReadFixedFacts.

Context (R : Type) `{io.Reader R}.
Variable content : R -> list byte.
Hypothesis Hlaw : io.Lawful content.

Lemma readAtLeastLoop_spec (fuel : nat) (rd : R) (buf : list byte)
    (min n : nat) (err : option error)
    (buf' : list byte) (n' : nat) (err' : option error) (rd' : R) :
  length buf = min -> n <= min ->
  (err = Some EOF -> content rd = []) -> signal_ok err ->
  io.readAtLeastLoop fuel rd buf min n err = Some (buf', n', err', rd') ->
  exists bs,
    content rd = bs ++ content rd' /\
    firstn n' buf' = firstn n buf ++ bs /\
    n' = n + length bs /\ n' <= min /\ length buf' = min /\
    (n' < min -> err' <> None) /\
    (err' = Some EOF -> content rd' = []) /\ signal_ok err'.
Proof.
  revert rd buf n err.
  induction fuel as [|fuel IH]; intros rd buf n err Hlen Hn Heof Hsig;
    cbn [io.readAtLeastLoop];
    destruct ((n <? min) && is_nil err) eqn:Hcond; try discriminate.
  1,3: intros [= <- <- <- <-]; exists []; rewrite !app_nil_r, Nat.add_0_r;
    repeat split; auto;
    intros Hlt; apply Nat.ltb_lt in Hlt; rewrite Hlt in Hcond;
    destruct err; [discriminate | discriminate Hcond].
  apply andb_true_iff in Hcond. destruct Hcond as [Hlt Hnil].
  apply Nat.ltb_lt in Hlt.
  destruct (io.Read rd (length buf - n)) as [[bs0 e] rd1] eqn:E.
  pose proof (io.read_bytes Hlaw _ _ E) as Hbytes.
  pose proof (io.read_count Hlaw _ _ E) as Hcount.
  intros Hloop.
  apply IH in Hloop.
  - destruct Hloop as (bs & K1 & K2 & K3 & K4 & K5 & K6 & K7 & K8).
    exists (bs0 ++ bs). rewrite Hbytes, K1, <- app_assoc.
    split; [reflexivity|]. rewrite store_prefix in K2 by lia.
    rewrite K2, length_app, <- app_assoc. repeat split; auto; lia.
  - rewrite length_store; lia.
  - lia.
  - intros ->. eapply io.read_eof; eauto.
  - destruct e as [e|]; [|exact I].
    destruct (io.read_signal Hlaw _ _ E) as [-> | [msg ->]]; exact I.
Qed.

(** What [io.ReadFull] gives on a lawful reader. *)
Lemma ReadFull_spec (fuel : nat) (rd : R) (buf : list byte)
    (buf' : list byte) (n : nat) (err : option error) (rd' : R) :
  io.ReadFull fuel rd buf = Some (buf', n, err, rd') ->
  exists bs,
    content rd = bs ++ content rd' /\ firstn n buf' = bs /\
    n = length bs /\ length buf' = length buf /\
    match err with
    | None => n = length buf
    | Some ErrUnexpectedEOF => 0 < n < length buf /\ content rd' = []
    | Some EOF => n = 0 /\ content rd' = []
    | Some (ReadFault _) => n < length buf
    | Some _ => False
    end.
Proof.
  unfold io.ReadFull, io.ReadAtLeast. rewrite Nat.ltb_irrefl.
  destruct (io.readAtLeastLoop fuel rd buf (length buf) 0 None)
    as [[[[buf1 n1] err1] rd1]|] eqn:E; [|discriminate].
  apply readAtLeastLoop_spec in E; try (cbn; auto; lia); [|discriminate].
  destruct E as (bs & K1 & K2 & K3 & K4 & K5 & K6 & K7 & K8).
  cbn [firstn app Nat.add] in K2, K3.
  destruct (Nat.leb_spec (length buf) n1) as [Hfull|Hshort].
  - intros [= <- <- <- <-]. exists bs. repeat split; auto. lia.
  - specialize (K6 Hshort).
    destruct err1 as [[]|]; cbn in K8; try contradiction; try congruence.
    + destruct (Nat.ltb_spec 0 n1); intros [= <- <- <- <-]; exists bs;
        repeat split; auto; lia.
    + intros [= <- <- <- <-]. exists bs. repeat split; auto.
Qed.

Lemma readAtLeastLoop_noEOF (fuel : nat) (rd : R) (buf : list byte)
    (min n : nat) (err : option error)
    (buf' : list byte) (n' : nat) (err' : option error) (rd' : R) :
  io.NeverEOF (R := R) -> err <> Some EOF ->
  io.readAtLeastLoop fuel rd buf min n err = Some (buf', n', err', rd') ->
  err' <> Some EOF.
Proof.
  intros Hno. revert rd buf n err.
  induction fuel as [|fuel IH]; intros rd buf n err Herr;
    cbn [io.readAtLeastLoop];
    destruct ((n <? min) && is_nil err); try discriminate;
    try (intros [= <- <- <- <-]; exact Herr).
  destruct (io.Read rd (length buf - n)) as [[bs0 e] rd1] eqn:E.
  apply IH. intros ->. exact (Hno _ _ _ _ E).
Qed.

Lemma ReadFull_noEOF (fuel : nat) (rd : R) (buf : list byte)
    (buf' : list byte) (n : nat) (err : option error) (rd' : R) :
  io.NeverEOF (R := R) -> io.ReadFull fuel rd buf = Some (buf', n, err, rd') ->
  err <> Some EOF /\ err <> Some ErrUnexpectedEOF.
Proof.
  intros Hno. unfold io.ReadFull, io.ReadAtLeast. rewrite Nat.ltb_irrefl.
  destruct (io.readAtLeastLoop fuel rd buf (length buf) 0 None)
    as [[[[buf1 n1] err1] rd1]|] eqn:E; [|discriminate].
  assert (Hnone : (None : option error) <> Some EOF) by discriminate.
  pose proof (@readAtLeastLoop_noEOF _ _ _ _ _ _ _ _ _ _ Hno Hnone E) as Hne.
  apply readAtLeastLoop_spec in E; try (cbn; auto; lia); [|discriminate].
  destruct E as (bs & K1 & K2 & K3 & K4 & K5 & K6 & K7 & K8).
  destruct (length buf <=? n1); [intros [= <- <- <- <-]; split; discriminate|].
  destruct err1 as [[]|]; cbn in K8; try contradiction; try congruence;
    intros [= <- <- <- <-]; split; discriminate.
Qed.

Lemma readAtLeastLoop_total (fuel : nat) (rd : R) (buf : list byte)
    (min n : nat) (err : option error) :
  io.Progressing (R := R) -> length buf = min -> n <= min ->
  min - n < fuel \/ err <> None ->
  io.readAtLeastLoop fuel rd buf min n err <> None.
Proof.
  intros Hprog. revert rd buf n err.
  induction fuel as [|fuel IH]; intros rd buf n err Hlen Hn Hfuel;
    cbn [io.readAtLeastLoop];
    destruct ((n <? min) && is_nil err) eqn:Hcond; try discriminate.
  - apply andb_true_iff in Hcond. destruct Hcond as [Hlt Hnil].
    apply Nat.ltb_lt in Hlt. destruct err; [discriminate|].
    destruct Hfuel; [lia | congruence].
  - apply andb_true_iff in Hcond. destruct Hcond as [Hlt Hnil].
    apply Nat.ltb_lt in Hlt.
    destruct (io.Read rd (length buf - n)) as [[bs0 e] rd1] eqn:E.
    pose proof (io.read_count Hlaw _ _ E) as Hcount.
    destruct err; [discriminate|].
    destruct Hfuel as [Hfuel|Hfuel]; [|congruence].
    apply IH; [rewrite length_store; lia | lia |].
    destruct e as [e|]; [right; discriminate|]. left.
    assert (bs0 <> []) by (apply (Hprog rd (length buf - n) bs0 rd1); [lia | exact E]).
    destruct bs0; [congruence | cbn [length]; lia].
Qed.

Lemma ReadFull_total (fuel : nat) (rd : R) (buf : list byte) :
  io.Progressing (R := R) -> length buf < fuel ->
  io.ReadFull fuel rd buf <> None.
Proof.
  intros Hprog Hfuel. unfold io.ReadFull, io.ReadAtLeast.
  rewrite Nat.ltb_irrefl.
  pose proof (@readAtLeastLoop_total fuel rd buf (length buf) 0 None Hprog
                eq_refl ltac:(lia) ltac:(left; lia)) as Hne.
  destruct (io.readAtLeastLoop fuel rd buf (length buf) 0 None)
    as [[[[buf1 n1] err1] rd1]|]; [|congruence].
  destruct (length buf <=? n1); [discriminate|].
  destruct err1 as [[]|]; try discriminate.
  destruct (0 <? n1); discriminate.
Qed.

Theorem readFixedLoop_spec (B fuel w : nat) (stream : R) (pool : Pool.t)
    (ch : Chan.chan chunk) (calls : list (list byte)) :
  0 < B -> PoolOK B pool ->
  fixed_ok content B stream calls fuel
           (readFixedLoop fuel w stream pool ch calls).
Proof.
  intros HB. revert stream pool ch calls.
  induction fuel as [|fuel IH]; intros stream pool ch calls HP;
    cbn [readFixedLoop].
  - exists []. cbn. rewrite app_nil_r.
    split; [reflexivity|]. split; [now exists (chunksOf B (content stream))|].
    repeat split; try discriminate; try constructor; lia.
  - destruct (Borrow_ok HP) as [Hbuf HP1].
    destruct (Pool.Borrow pool) as [buf pool1]. cbn [fst snd] in Hbuf, HP1.
    pose proof (@ReadFull_total fuel stream buf) as Htotal.
    pose proof (@ReadFull_noEOF fuel stream buf) as HnoEOF.
    pose proof (@ReadFull_spec fuel stream buf) as Hfull.
    destruct (io.ReadFull fuel stream buf)
      as [[[[buf1 n] err] stream1]|].
    2:{ exists []. cbn. rewrite app_nil_r.
        split; [reflexivity|]. split; [now exists (chunksOf B (content stream))|].
        repeat split; try discriminate; try constructor.
        intros Hprog Hfuel _. apply Htotal; [exact Hprog | lia | reflexivity]. }
    destruct (Hfull _ _ _ _ eq_refl) as (bs & K1 & K2 & K3 & K4 & K5).
    assert (Hstuck : fixed_ok content B stream calls (S fuel)
                              {| ending := Blocked; delivered := calls |}).
    { exists []. cbn [ending delivered]. split; [now rewrite app_nil_r|].
      split; [now exists (chunksOf B (content stream))|].
      split; [easy|]. split; [constructor|]. repeat split; easy. }
    pose proof (@send_pool B w ch pool1
                  {| buffer := buf1; readableSize := n |} calls) as Hsend.
    unfold ReadableBytes in Hsend. cbn [buffer readableSize] in Hsend.
    rewrite K2 in Hsend. clear K2.
    destruct err as [e|].
    + destruct e; try contradiction.
      * (* EOF *)
        destruct K5 as [Hn0 Hrest]. rewrite Hn0 in K3.
        symmetry in K3. apply length_zero_iff_nil in K3. subst bs.
        rewrite Hrest in K1. cbn in K1.
        exists []. cbn. rewrite app_nil_r, K1.
        split; [reflexivity|]. split; [now exists []|].
        repeat split; try discriminate; try constructor; try congruence.
        intros Hno _. now destruct (HnoEOF _ _ _ _ Hno eq_refl).
      * (* ErrUnexpectedEOF *)
        destruct (send w ch pool1 _ calls) as [[[ch1 pool2] calls1]|];
          [|exact Hstuck].
        destruct (Hsend _ _ _ HP1 ltac:(lia) eq_refl) as [_ ->].
        destruct K5 as [Hn Hrest]. rewrite Hrest, app_nil_r in K1.
        exists [bs]. cbn. rewrite K1, chunksOf_short by lia.
        split; [reflexivity|]. split; [now exists []|].
        repeat split; try discriminate; try congruence.
        intros Hno _. now destruct (HnoEOF _ _ _ _ Hno eq_refl).
      * (* a fault of the reader *)
        exists []. cbn. rewrite app_nil_r.
        split; [reflexivity|]. split; [now exists (chunksOf B (content stream))|].
        repeat split; try discriminate; try constructor.
        intros e [= <-]. now exists msg.
    + destruct (send w ch pool1 _ calls) as [[[ch1 pool2] calls1]|];
        [|exact Hstuck].
      destruct (Hsend _ _ _ HP1 ltac:(lia) eq_refl) as [HP2 ->].
      destruct (IH stream1 pool2 ch1 (calls ++ [bs]) HP2)
        as (new & E1 & [more E2] & E3 & E4 & E5 & E6 & E7 & E8).
      assert (Hcut : chunksOf B (content stream)
                     = bs :: chunksOf B (content stream1))
        by (rewrite K1; apply chunksOf_full; lia).
      exists (bs :: new). rewrite E1, <- app_assoc. cbn [app].
      split; [reflexivity|]. split; [exists more; rewrite Hcut, E2; reflexivity|].
      split; [intros Hret; rewrite Hcut, <- (E3 Hret); reflexivity|].
      split; [intros Hret; constructor; [lia | auto]|].
      split; [exact E5|]. split; [exact E6|]. split; [exact E7|].
      intros Hprog Hfuel. apply E8; [exact Hprog|].
      rewrite K1, length_app in Hfuel. lia.
Qed.

End ReadFixedFacts.

(* ================================================================== *)
(** * The readers of the tests are lawful *)
(* ================================================================== *)

Section Readers.

Lemma skipn_read (l : list byte) (i n : nat) :
  skipn i l = firstn n (skipn i l) ++ skipn (i + length (firstn n (skipn i l))) l.
Proof.
  rewrite <- (firstn_skipn n (skipn i l)) at 1. f_equal.
  rewrite skipn_skipn, length_firstn, length_skipn.
  destruct (Nat.le_gt_cases n (length l - i)) as [Hle|Hgt].
  - f_equal. lia.
  - rewrite !skipn_all2; [reflexivity | lia | lia].
Qed.

Lemma strings_Reader_lawful : io.Lawful strings.content.
Proof.
  split; intros rd n bs; intros; cbn in *; unfold strings.Read, strings.content in *;
    destruct (Nat.leb_spec (length (strings.s rd)) (strings.i rd));
    match goal with H : _ = (_, _, _) |- _ => inversion H; subst; clear H end;
    cbn [strings.s strings.i]; auto.
  - apply skipn_read.
  - cbn [length]. lia.
  - rewrite length_firstn. lia.
  - apply skipn_all2. lia.
Qed.

Lemma strings_Reader_progressing : io.Progressing (R := strings.Reader).
Proof.
  intros rd n bs rd' Hn. cbn. unfold strings.Read.
  destruct (Nat.leb_spec (length (strings.s rd)) (strings.i rd)); [discriminate|].
  intros [= <- _] Hnil. apply (f_equal (@length byte)) in Hnil.
  rewrite length_firstn, length_skipn in Hnil. cbn [length] in Hnil. lia.
Qed.

Lemma FaultyReader_lawful : io.Lawful iotest.content.
Proof.
  split; intros rd n bs; intros; cbn in *; unfold iotest.Read, iotest.content in *;
    destruct (Nat.leb_spec (length (iotest.s rd)) (iotest.i rd));
    match goal with H : _ = (_, _, _) |- _ => inversion H; subst; clear H end;
    cbn [iotest.s iotest.i]; eauto.
  - apply skipn_read.
  - cbn [length]. lia.
  - rewrite length_firstn. lia.
Qed.

Lemma FaultyReader_progressing : io.Progressing (R := iotest.FaultyReader).
Proof.
  intros rd n bs rd' Hn. cbn. unfold iotest.Read.
  destruct (Nat.leb_spec (length (iotest.s rd)) (iotest.i rd)); [discriminate|].
  intros [= <- _] Hnil. apply (f_equal (@length byte)) in Hnil.
  rewrite length_firstn, length_skipn in Hnil. cbn [length] in Hnil. lia.
Qed.

Lemma FaultyReader_neverEOF : io.NeverEOF (R := iotest.FaultyReader).
Proof.
  intros rd n bs rd'. cbn. unfold iotest.Read.
  destruct (_ <=? _); discriminate.
Qed.

End Readers.

(* ================================================================== *)
(** * Bracketed boundaries *)
(* ================================================================== *)

Section Bracketed.

Lemma indexFrom_unfold (s sep : list byte) (i k : nat) :
  indexFrom s sep i k =
  if HasPrefix (skipn i s) sep then Z.of_nat i
  else match k with
       | O => (-1)%Z
       | S k' => indexFrom s sep (S i) k'
       end.
Proof. destruct k; reflexivity. Qed.

Lemma indexFrom_some (s sep : list byte) (k i m : nat) :
  i + k <= length s ->
  indexFrom s sep i k = Z.of_nat m ->
  occurs_at sep s m /\
  forall j, i <= j -> occurs_at sep s j -> m <= j.
Proof.
  revert i. induction k as [|k IH]; intros i Hi; rewrite indexFrom_unfold;
    destruct (HasPrefix (skipn i s) sep) eqn:E; try lia.
  - intros Hm. assert (m = i) by lia. subst m.
    split; [apply HasPrefix_occurs; [lia | exact E] | auto].
  - intros Hm. assert (m = i) by lia. subst m.
    split; [apply HasPrefix_occurs; [lia | exact E] | auto].
  - intros Hm. destruct (IH (S i) ltac:(lia) Hm) as [Hocc Hmin].
    split; [exact Hocc|]. intros j Hj Hoccj.
    destruct (Nat.eq_dec j i) as [->|Hne].
    + apply HasPrefix_occurs in Hoccj; [congruence | lia].
    + apply Hmin; [lia | exact Hoccj].
Qed.

(** [Index] returns the first occurrence when it returns an offset. *)
Lemma Index_some (s sep : list byte) (i : nat) :
  Index s sep = Z.of_nat i -> first_occurrence sep s i.
Proof.
  unfold Index.
  destruct (Nat.ltb_spec (length s) (length sep)) as [Hlt|Hge]; [lia|].
  intros Hi.
  destruct (@indexFrom_some s sep (length s - length sep) 0 i ltac:(lia) Hi)
    as [Hocc Hmin].
  split; [exact Hocc|]. intros j Hj. apply Hmin; [lia | exact Hj].
Qed.

Lemma Z_gtb_nat (z : Z) :
  (z >? -1)%Z = true -> z = Z.of_nat (Z.to_nat z).
Proof. intros Hz. apply Z.gtb_lt in Hz. lia. Qed.

Variable r : ParallelReader.
Variable b : Boundaries.
Hypothesis Hstart : ChunkBoundaryStart b <> [].

Lemma slice_span (data start_ end__ : list byte) (i j : nat) :
  occurs_at start_ data i -> occurs_at end__ data j ->
  i + length start_ <= j ->
  begins_with start_ (slice data i (j + length end__)) /\
  ends_with end__ (slice data i (j + length end__)) /\
  length start_ + length end__ <= length (slice data i (j + length end__)).
Proof.
  intros Hs He Hij. split; [|split].
  - destruct Hs as (pre & post & -> & <-).
    apply occurs_at_bound in He. rewrite !length_app in He.
    unfold slice. rewrite skipn_app_exact, firstn_app.
    rewrite firstn_all2 by lia.
    now exists (firstn (j + length end__ - length pre - length start_) post).
  - destruct (firstn_occurrence He) as [Hb [pre Hpre]].
    unfold slice. rewrite <- skipn_firstn_comm, Hpre.
    assert (length pre = j).
    { apply (f_equal (@length byte)) in Hpre.
      rewrite length_firstn, length_app in Hpre. lia. }
    exists (skipn i pre). rewrite skipn_app.
    replace (i - length pre) with 0 by lia. reflexivity.
  - rewrite slice_length; [lia | now apply occurs_at_bound].
Qed.

Lemma ScanChunksWithBoundaries_spec :
  SplitSpec (fun _ => True)
            (fun t => begins_with (ChunkBoundaryStart b) t /\
                      ends_with (ChunkBoundary r) t /\
                      length (ChunkBoundaryStart b) + length (ChunkBoundary r)
                      <= length t)
            (fun _ => False) (ScanChunksWithBoundaries r b).
Proof.
  destruct (ChunkBoundaryStart b) as [|b0 start_] eqn:Es; [congruence|].
  clear Hstart.
  split; unfold ScanChunksWithBoundaries; rewrite ?Es; auto.
  - intros data atEOF adv t.
    destruct (negb atEOF && _); [discriminate|].
    destruct (_ && _ && _) eqn:Efound;
      [|destruct (negb atEOF); discriminate].
    apply andb_true_iff in Efound. destruct Efound as [Efound Hle].
    apply andb_true_iff in Efound. destruct Efound as [Hfirst Hlast].
    apply Z_gtb_nat in Hfirst, Hlast. apply Nat.leb_le in Hle.
    apply Index_some in Hfirst. apply LastIndex_some in Hlast.
    destruct Hfirst as [Hfirst _]. destruct Hlast as [Hlast _].
    intros [= <- <-].
    split; [now apply occurs_at_bound|].
    exists (firstn (Z.to_nat (Index data (b0 :: start_))) data).
    split; [apply slice_split; lia|]. split; [exact I|].
    now apply slice_span.
  - intros data atEOF adv.
    destruct (negb atEOF && _); [now intros [= <-]|].
    destruct (_ && _ && _); [discriminate|].
    destruct (negb atEOF); [now intros [= <-] | discriminate].
  - intros data atEOF adv tok e.
    destruct (negb atEOF && _); [discriminate|].
    destruct (_ && _ && _); [discriminate|].
    destruct atEOF; cbn [negb]; [|discriminate]. now intros [= <- <- <-].
  - intros data atEOF adv t e.
    destruct (negb atEOF && _); [discriminate|].
    destruct (_ && _ && _); [discriminate|].
    destruct (negb atEOF); discriminate.
  - intros data adv t Hne. cbn [negb andb].
    destruct (length data <? ChunkSize r); [discriminate|].
    destruct (_ && _ && _) eqn:Efound; [|discriminate].
    apply andb_true_iff in Efound. destruct Efound as [_ Hle].
    apply Nat.leb_le in Hle. intros [= <- <-]. cbn [length] in Hle. lia.
Qed.

End Bracketed.

(* ================================================================== *)
(** * The entry points *)
(* ================================================================== *)

Section EntryFacts.

Context (R : Type) `{io.Reader R}.

Lemma Read_mono (fuel k : nat) (r : ParallelReader) (stream : R) :
  ending (Read fuel r stream) <> OutOfFuel ->
  Read (fuel + k) r stream = Read fuel r stream.
Proof. apply scanAll_mono. Qed.

Lemma ReadWithBoundaries_mono (fuel k : nat) (r : ParallelReader)
    (b : Boundaries) (stream : R) :
  ending (ReadWithBoundaries fuel r b stream) <> OutOfFuel ->
  ReadWithBoundaries (fuel + k) r b stream = ReadWithBoundaries fuel r b stream.
Proof. apply scanAll_mono. Qed.

Lemma ReadFixed_mono (fuel k : nat) (r : ParallelReader) (stream : R) :
  ending (ReadFixed fuel r stream) <> OutOfFuel ->
  ReadFixed (fuel + k) r stream = ReadFixed fuel r stream.
Proof. apply readFixedLoop_mono. Qed.

Lemma scanAll_not_blocked (fuel w : nat) (s : bufio.Scanner R)
    (pool : Pool.t) (ch : Chan.chan chunk) (calls : list (list byte)) :
  0 < w -> ending (scanAll fuel w s pool ch calls) <> Blocked.
Proof.
  intros Hw. revert s pool ch calls.
  induction fuel as [|fuel IH]; intros s pool ch calls; cbn [scanAll];
    [discriminate|].
  destruct (bufio.Scan fuel s) as [b s1|msg|s1|]; try discriminate.
  destruct b.
  - destruct (Pool.Borrow pool) as [buf pool1].
    destruct (0 <? length (bufio.Bytes s1)); [|apply IH].
    destruct (copy buf (bufio.Bytes s1)) as [buf1 size].
    rewrite send_workers by exact Hw. apply IH.
  - destruct (bufio.Err s1); discriminate.
Qed.

Lemma readFixedLoop_not_blocked (fuel w : nat) (stream : R) (pool : Pool.t)
    (ch : Chan.chan chunk) (calls : list (list byte)) :
  0 < w -> ending (readFixedLoop fuel w stream pool ch calls) <> Blocked.
Proof.
  intros Hw. revert stream pool ch calls.
  induction fuel as [|fuel IH]; intros stream pool ch calls;
    cbn [readFixedLoop]; [discriminate|].
  destruct (Pool.Borrow pool) as [buf pool1].
  destruct (io.ReadFull fuel stream buf) as [[[[buf1 n] err] stream1]|];
    [|discriminate].
  rewrite send_workers by exact Hw.
  destruct err as [[]|]; try discriminate. apply IH.
Qed.

(** With at least one worker, no send blocks. *)
Lemma Read_not_blocked (fuel : nat) (r : ParallelReader) (stream : R) :
  0 < Concurrency r -> ending (Read fuel r stream) <> Blocked.
Proof. apply scanAll_not_blocked. Qed.

Lemma ReadFixed_not_blocked (fuel : nat) (r : ParallelReader) (stream : R) :
  0 < Concurrency r -> ending (ReadFixed fuel r stream) <> Blocked.
Proof. apply readFixedLoop_not_blocked. Qed.

Lemma Forall_removelast (A : Type) (P : A -> Prop) (l : list A) :
  Forall P l -> Forall P (removelast l).
Proof.
  induction 1 as [|x l Hx Hl IH]; [constructor|].
  destruct l; [constructor|]. now constructor.
Qed.

Variable content : R -> list byte.
Hypothesis Hlaw : io.Lawful content.

(** The run of [ReadWithBoundaries] with a start sequence, on a lawful
    reader. *)
Lemma ReadWithBoundaries_run (fuel : nat) (r : ParallelReader)
    (b : Boundaries) (stream : R) :
  ChunkBoundaryStart b <> [] ->
  Forall (fun t => begins_with (ChunkBoundaryStart b) t /\
                   ends_with (ChunkBoundary r) t /\
                   length (ChunkBoundaryStart b) + length (ChunkBoundary r)
                   <= length t)
         (delivered (ReadWithBoundaries fuel r b stream)) /\
  Pieces (fun _ => True) (content stream)
         (delivered (ReadWithBoundaries fuel r b stream)).
Proof.
  intros Hstart.
  destruct (NewScanner_inv content stream (ScanChunksWithBoundaries r b)
                           (ChunkSize r)) as (HI & Hp & Hc).
  destruct (@scanAll_spec R _ content Hlaw _ _ _ _
              (@ScanChunksWithBoundaries_spec r b Hstart)
              (ChunkSize r) fuel (Concurrency r) _ _ (chunks r) [] HI
              (NewPool_ok (Concurrency r) (ChunkSize r)))
    as (toks & last & E1 & E2 & E3 & E4 & E5 & _).
  fold (ReadWithBoundaries fuel r b stream) in *. rewrite Hp in *.
  destruct E3 as [-> | (t & _ & [])]. rewrite app_nil_r in *.
  cbn [app] in E1. rewrite E1. split; assumption.
Qed.

End EntryFacts.

(* ================================================================== *)
(** * The claims about [Read] *)
(* ================================================================== *)

(** C2 (as amended). On a lawful reader, with the newline as boundary:
    every chunk that [Read] delivers ends with the newline except possibly
    the last one; the chunks, concatenated in the order in which they are
    sent, are always a prefix of the input, and they are the whole input
    exactly when the call returns.  With at least one worker the call
    always ends: it returns, or it panics (a record longer than
    [ChunkSize] makes the scanner fail with [ErrTooLong]); with no worker
    the only other ending is a send that blocks on the full queue. *)
Theorem C2_chunks_rebuild_input (R : Type) `{io.Reader R}
    (content : R -> list byte) (r : ParallelReader) (stream : R) (fuel : nat) :
  io.Lawful content -> ChunkBoundary r = [x0a] ->
  Forall (ends_with [x0a]) (removelast (delivered (Read fuel r stream))) /\
  (exists rest,
     content stream = concat (delivered (Read fuel r stream)) ++ rest) /\
  (ending (Read fuel r stream) = Returned ->
   concat (delivered (Read fuel r stream)) = content stream) /\
  (102 * length (content stream) + ChunkSize r + 104 < fuel ->
   ending (Read fuel r stream) <> OutOfFuel) /\
  (0 < Concurrency r -> ending (Read fuel r stream) <> Blocked).
Proof.
  intros Hlaw Hb.
  destruct (Read_run r Hlaw fuel stream)
    as (toks & last & E1 & E2 & E3 & E4 & E5 & E6 & E7).
  rewrite Hb in *. rewrite E1.
  split; [|repeat split; auto; apply Read_not_blocked].
  destruct E3 as [-> | (t & -> & _)].
  - rewrite app_nil_r. now apply Forall_removelast.
  - now rewrite removelast_last.
Qed.

(** "abc\ndef\n" with [ChunkSize = 6]: two chunks, "abc\n" and "def\n". *)
Lemma C2_chunks_rebuild_input_witness :
  let r := set_ChunkSize (NewParallelReader 4) 6 in
  let stream :=
    strings.NewReader (of_string "abc" ++ [x0a] ++ of_string "def" ++ [x0a]) in
  ending (Read 9 r stream) = Returned /\
  concat (delivered (Read 9 r stream)) = strings.content stream.
Proof.
  intros r stream. split; [reflexivity|].
  apply (@C2_chunks_rebuild_input strings.Reader _ strings.content r stream 9
           strings_Reader_lawful eq_refl).
  reflexivity.
Defined.

(** C2 (as stated) fails: on "ab\ncdefg\n" with [ChunkSize = 4] the
    record "cdefg\n" does not fit the scanner's buffer; [Read] delivers
    "ab\n" and panics with [ErrTooLong], so the chunks do not rebuild
    the input. *)
Lemma C2_counterexample_long_record :
  let r := set_ChunkSize (NewParallelReader 4) 4 in
  let input := of_string "ab" ++ [x0a] ++ of_string "cdefg" ++ [x0a] in
  ChunkBoundary r = [x0a] /\ ChunkSize r < length input /\
  (forall fuel, 4 <= fuel ->
     Read fuel r (strings.NewReader input)
     = {| ending := Panicked ErrTooLong;
          delivered := [of_string "ab" ++ [x0a]] |}) /\
  concat (delivered (Read 4 r (strings.NewReader input))) <> input.
Proof.
  intros r input. split; [reflexivity|]. split; [vm_compute; lia|]. split.
  - intros fuel Hfuel. replace fuel with (4 + (fuel - 4)) by lia.
    rewrite Read_mono; [vm_compute; reflexivity | vm_compute; discriminate].
  - vm_compute. discriminate.
Qed.

(** C3 (as amended). When the window holds no occurrence of the boundary
    and the input is not at its end, the scanner asks for more data.  The
    scanner's buffer is capped at [ChunkSize], so no chunk that [Read]
    delivers is longer than [ChunkSize]; and on "abcdefgh\n" with
    [ChunkSize = 4], whose record is longer than [ChunkSize], [Read]
    delivers nothing and panics with [ErrTooLong]. *)
Theorem C3_ChunkSize_is_a_hard_limit (R : Type) `{io.Reader R}
    (content : R -> list byte) (r : ParallelReader) (stream : R) (fuel : nat) :
  io.Lawful content ->
  (forall data, free_of (ChunkBoundary r) data ->
     ScanChunksWithBoundary r data false = (0, None, None)) /\
  Forall (fun c => length c <= ChunkSize r) (delivered (Read fuel r stream)) /\
  (forall fuel', 3 <= fuel' ->
     Read fuel' (set_ChunkSize (NewParallelReader 4) 4)
          (strings.NewReader (of_string "abcdefgh" ++ [x0a]))
     = {| ending := Panicked ErrTooLong; delivered := [] |}).
Proof.
  intros Hlaw. split; [|split].
  - intros data Hfree. apply LastIndex_none in Hfree.
    unfold ScanChunksWithBoundary. cbn [negb andb].
    destruct (length data <? ChunkSize r); [reflexivity|].
    rewrite Hfree. reflexivity.
  - destruct (Read_run r Hlaw fuel stream)
      as (toks & last & E1 & _ & _ & E4 & _).
    rewrite E1. eapply Forall_impl; [|exact E4]. now intros c [_ Hc].
  - intros fuel' Hfuel. replace fuel' with (3 + (fuel' - 3)) by lia.
    rewrite Read_mono; [vm_compute; reflexivity | vm_compute; discriminate].
Qed.

(** "abcdefgh" then the end of the stream, with [ChunkSize = 4]: nothing
    longer than 4 bytes is delivered. *)
Lemma C3_ChunkSize_is_a_hard_limit_witness :
  Forall (fun c => length c <= 4)
    (delivered (Read 9 (set_ChunkSize (NewParallelReader 4) 4)
                     (strings.NewReader (of_string "abcdefgh")))).
Proof.
  apply (@C3_ChunkSize_is_a_hard_limit strings.Reader _ strings.content
           (set_ChunkSize (NewParallelReader 4) 4)
           (strings.NewReader (of_string "abcdefgh")) 9
           strings_Reader_lawful).
Defined.

(** C3 (as stated) fails: there is no input on which [Read] delivers a
    chunk longer than [ChunkSize]. *)
Lemma C3_counterexample_no_chunk_beyond_ChunkSize :
  ~ exists (r : ParallelReader) (input : list byte) (fuel : nat)
           (c : list byte),
      In c (delivered (Read fuel r (strings.NewReader input))) /\
      ChunkSize r < length c.
Proof.
  intros (r & input & fuel & c & Hin & Hlen).
  destruct (Read_run r strings_Reader_lawful fuel (strings.NewReader input))
    as (toks & last & E1 & _ & _ & E4 & _).
  rewrite E1 in Hin. rewrite Forall_forall in E4.
  destruct (E4 c Hin) as [_ Hc]. lia.
Qed.

(** C4 (as amended). Every chunk that [Read] delivers ends with the
    boundary sequence, except possibly the last one, which then holds no
    occurrence of the boundary at all: the input is only ever cut right
    after an occurrence of the boundary.  (A chunk may hold further
    occurrences before its end.) *)
Theorem C4_chunks_cut_after_boundary (R : Type) `{io.Reader R}
    (content : R -> list byte) (r : ParallelReader) (stream : R) (fuel : nat) :
  io.Lawful content ->
  exists toks last,
    delivered (Read fuel r stream) = toks ++ last /\
    Forall (ends_with (ChunkBoundary r)) toks /\
    (last = [] \/ exists t, last = [t] /\ free_of (ChunkBoundary r) t).
Proof.
  intros Hlaw.
  destruct (Read_run r Hlaw fuel stream) as (toks & last & E1 & E2 & E3 & _).
  now exists toks, last.
Qed.

(** "abc\ndef\nxyz" with [ChunkSize = 6]: "abc\n" and "def\n" end with
    the newline, "xyz" is the last chunk and holds none. *)
Lemma C4_chunks_cut_after_boundary_witness :
  exists toks last,
    delivered (Read 9 (set_ChunkSize (NewParallelReader 4) 6)
                 (strings.NewReader
                    (of_string "abc" ++ [x0a] ++ of_string "def" ++ [x0a]
                     ++ of_string "xyz")))
    = toks ++ last /\
    Forall (ends_with [x0a]) toks /\
    (last = [] \/ exists t, last = [t] /\ free_of [x0a] t).
Proof.
  apply (@C4_chunks_cut_after_boundary strings.Reader _ strings.content
           (set_ChunkSize (NewParallelReader 4) 6) _ 9 strings_Reader_lawful).
Defined.

(** C4 (as stated) fails: on "abc\ndef\n" with the default [ChunkSize]
    the only chunk is the whole input, which holds a newline at offset 3,
    before its end. *)
Lemma C4_counterexample_inner_boundary :
  let r := NewParallelReader 4 in
  let input := of_string "abc" ++ [x0a] ++ of_string "def" ++ [x0a] in
  (forall fuel, 4 <= fuel ->
     Read fuel r (strings.NewReader input)
     = {| ending := Returned; delivered := [input] |}) /\
  occurs_at (ChunkBoundary r) input 3 /\
  3 + length (ChunkBoundary r) <> length input.
Proof.
  intros r input. split; [|split].
  - intros fuel Hfuel. replace fuel with (4 + (fuel - 4)) by lia.
    rewrite Read_mono; [vm_compute; reflexivity | vm_compute; discriminate].
  - exists (of_string "abc"), (of_string "def" ++ [x0a]). now split.
  - vm_compute. lia.
Qed.

(* ================================================================== *)
(** * The claims about [ReadFixed], the scenarios and the callback *)
(* ================================================================== *)

(** C5 (a defect of the code).  The claim has every read fault other
    than the end of the stream abort the call, and so has the code for a
    source that fails with an error of its own: after "abcdefghijkl",
    with [ChunkSize = 5], it sends "abcde" and "fghij" and panics with the
    fault.  But a source that fails with [io.ErrUnexpectedEOF] itself is
    taken for a stream that ends inside a buffer: on the same bytes
    [ReadFixed] sends "abcde", "fghij" and "kl" and returns as if nothing
    had happened. *)
Theorem C5_ErrUnexpectedEOF_is_not_fatal (k : nat) :
  let r := set_ChunkSize (NewParallelReader 4) 5 in
  let input := of_string "abcdefghijkl" in
  ReadFixed (20 + k) r (iotest.NewErrReader input (ReadFault "disk"))
  = {| ending := Panicked (ReadFault "disk");
       delivered := [of_string "abcde"; of_string "fghij"] |} /\
  ReadFixed (20 + k) r (iotest.NewErrReader input ErrUnexpectedEOF)
  = {| ending := Returned;
       delivered := [of_string "abcde"; of_string "fghij"; of_string "kl"] |}.
Proof.
  intros r input.
  split; (rewrite ReadFixed_mono;
          [vm_compute; reflexivity | vm_compute; discriminate]).
Qed.

(** A reader that fails after "abcdefghijkl": [ReadFixed] delivers the
    two full chunks and panics with the fault of the reader. *)
Example ReadFixed_fault_is_fatal (fuel : nat) :
  20 <= fuel ->
  ReadFixed fuel (set_ChunkSize (NewParallelReader 4) 5)
            (iotest.NewFaultyReader (of_string "abcdefghijkl") "disk")
  = {| ending := Panicked (ReadFault "disk");
       delivered := [of_string "abcde"; of_string "fghij"] |}.
Proof.
  intros Hfuel. replace fuel with (20 + (fuel - 20)) by lia.
  rewrite ReadFixed_mono; [vm_compute; reflexivity | vm_compute; discriminate].
Qed.

(** Whatever it has delivered and whatever its fault, a reader that
    fails instead of ending makes [ReadFixed] panic with a fault, when
    there is a worker to receive the chunks. *)
Corollary ReadFixed_faulty_reader_panics (r : ParallelReader)
    (str : list byte) (m : String.string) (fuel : nat) :
  0 < ChunkSize r -> 0 < Concurrency r ->
  length str + ChunkSize r + 1 < fuel ->
  exists msg,
    ending (ReadFixed fuel r (iotest.NewFaultyReader str m))
    = Panicked (ReadFault msg).
Proof.
  intros HB Hw Hfuel.
  pose proof (@ReadFixed_not_blocked _ _ fuel r
                (iotest.NewFaultyReader str m) Hw) as Hnb.
  destruct (@readFixedLoop_spec _ _ iotest.content FaultyReader_lawful
              (ChunkSize r) fuel (Concurrency r) (iotest.NewFaultyReader str m)
              (Pool.NewPool (Concurrency r) (ChunkSize r)) (chunks r) [] HB
              (NewPool_ok (Concurrency r) (ChunkSize r)))
    as (new & _ & _ & _ & _ & E5 & E6 & E7 & E8).
  fold (ReadFixed fuel r (iotest.NewFaultyReader str m)) in *.
  specialize (E7 FaultyReader_neverEOF).
  specialize (E8 FaultyReader_progressing Hfuel).
  destruct (ending (ReadFixed fuel r (iotest.NewFaultyReader str m)))
    as [|e|msg| |] eqn:Eend;
    [congruence | | now destruct (E6 msg) | congruence | congruence].
  destruct (E5 e eq_refl) as [msg ->]. now exists msg.
Qed.

(** C6. The input "abcdefg|SPLIT|hijklmnop|SPLIT|hello" with the boundary
    "|SPLIT|" (and [ChunkSize] 65536 or 100, as in the tests): [Read]
    delivers exactly "abcdefg|SPLIT|hijklmnop|SPLIT|" and "hello", and so
    does the split function of the spec when [RequireBoundary] is false;
    when [RequireBoundary] is true it delivers exactly
    "abcdefg|SPLIT|hijklmnop|SPLIT|", the trailing "hello" being
    discarded. *)
Theorem C6_trailing_fragment (fuel : nat) :
  20 <= fuel ->
  let input := of_string "abcdefg|SPLIT|hijklmnop|SPLIT|hello" in
  let r := set_ChunkBoundary (NewParallelReader 4) (of_string "|SPLIT|") in
  let r100 := set_ChunkSize r 100 in
  let optional := {| ChunkBoundaryStart := []; RequireBoundary := false |} in
  let required := {| ChunkBoundaryStart := []; RequireBoundary := true |} in
  let two := {| ending := Returned;
                delivered := [of_string "abcdefg|SPLIT|hijklmnop|SPLIT|";
                              of_string "hello"] |} in
  let one := {| ending := Returned;
                delivered := [of_string "abcdefg|SPLIT|hijklmnop|SPLIT|"] |} in
  Read fuel r (strings.NewReader input) = two /\
  Read fuel r100 (strings.NewReader input) = two /\
  ReadWithBoundaries fuel r optional (strings.NewReader input) = two /\
  ReadWithBoundaries fuel r100 optional (strings.NewReader input) = two /\
  ReadWithBoundaries fuel r required (strings.NewReader input) = one /\
  ReadWithBoundaries fuel r100 required (strings.NewReader input) = one.
Proof.
  intros Hfuel input r r100 optional required two one.
  replace fuel with (20 + (fuel - 20)) by lia.
  rewrite !Read_mono by (vm_compute; discriminate).
  rewrite !ReadWithBoundaries_mono by (vm_compute; discriminate).
  repeat split; vm_compute; reflexivity.
Qed.

Lemma C6_trailing_fragment_witness :
  ReadWithBoundaries 20
    (set_ChunkSize (set_ChunkBoundary (NewParallelReader 4)
                                      (of_string "|SPLIT|")) 100)
    {| ChunkBoundaryStart := []; RequireBoundary := true |}
    (strings.NewReader (of_string "abcdefg|SPLIT|hijklmnop|SPLIT|hello"))
  = {| ending := Returned;
       delivered := [of_string "abcdefg|SPLIT|hijklmnop|SPLIT|"] |}.
Proof.
  apply (C6_trailing_fragment (fuel := 20)). lia.
Defined.

(** C7. With a start sequence, on a lawful reader: every chunk delivered
    begins with the start sequence and ends with the end sequence, the
    two not overlapping, and the chunks are successive pieces of the
    input, so that no byte outside such a span reaches the callback.  On
    "abcdefg<FOO>hijklmnop</FOO>hello" with start "<FOO>", end "</FOO>"
    and [RequireBoundary], exactly one chunk is delivered,
    "<FOO>hijklmnop</FOO>". *)
Theorem C7_bracketed_spans (R : Type) `{io.Reader R}
    (content : R -> list byte) (r : ParallelReader) (b : Boundaries)
    (stream : R) (fuel : nat) :
  io.Lawful content -> ChunkBoundaryStart b <> [] ->
  Forall (fun c => begins_with (ChunkBoundaryStart b) c /\
                   ends_with (ChunkBoundary r) c /\
                   length (ChunkBoundaryStart b) + length (ChunkBoundary r)
                   <= length c)
         (delivered (ReadWithBoundaries fuel r b stream)) /\
  Pieces (fun _ => True) (content stream)
         (delivered (ReadWithBoundaries fuel r b stream)) /\
  (forall fuel', 20 <= fuel' ->
     ReadWithBoundaries fuel'
       (set_ChunkSize (set_ChunkBoundary (NewParallelReader 4)
                                         (of_string "</FOO>")) 100)
       {| ChunkBoundaryStart := of_string "<FOO>"; RequireBoundary := true |}
       (strings.NewReader (of_string "abcdefg<FOO>hijklmnop</FOO>hello"))
     = {| ending := Returned;
          delivered := [of_string "<FOO>hijklmnop</FOO>"] |}).
Proof.
  intros Hlaw Hstart.
  destruct (@ReadWithBoundaries_run R _ content Hlaw fuel r b stream Hstart)
    as [E1 E2].
  split; [exact E1|]. split; [exact E2|].
  intros fuel' Hfuel. replace fuel' with (20 + (fuel' - 20)) by lia.
  rewrite ReadWithBoundaries_mono;
    [vm_compute; reflexivity | vm_compute; discriminate].
Qed.

Lemma C7_bracketed_spans_witness :
  Forall (fun c => begins_with (of_string "<FOO>") c /\
                   ends_with (of_string "</FOO>") c /\
                   11 <= length c)
    (delivered
       (ReadWithBoundaries 20
          (set_ChunkSize (set_ChunkBoundary (NewParallelReader 4)
                                            (of_string "</FOO>")) 40)
          {| ChunkBoundaryStart := of_string "<FOO>"; RequireBoundary := false |}
          (strings.NewReader
             (of_string "xx<FOO>a</FOO>yy<FOO>b</FOO>zz<FOO>c")))).
Proof.
  apply (@C7_bracketed_spans strings.Reader _ strings.content
           (set_ChunkSize (set_ChunkBoundary (NewParallelReader 4)
                                             (of_string "</FOO>")) 40)
           {| ChunkBoundaryStart := of_string "<FOO>"; RequireBoundary := false |}
           (strings.NewReader
              (of_string "xx<FOO>a</FOO>yy<FOO>b</FOO>zz<FOO>c")) 20
           strings_Reader_lawful).
  discriminate.
Defined.

(** C10 (a defect of the code).  [Read] skips the empty tokens of the
    scanner, but [ReadFixed] sends its last chunk without looking at the
    number of bytes read: on a source that fails with
    [io.ErrUnexpectedEOF] before it has delivered a byte,
    [io.ReadFull] reports no byte and that error, and [ReadFixed] sends
    one chunk, which is empty, and returns; [Read] on the same source
    sends nothing and panics with the error. *)
Theorem C10_ReadFixed_sends_an_empty_chunk (k : nat) :
  ReadFixed (2 + k) (NewParallelReader 4)
            (iotest.NewErrReader [] ErrUnexpectedEOF)
  = {| ending := Returned; delivered := [[]] |} /\
  Read (4 + k) (NewParallelReader 4) (iotest.NewErrReader [] ErrUnexpectedEOF)
  = {| ending := Panicked ErrUnexpectedEOF; delivered := [] |}.
Proof.
  split.
  - rewrite ReadFixed_mono;
      [vm_compute; reflexivity | vm_compute; discriminate].
  - rewrite Read_mono; [vm_compute; reflexivity | vm_compute; discriminate].
Qed.

(* ================================================================== *)
(** * Further properties of the split function *)
(* ================================================================== *)

(** X1. Whatever the window, [ScanChunksWithBoundary] never advances past
    it and never fails: its only error is [ErrFinalToken], only at the end
    of the input, with the whole window as a token that holds no boundary
    and no advance.  Without an error, a token is exactly the bytes
    advanced over and ends with the boundary, and no token (with no
    advance) is returned only before the end of the input. *)
Theorem ScanChunksWithBoundary_well_behaved (r : ParallelReader)
    (data : list byte) (atEOF : bool) :
  let '(adv, tok, err) := ScanChunksWithBoundary r data atEOF in
  adv <= length data /\
  match err, tok with
  | None, Some t => t = firstn adv data /\ ends_with (ChunkBoundary r) t
  | None, None => adv = 0 /\ atEOF = false
  | Some e, Some t =>
    e = ErrFinalToken /\ atEOF = true /\ t = data /\ adv = 0 /\
    free_of (ChunkBoundary r) data
  | Some _, None => False
  end.
Proof.
  unfold ScanChunksWithBoundary.
  destruct (negb atEOF && (length data <? ChunkSize r)) eqn:Emore.
  - split; [lia|]. split; [reflexivity|].
    apply andb_true_iff in Emore. now destruct atEOF.
  - destruct (LastIndex_cases data (ChunkBoundary r)) as [[E ->] | (i & E & ->)].
    + destruct atEOF; cbn [negb].
      * split; [lia|]. repeat split.
        exact (proj1 (LastIndex_none data (ChunkBoundary r)) E).
      * split; [lia|]. now split.
    + rewrite E, Nat2Z.id. apply LastIndex_some in E. destruct E as [Hocc _].
      destruct (firstn_occurrence Hocc) as [Hb He]. now repeat split.
Qed.

(** X2. The scanner is greedy: the chunk it cuts is the longest prefix of
    the window that ends with the boundary. *)
Theorem ScanChunksWithBoundary_greedy (r : ParallelReader)
    (data : list byte) (atEOF : bool) (adv : nat) (t : list byte) (k : nat) :
  ScanChunksWithBoundary r data atEOF = (adv, Some t, None) ->
  k <= length data -> ends_with (ChunkBoundary r) (firstn k data) ->
  k <= adv.
Proof.
  unfold ScanChunksWithBoundary.
  destruct (negb atEOF && _); [discriminate|].
  destruct (LastIndex_cases data (ChunkBoundary r)) as [[E ->] | (i & E & ->)].
  - destruct (negb atEOF); discriminate.
  - rewrite E, Nat2Z.id. intros [= <- _] Hk [pre Hpre].
    apply LastIndex_some in E. destruct E as [_ Hmax].
    assert (Hlen : k = length pre + length (ChunkBoundary r)).
    { apply (f_equal (@length byte)) in Hpre.
      rewrite length_firstn, length_app in Hpre. lia. }
    assert (length pre <= i); [|lia].
    apply Hmax. exists pre, (skipn k data). split; [|reflexivity].
    rewrite app_assoc, <- Hpre. symmetry. apply firstn_skipn.
Qed.

(** In "a\nbb\ncc" the prefix "a\n" ends with a newline, and the chunk
    cut, "a\nbb\n", is at least as long. *)
Lemma ScanChunksWithBoundary_greedy_witness : 2 <= 5.
Proof.
  apply (@ScanChunksWithBoundary_greedy (NewParallelReader 4)
           (of_string "a" ++ [x0a] ++ of_string "bb" ++ [x0a] ++ of_string "cc")
           true 5
           (of_string "a" ++ [x0a] ++ of_string "bb" ++ [x0a]) 2).
  - reflexivity.
  - cbn. lia.
  - exists (of_string "a"). reflexivity.
Defined.

(** X3. A token makes progress: it advances by at least the length of the
    boundary, and by at least one byte unless both the boundary and the
    window are empty. *)
Theorem ScanChunksWithBoundary_progress (r : ParallelReader)
    (data : list byte) (atEOF : bool) (adv : nat) (t : list byte) :
  ScanChunksWithBoundary r data atEOF = (adv, Some t, None) ->
  length (ChunkBoundary r) <= adv /\
  (adv = 0 -> ChunkBoundary r = [] /\ data = []).
Proof.
  unfold ScanChunksWithBoundary.
  destruct (negb atEOF && _); [discriminate|].
  destruct (LastIndex_cases data (ChunkBoundary r)) as [[E ->] | (i & E & ->)].
  - destruct (negb atEOF); discriminate.
  - rewrite E, Nat2Z.id. intros [= <- _]. split; [lia|]. intros H0.
    assert (Hb : ChunkBoundary r = [])
      by (apply length_zero_iff_nil; lia).
    split; [exact Hb|]. rewrite Hb in E. apply LastIndex_empty_sep in E.
    apply length_zero_iff_nil. lia.
Qed.

Lemma ScanChunksWithBoundary_progress_witness :
  length (ChunkBoundary (NewParallelReader 4)) <= 2.
Proof.
  apply (@ScanChunksWithBoundary_progress (NewParallelReader 4)
           (of_string "a" ++ [x0a] ++ of_string "b") true 2
           (of_string "a" ++ [x0a])).
  reflexivity.
Defined.

(* ================================================================== *)
(** * Further properties of the pool and of the chunks *)
(* ================================================================== *)

(** X4. The pool keeps its invariant: as long as the buffers returned to
    it have the pool's buffer size, every buffer it hands out has that
    size, pooled or fresh, and it never holds more buffers than its
    capacity. *)
Theorem Pool_keeps_buffer_size (B : nat) (p : Pool.t) (c : list byte) :
  PoolOK B p ->
  length (fst (Pool.Borrow p)) = B /\
  PoolOK B (snd (Pool.Borrow p)) /\
  (length c = B -> PoolOK B (Pool.Return p c)).
Proof.
  intros HP. destruct (Borrow_ok HP) as [H1 H2].
  split; [exact H1|]. split; [exact H2|]. now apply Return_ok.
Qed.

Lemma Pool_keeps_buffer_size_witness :
  length (fst (Pool.Borrow (Pool.Return (Pool.NewPool 2 4) (of_string "abcd"))))
  = 4.
Proof.
  apply (proj1 (@Pool_keeps_buffer_size 4
                  (Pool.Return (Pool.NewPool 2 4) (of_string "abcd")) []
                  (@Return_ok 4 (Pool.NewPool 2 4) (of_string "abcd")
                              (NewPool_ok 2 4) eq_refl))).
Defined.

(** X5. Buffers are reused first in, first out: after a buffer is
    returned to a pool that has room, the next [Borrow] hands out the
    oldest pooled buffer, which is the returned one when the pool was
    empty, and the pool is then as before but for that one buffer. *)
Theorem Pool_Return_then_Borrow (p : Pool.t) (c : list byte) :
  length (Chan.queue (Pool.pool p)) < Chan.cap (Pool.pool p) ->
  fst (Pool.Borrow (Pool.Return p c)) = hd c (Chan.queue (Pool.pool p)) /\
  Chan.queue (Pool.pool (snd (Pool.Borrow (Pool.Return p c))))
  = tl (Chan.queue (Pool.pool p) ++ [c]) /\
  (Chan.queue (Pool.pool p) = [] -> Pool.Borrow (Pool.Return p c) = (c, p)).
Proof.
  intros Hlt. unfold Pool.Return, Pool.Borrow, Chan.try_send, Chan.try_recv.
  apply Nat.ltb_lt in Hlt. rewrite Hlt. cbn.
  destruct p as [[cap q] B]. cbn in *.
  destruct q as [|b q]; cbn; repeat split; auto.
  discriminate.
Qed.

Lemma Pool_Return_then_Borrow_witness :
  Pool.Borrow (Pool.Return (Pool.NewPool 1 4) (of_string "abcd"))
  = (of_string "abcd", Pool.NewPool 1 4).
Proof.
  apply (@Pool_Return_then_Borrow (Pool.NewPool 1 4) (of_string "abcd")).
  - cbn. lia.
  - reflexivity.
Defined.

(** X6. Copying a token into a borrowed buffer and slicing the buffer at
    the copied size gives back the token whatever the buffer held before,
    cut to the length of the buffer when the token is longer; the buffer
    keeps its length. *)
Theorem copy_then_ReadableBytes (buf token : list byte) :
  ReadableBytes {| buffer := fst (copy buf token);
                   readableSize := snd (copy buf token) |}
  = firstn (length buf) token /\
  length (fst (copy buf token)) = length buf /\
  (length token <= length buf ->
   ReadableBytes {| buffer := fst (copy buf token);
                    readableSize := snd (copy buf token) |} = token).
Proof.
  split; [|split; [apply length_copy | apply copy_chunk]].
  unfold ReadableBytes, copy. cbn.
  assert (Hl : length (firstn (Nat.min (length buf) (length token)) token)
               = Nat.min (length buf) (length token))
    by (rewrite length_firstn; lia).
  rewrite <- Hl at 1. rewrite firstn_app_exact.
  destruct (Nat.le_ge_cases (length buf) (length token)) as [Hle|Hge].
  - now rewrite Nat.min_l.
  - rewrite Nat.min_r by exact Hge. now rewrite !firstn_all2 by lia.
Qed.

(** "ab" copied into a buffer that held "ZZZZ". *)
Lemma copy_then_ReadableBytes_witness :
  ReadableBytes
    {| buffer := fst (copy (of_string "ZZZZ") (of_string "ab"));
       readableSize := snd (copy (of_string "ZZZZ") (of_string "ab")) |}
  = of_string "ab".
Proof.
  apply (proj2 (proj2 (copy_then_ReadableBytes (of_string "ZZZZ")
                                               (of_string "ab")))).
  cbn. lia.
Defined.

(* ================================================================== *)
(** * Further properties of [Read] *)
(* ================================================================== *)

(** X7. The loop of [Read] always comes to an end: on a lawful reader,
    within a number of steps linear in the length of the input and in
    [ChunkSize], the call returns or panics, or, which happens only when
    [Concurrency] is 0, it blocks for ever on a send; with at least one
    worker it returns or panics.  A longer run changes nothing. *)
Theorem Read_terminates (R : Type) `{io.Reader R}
    (content : R -> list byte) (r : ParallelReader) (stream : R) (fuel : nat) :
  io.Lawful content ->
  102 * length (content stream) + ChunkSize r + 105 <= fuel ->
  ending (Read fuel r stream) <> OutOfFuel /\
  (0 < Concurrency r -> ending (Read fuel r stream) <> Blocked) /\
  (0 < Concurrency r ->
   ending (Read fuel r stream) = Returned \/
   (exists e, ending (Read fuel r stream) = Panicked e) \/
   (exists msg, ending (Read fuel r stream) = ScanPanicked msg)) /\
  Read fuel r stream
  = Read (102 * length (content stream) + ChunkSize r + 105) r stream.
Proof.
  intros Hlaw Hfuel.
  assert (Hend : forall n,
             102 * length (content stream) + ChunkSize r + 105 <= n ->
             ending (Read n r stream) <> OutOfFuel).
  { intros n Hn.
    destruct (Read_run r Hlaw n stream)
      as (toks & last & _ & _ & _ & _ & _ & _ & E).
    apply E. lia. }
  split; [now apply Hend|]. split; [apply Read_not_blocked|]. split.
  - intros Hw. pose proof (Hend fuel Hfuel) as H1.
    pose proof (@Read_not_blocked R _ fuel r stream Hw) as H2.
    destruct (ending (Read fuel r stream)) as [|e|msg| |];
      [now left | right; left; now exists e | right; right; now exists msg
       | congruence | congruence].
  - replace fuel
      with (102 * length (content stream) + ChunkSize r + 105
            + (fuel - (102 * length (content stream) + ChunkSize r + 105)))
      by lia.
    apply Read_mono. apply Hend. lia.
Qed.

Lemma Read_terminates_witness :
  ending (Read 1000 (set_ChunkSize (NewParallelReader 4) 4)
               (strings.NewReader (of_string "abcdefgh")))
  <> OutOfFuel.
Proof.
  apply (@Read_terminates strings.Reader _ strings.content
           (set_ChunkSize (NewParallelReader 4) 4)
           (strings.NewReader (of_string "abcdefgh")) 1000
           strings_Reader_lawful).
  vm_compute. lia.
Defined.

(** X8. Whatever the boundary: the chunks that [Read] delivers are
    consecutive pieces of the input, none skipped and none repeated, so
    that their concatenation is a prefix of the input; it is the whole
    input when the call returns. *)
Theorem Read_chunks_are_the_input (R : Type) `{io.Reader R}
    (content : R -> list byte) (r : ParallelReader) (stream : R) (fuel : nat) :
  io.Lawful content ->
  (exists rest,
     content stream = concat (delivered (Read fuel r stream)) ++ rest) /\
  (ending (Read fuel r stream) = Returned ->
   concat (delivered (Read fuel r stream)) = content stream).
Proof.
  intros Hlaw.
  destruct (Read_run r Hlaw fuel stream)
    as (toks & last & E1 & _ & _ & _ & E5 & E6 & _).
  rewrite E1. now split.
Qed.

Lemma Read_chunks_are_the_input_witness :
  concat (delivered
            (Read 9 (set_ChunkBoundary (set_ChunkSize (NewParallelReader 4) 16)
                                       (of_string "END"))
                  (strings.NewReader (of_string "abcdefgENDhijklmnopEND"))))
  = of_string "abcdefgENDhijklmnopEND".
Proof.
  apply (@Read_chunks_are_the_input strings.Reader _ strings.content
           (set_ChunkBoundary (set_ChunkSize (NewParallelReader 4) 16)
                              (of_string "END"))
           (strings.NewReader (of_string "abcdefgENDhijklmnopEND")) 9
           strings_Reader_lawful).
  reflexivity.
Defined.

(** X9. With [ChunkSize = 0] the scanner has no room at all: whatever
    the reader and the input, even an empty one, [Read] reads nothing,
    delivers nothing and panics with [ErrTooLong]. *)
Theorem Read_ChunkSize_0_panics (R : Type) `{io.Reader R}
    (r : ParallelReader) (stream : R) (fuel : nat) :
  ChunkSize r = 0 -> 2 <= fuel ->
  Read fuel r stream = {| ending := Panicked ErrTooLong; delivered := [] |}.
Proof.
  intros H0 Hfuel. unfold Read. rewrite H0.
  destruct fuel as [|[|fuel]]; try lia. reflexivity.
Qed.

Lemma Read_ChunkSize_0_panics_witness :
  Read 2 (set_ChunkSize (NewParallelReader 4) 0) (strings.NewReader [])
  = {| ending := Panicked ErrTooLong; delivered := [] |}.
Proof.
  apply (@Read_ChunkSize_0_panics strings.Reader _
           (set_ChunkSize (NewParallelReader 4) 0) (strings.NewReader []) 2).
  - reflexivity.
  - lia.
Defined.

(* ================================================================== *)
(** * Further properties of [ReadFixed] *)
(* ================================================================== *)

Section ReadFixedMore.

Context (R : Type) `{io.Reader R}.

Lemma ReadFull_empty_buffer (fuel : nat) (stream : R) :
  io.ReadFull fuel stream [] = Some ([], 0, None, stream).
Proof. destruct fuel; reflexivity. Qed.

Lemma readFixedLoop_ChunkSize_0 (fuel w : nat) (stream : R) (pool : Pool.t)
    (ch : Chan.chan chunk) (calls : list (list byte)) :
  PoolOK 0 pool -> 0 < w ->
  readFixedLoop fuel w stream pool ch calls
  = {| ending := OutOfFuel; delivered := calls ++ repeat [] fuel |}.
Proof.
  intros HP Hw. revert pool calls HP.
  induction fuel as [|fuel IH]; intros pool calls HP;
    cbn [readFixedLoop repeat].
  - now rewrite app_nil_r.
  - destruct (Borrow_ok HP) as [Hbuf HP1].
    destruct (Pool.Borrow pool) as [buf pool1]. cbn [fst snd] in Hbuf, HP1.
    apply length_zero_iff_nil in Hbuf. subst buf.
    rewrite ReadFull_empty_buffer, send_workers by exact Hw.
    unfold ReadableBytes. cbn [buffer readableSize firstn].
    rewrite IH by (now apply Return_ok).
    now rewrite <- app_assoc.
Qed.

Lemma readFixedLoop_ChunkSize_0_no_worker (fuel : nat) (stream : R)
    (pool : Pool.t) (ch : Chan.chan chunk) (calls : list (list byte)) :
  PoolOK 0 pool ->
  readFixedLoop fuel 0 stream pool ch calls
  = {| ending := if fuel <=? Chan.cap ch - length (Chan.queue ch)
                 then OutOfFuel else Blocked;
       delivered :=
         calls ++ repeat [] (Nat.min fuel
                                     (Chan.cap ch - length (Chan.queue ch))) |}.
Proof.
  revert pool ch calls.
  induction fuel as [|fuel IH]; intros pool ch calls HP;
    cbn [readFixedLoop].
  - cbn. now rewrite app_nil_r.
  - destruct (Borrow_ok HP) as [Hbuf HP1].
    destruct (Pool.Borrow pool) as [buf pool1]. cbn [fst snd] in Hbuf, HP1.
    apply length_zero_iff_nil in Hbuf. subst buf.
    rewrite ReadFull_empty_buffer. unfold send, Chan.try_send.
    destruct (Nat.ltb_spec (length (Chan.queue ch)) (Chan.cap ch))
      as [Hroom|Hfull].
    + rewrite IH by exact HP1. cbn [Chan.cap Chan.queue].
      rewrite length_app. cbn [length].
      unfold ReadableBytes. cbn [buffer readableSize firstn].
      replace (Chan.cap ch - length (Chan.queue ch))
        with (S (Chan.cap ch - (length (Chan.queue ch) + 1))) by lia.
      cbn [Nat.min Nat.leb repeat]. rewrite <- app_assoc. reflexivity.
    + replace (Chan.cap ch - length (Chan.queue ch)) with 0 by lia.
      cbn. now rewrite app_nil_r.
Qed.

Variable content : R -> list byte.
Hypothesis Hlaw : io.Lawful content.
Hypothesis Hfree : io.FaultFree (R := R).

Lemma readAtLeastLoop_faultfree (fuel : nat) (rd : R) (buf : list byte)
    (min n : nat) (err : option error)
    (buf' : list byte) (n' : nat) (err' : option error) (rd' : R) :
  (err = None \/ err = Some EOF) ->
  io.readAtLeastLoop fuel rd buf min n err = Some (buf', n', err', rd') ->
  err' = None \/ err' = Some EOF.
Proof.
  revert rd buf n err.
  induction fuel as [|fuel IH]; intros rd buf n err Herr;
    cbn [io.readAtLeastLoop];
    destruct ((n <? min) && is_nil err); try discriminate;
    try (intros [= <- <- <- <-]; exact Herr).
  destruct (io.Read rd (length buf - n)) as [[bs0 e] rd1] eqn:E.
  apply IH. destruct e as [e|]; [right | now left].
  now rewrite (Hfree _ _ E).
Qed.

Lemma ReadFull_faultfree (fuel : nat) (rd : R) (buf : list byte)
    (buf' : list byte) (n : nat) (e : error) (rd' : R) :
  io.ReadFull fuel rd buf = Some (buf', n, Some e, rd') ->
  e = EOF \/ e = ErrUnexpectedEOF.
Proof.
  unfold io.ReadFull, io.ReadAtLeast. rewrite Nat.ltb_irrefl.
  destruct (io.readAtLeastLoop fuel rd buf (length buf) 0 None)
    as [[[[buf1 n1] err1] rd1]|] eqn:E; [|discriminate].
  apply readAtLeastLoop_faultfree in E; [|now left].
  destruct (length buf <=? n1); [discriminate|].
  destruct E as [-> | ->]; [discriminate|].
  destruct (0 <? n1); intros [= _ _ <- _]; auto.
Qed.

Lemma readFixedLoop_faultfree (fuel w : nat) (stream : R) (pool : Pool.t)
    (ch : Chan.chan chunk) (calls : list (list byte)) (e : error) :
  ending (readFixedLoop fuel w stream pool ch calls) <> Panicked e.
Proof.
  revert stream pool ch calls.
  induction fuel as [|fuel IH]; intros stream pool ch calls;
    cbn [readFixedLoop]; [discriminate|].
  destruct (Pool.Borrow pool) as [buf pool1].
  destruct (io.ReadFull fuel stream buf)
    as [[[[buf1 n] err] stream1]|] eqn:E; [|discriminate].
  destruct err as [e0|].
  - destruct (@ReadFull_faultfree _ _ _ _ _ _ _ E) as [-> | ->];
      [discriminate|].
    destruct (send w ch pool1 _ calls) as [[[ch1 pool2] calls1]|];
      discriminate.
  - destruct (send w ch pool1 _ calls) as [[[ch1 pool2] calls1]|];
      [apply IH | discriminate].
Qed.

End ReadFixedMore.

Lemma chunksOf__length (n k : nat) (l : list byte) :
  0 < n -> length l <= k ->
  length (chunksOf_ k n l) = (length l + n - 1) / n.
Proof.
  intros Hn. revert l. induction k as [|k IH]; intros l Hk.
  - destruct l; [|cbn [length] in Hk; lia].
    cbn. symmetry. apply Nat.div_small. lia.
  - destruct l as [|b l].
    + cbn. symmetry. apply Nat.div_small. lia.
    + cbn [chunksOf_ length]. rewrite IH
        by (rewrite length_skipn; cbn [length] in *; lia).
      rewrite length_skipn. cbn [length].
      destruct (Nat.le_gt_cases (S (length l)) n) as [Hle|Hgt].
      * replace (S (length l) - n) with 0 by lia.
        rewrite (Nat.div_small (0 + n - 1)) by lia.
        apply Nat.div_unique with (r := length l); lia.
      * replace (S (length l) + n - 1)
          with ((S (length l) - n + n - 1) + 1 * n) by lia.
        rewrite Nat.div_add by lia. lia.
Qed.

(** X10. With [ChunkSize = 0] every buffer is empty and [io.ReadFull]
    fills it without reading: [ReadFixed] never ends and never touches the
    reader.  With at least one worker it sends one empty chunk after
    another; with [Concurrency = 0] it sends empty chunks while the queue
    has room and then blocks on the send. *)
Theorem ReadFixed_ChunkSize_0_never_ends (R : Type) `{io.Reader R}
    (r : ParallelReader) (stream : R) (fuel : nat) :
  ChunkSize r = 0 ->
  (0 < Concurrency r ->
   ReadFixed fuel r stream
   = {| ending := OutOfFuel; delivered := repeat [] fuel |}) /\
  (Concurrency r = 0 ->
   ReadFixed fuel r stream
   = {| ending :=
          if fuel <=? Chan.cap (chunks r) - length (Chan.queue (chunks r))
          then OutOfFuel else Blocked;
        delivered :=
          repeat [] (Nat.min fuel
                       (Chan.cap (chunks r)
                        - length (Chan.queue (chunks r)))) |}).
Proof.
  intros H0. unfold ReadFixed. rewrite H0. split.
  - intros Hw.
    now rewrite readFixedLoop_ChunkSize_0 by (apply NewPool_ok || exact Hw).
  - intros ->.
    now rewrite readFixedLoop_ChunkSize_0_no_worker by apply NewPool_ok.
Qed.

Lemma ReadFixed_ChunkSize_0_never_ends_witness :
  ReadFixed 3 (set_ChunkSize (NewParallelReader 4) 0)
            (strings.NewReader (of_string "abc"))
  = {| ending := OutOfFuel; delivered := [[]; []; []] |}.
Proof.
  apply (proj1 (@ReadFixed_ChunkSize_0_never_ends strings.Reader _
                  (set_ChunkSize (NewParallelReader 4) 0)
                  (strings.NewReader (of_string "abc")) 3 eq_refl)).
  cbn. lia.
Defined.

(** X11. On a lawful reader that makes progress and has no fault, with
    a positive [ChunkSize] and at least one worker, [ReadFixed] returns,
    having delivered exactly the fixed-size cutting of the input: the
    ceiling of [length / ChunkSize] chunks, whose concatenation is the
    input. *)
Theorem ReadFixed_returns_the_cutting (R : Type) `{io.Reader R}
    (content : R -> list byte) (r : ParallelReader) (stream : R) (fuel : nat) :
  io.Lawful content -> io.Progressing (R := R) -> io.FaultFree (R := R) ->
  0 < ChunkSize r -> 0 < Concurrency r ->
  length (content stream) + ChunkSize r + 1 < fuel ->
  ReadFixed fuel r stream
  = {| ending := Returned;
       delivered := chunksOf (ChunkSize r) (content stream) |} /\
  length (delivered (ReadFixed fuel r stream))
  = (length (content stream) + ChunkSize r - 1) / ChunkSize r /\
  concat (delivered (ReadFixed fuel r stream)) = content stream.
Proof.
  intros Hlaw Hprog Hfree HB Hw Hfuel.
  destruct (@readFixedLoop_spec R _ content Hlaw (ChunkSize r) fuel
              (Concurrency r) stream
              (Pool.NewPool (Concurrency r) (ChunkSize r)) (chunks r) [] HB
              (NewPool_ok (Concurrency r) (ChunkSize r)))
    as (new & E1 & _ & E3 & _ & _ & E6 & _ & E8).
  pose proof (@readFixedLoop_faultfree R _ Hfree fuel (Concurrency r) stream
                (Pool.NewPool (Concurrency r) (ChunkSize r)) (chunks r) [])
    as Hnf.
  pose proof (@ReadFixed_not_blocked R _ fuel r stream Hw) as Hnb.
  fold (ReadFixed fuel r stream) in *. cbn [app] in E1.
  specialize (E8 Hprog Hfuel).
  assert (Hret : ending (ReadFixed fuel r stream) = Returned).
  { destruct (ending (ReadFixed fuel r stream)) as [|e|msg| |];
      [reflexivity | now destruct (Hnf e) | now destruct (E6 msg)
       | congruence | congruence]. }
  assert (Hall : ReadFixed fuel r stream
                 = {| ending := Returned;
                      delivered := chunksOf (ChunkSize r) (content stream) |}).
  { destruct (ReadFixed fuel r stream) as [en de]. cbn in *.
    now rewrite Hret, E1, (E3 Hret). }
  split; [exact Hall|]. rewrite Hall. cbn [delivered]. split.
  - apply chunksOf__length; [exact HB | lia].
  - apply chunksOf__concat; [exact HB | lia].
Qed.

Lemma strings_Reader_faultfree : io.FaultFree (R := strings.Reader).
Proof.
  intros rd n bs e rd'. cbn. unfold strings.Read.
  destruct (_ <=? _); [now intros [= _ <- _] | discriminate].
Qed.

Lemma ReadFixed_returns_the_cutting_witness :
  ReadFixed 20 (set_ChunkSize (NewParallelReader 4) 4)
            (strings.NewReader (of_string "abcdefghij"))
  = {| ending := Returned;
       delivered := [of_string "abcd"; of_string "efgh"; of_string "ij"] |}.
Proof.
  apply (@ReadFixed_returns_the_cutting strings.Reader _ strings.content
           (set_ChunkSize (NewParallelReader 4) 4)
           (strings.NewReader (of_string "abcdefghij")) 20
           strings_Reader_lawful strings_Reader_progressing
           strings_Reader_faultfree).
  - cbn. lia.
  - cbn. lia.
  - vm_compute. lia.
Defined.

(* ================================================================== *)
(** * When [Read] returns *)
(* ================================================================== *)

Section ReadReturns.

Variable r : ParallelReader.
Context (R : Type) `{io.Reader R}.
Variable content : R -> list byte.
Hypothesis Hlaw : io.Lawful content.
Hypothesis Hprog : io.Progressing (R := R).
Hypothesis Hfree : io.FaultFree (R := R).
Hypothesis Hsep : ChunkBoundary r <> [].
Variable input : list byte.
Hypothesis Hfits : every_stretch_holds (ChunkBoundary r) (ChunkSize r) input.

Lemma scan_more_cases (data : list byte) (adv : nat) :
  ScanChunksWithBoundary r data false = (adv, None, None) ->
  length data < ChunkSize r \/ free_of (ChunkBoundary r) data.
Proof.
  unfold ScanChunksWithBoundary. cbn [negb andb].
  destruct (Nat.ltb_spec (length data) (ChunkSize r)); [now left|].
  destruct (LastIndex_cases data (ChunkBoundary r)) as [[E ->] | (i & E & ->)];
    [|discriminate].
  intros _. right. exact (proj1 (LastIndex_none data (ChunkBoundary r)) E).
Qed.

Lemma free_of_nil : free_of (ChunkBoundary r) [].
Proof.
  intros j Hocc. apply occurs_at_bound in Hocc. cbn [length] in Hocc.
  destruct (ChunkBoundary r); [congruence | cbn [length] in Hocc; lia].
Qed.

Lemma fill_quiet (k : nat) (s : bufio.Scanner R) :
  bufio.err s = None -> bufio.end_ s < length (bufio.buf s) ->
  bufio.err (bufio.fill k s) = None \/ bufio.err (bufio.fill k s) = Some EOF.
Proof.
  intros He Hroom. rewrite fill_unfold.
  destruct (io.Read (bufio.r s) (length (bufio.buf s) - bufio.end_ s))
    as [[bs e] rd'] eqn:E.
  pose proof (io.read_count Hlaw _ _ E) as Hcount.
  destruct s as [rd sp mx tk bf st en er em dn]. scn. subst er.
  replace (length bf - en <? length bs) with false
    by (symmetry; apply Nat.ltb_ge; lia).
  destruct e as [e|].
  - rewrite (Hfree _ _ E). scn. now right.
  - assert (Hne : bs <> []) by (eapply Hprog; [|exact E]; lia).
    destruct bs as [|b0 bs]; [congruence|]. cbn. now left.
Qed.

Lemma grow_shift (s : bufio.Scanner R) :
  Inv content (ScanChunksWithBoundary r) (ChunkSize r) s ->
  (bufio.grow (bufio.shift s) = None /\
   bufio.start s = 0 /\ bufio.end_ s = ChunkSize r) \/
  (bufio.grow (bufio.shift s) = Some (bufio.shift s) /\
   bufio.end_ (bufio.shift s) < length (bufio.buf (bufio.shift s))).
Proof.
  intros HI. destruct s as [rd sp mx tk bf st en er em dn].
  destruct HI as [I1 I2 I3 I4 I5 I6 I7 I8 I9]. scn. subst sp mx.
  unfold bufio.shift, bufio.grow. scn.
  destruct ((0 <? st) && ((en =? length bf) || (length bf / 2 <? st)))
    eqn:Eshift; scn.
  - apply andb_true_iff in Eshift. destruct Eshift as [Hst _].
    apply Nat.ltb_lt in Hst. rewrite length_copy.
    destruct (Nat.eqb_spec (en - st) (length bf)) as [Heq|Hne]; [lia|].
    right. split; [reflexivity | lia].
  - destruct (Nat.eqb_spec en (length bf)) as [Heq|Hne].
    + rewrite I5, Nat.leb_refl. left. split; [reflexivity|].
      split; [|lia]. rewrite ?Heq, ?Nat.eqb_refl in Eshift.
      cbn [orb] in Eshift. rewrite andb_true_r in Eshift.
      apply Nat.ltb_ge in Eshift. lia.
    + right. split; [reflexivity | lia].
Qed.

Lemma scanStep_good (s : bufio.Scanner R) :
  Inv content (ScanChunksWithBoundary r) (ChunkSize r) s ->
  bufio.done s = false -> on_track content input s ->
  match bufio.scanStep s with
  | bufio.Return true s' | bufio.Continue s' => on_track content input s'
  | _ => False
  end.
Proof.
  intros HI Hd [Herr [pre Hpre]].
  pose proof (@scanStep_spec R _ content Hlaw _ _ _ _
                (ScanChunksWithBoundary_spec r) (ChunkSize r) s HI Hd) as Hstep.
  unfold bufio.scanStep in *.
  (* the first half of the iteration *)
  assert (Hsplit :
    match bufio.trySplit s with
    | bufio.Return true s' => bufio.err s' = bufio.err s
    | bufio.Continue s' =>
      bufio.err s' = None /\ bufio.err s = None /\
      bufio.window s' = bufio.window s /\ bufio.r s' = bufio.r s /\
      bufio.done s' = false /\
      Inv content (ScanChunksWithBoundary r) (ChunkSize r) s' /\
      (length (bufio.window s) < ChunkSize r \/
       free_of (ChunkBoundary r) (bufio.window s))
    | _ => False
    end).
  { clear Hstep. unfold bufio.trySplit.
    destruct s as [rd sp mx tk bf st en er em dn].
    pose proof HI as [I1 I2 I3 I4 I5 I6 I7 I8 I9]. scn. subst sp mx dn.
    pose proof (@slice_length bf st en I4) as Hwl.
    destruct ((st <? en) || not_nil er) eqn:Hcall.
    2:{ apply orb_false_iff in Hcall. destruct Hcall as [Hlt Hnn].
        apply Nat.ltb_ge in Hlt. destruct er; [discriminate|].
        repeat split; auto.
        assert (Hnil : slice bf st en = [])
          by (apply length_zero_iff_nil; lia).
        rewrite Hnil. right. apply free_of_nil. }
    pose proof (ScanChunksWithBoundary_spec r) as Hspec.
    destruct (ScanChunksWithBoundary r (slice bf st en) (not_nil er))
      as [[adv tok] e] eqn:E.
    destruct e as [e|].
    - destruct (split_err Hspec _ _ E) as [-> HatEOF].
      destruct tok as [t|]; cbn [not_nil is_nil negb]; [reflexivity|].
      rewrite HatEOF in E.
      exact (exact_eof (ScanChunksWithBoundary_exact r) _ E).
    - unfold bufio.advance. scn. destruct tok as [t|].
      + destruct (split_token Hspec _ _ E) as (Hadv & _).
        replace (en - st <? adv) with false
          by (symmetry; apply Nat.ltb_ge; lia).
        scn.
        assert (Hpos : 0 < adv).
        { destruct adv; [|lia]. exfalso.
          assert (Hb : ChunkBoundary r = []); [|congruence].
          apply length_zero_iff_nil.
          pose proof E as E'. unfold ScanChunksWithBoundary in E'.
          destruct (negb (not_nil er) && _); [discriminate|].
          destruct (LastIndex_cases (slice bf st en) (ChunkBoundary r))
            as [[E0 E1] | (i & E0 & E1)]; rewrite E1 in E'.
          - destruct (negb (not_nil er)); discriminate.
          - injection E' as E' _. lia. }
        apply Nat.ltb_lt in Hpos. rewrite Hpos, orb_true_r. reflexivity.
      + pose proof (split_more Hspec _ _ E) as ->.
        replace (en - st <? 0) with false by (symmetry; apply Nat.ltb_ge; lia).
        scn. rewrite Nat.add_0_r.
        destruct er as [e|].
        * exfalso. exact (exact_eof (ScanChunksWithBoundary_exact r) _ E).
        * repeat split; auto. cbn [not_nil is_nil negb] in E.
          exact (scan_more_cases _ E). }
  destruct (bufio.trySplit s) as [b s1|msg|s1|]; try contradiction.
  - (* a token *)
    destruct b; [|contradiction].
    destruct Hstep as (t & HI1 & _ & _ & _ & gap & _ & Hpend & _).
    split; [rewrite Hsplit; exact Herr|].
    exists (pre ++ gap ++ t). rewrite Hpre, Hpend, <- !app_assoc. reflexivity.
  - (* no token: read more *)
    destruct Hsplit as (He1 & He & Hw1 & Hr1 & Hd1 & HI1 & Hmore).
    assert (Hp1 : pending content s1 = pending content s)
      by (unfold pending; rewrite Hd1, Hd, Hw1, Hr1; reflexivity).
    pose proof (@readMore_spec R _ content Hlaw _ _ s1 HI1 Hd1) as Hread.
    unfold bufio.readMore in *. rewrite He1 in *. cbn [not_nil is_nil negb] in *.
    destruct (grow_shift HI1) as [(Hg & Hst & Hen) | (Hg & Hroom)];
      rewrite Hg in *.
    + (* the buffer is full of bytes that hold no boundary *)
      exfalso.
      assert (Hlen : length (bufio.window s1) = ChunkSize r).
      { unfold bufio.window. rewrite slice_length by apply (inv_end HI1). lia. }
      rewrite Hw1 in Hlen. destruct Hmore as [Hlt | Hfreeof]; [lia|].
      unfold pending in Hpre. rewrite Hd in Hpre.
      destruct (Hfits _ _ _ Hpre Hlen) as [j Hocc].
      exact (Hfreeof j Hocc).
    + destruct Hread as (_ & _ & Hp2 & _).
      split.
      * apply fill_quiet; [|exact Hroom].
        unfold bufio.shift. destruct (_ && _); [scn|]; exact He1.
      * exists pre. rewrite Hp2, Hp1. exact Hpre.
Qed.

Lemma scanLoop_good (fuel : nat) (s : bufio.Scanner R) :
  Inv content (ScanChunksWithBoundary r) (ChunkSize r) s ->
  bufio.done s = false -> on_track content input s ->
  match bufio.scanLoop fuel s with
  | bufio.Return true s' => on_track content input s'
  | bufio.Exhausted _ => True
  | _ => False
  end.
Proof.
  revert s. induction fuel as [|fuel IH]; intros s HI Hd Hgood;
    cbn [bufio.scanLoop]; [exact I|].
  pose proof (scanStep_good HI Hd Hgood) as Hstep.
  pose proof (@scanStep_spec R _ content Hlaw _ _ _ _
                (ScanChunksWithBoundary_spec r) (ChunkSize r) s HI Hd) as Hinv.
  destruct (bufio.scanStep s) as [b s1|msg|s1|]; try contradiction.
  - destruct b; [exact Hstep | contradiction].
  - destruct Hinv as (HI1 & Hd1 & _). now apply IH.
Qed.

Lemma scanAll_good (fuel w : nat) (s : bufio.Scanner R) (pool : Pool.t)
    (ch : Chan.chan chunk) (calls : list (list byte)) :
  0 < w ->
  Inv content (ScanChunksWithBoundary r) (ChunkSize r) s ->
  on_track content input s ->
  ending (scanAll fuel w s pool ch calls) = Returned \/
  ending (scanAll fuel w s pool ch calls) = OutOfFuel.
Proof.
  intros Hw. revert s pool ch calls.
  induction fuel as [|fuel IH]; intros s pool ch calls HI Hgood;
    cbn [scanAll]; [now right|].
  pose proof (@Scan_spec R _ content Hlaw _ _ _ _
                (ScanChunksWithBoundary_spec r) (ChunkSize r) fuel s HI) as Hscan.
  unfold bufio.Scan in *. destruct (bufio.done s) eqn:Hd.
  - left. destruct Hgood as [[He | He] _]; unfold bufio.Err; now rewrite He.
  - pose proof (scanLoop_good fuel HI Hd Hgood) as Hloop.
    destruct (bufio.scanLoop fuel s) as [b s1|msg|s1|]; try contradiction;
      [|now right].
    destruct b; [|contradiction].
    destruct Hscan as [_ (t & HI1 & _)].
    destruct (Pool.Borrow pool) as [buf pool1].
    destruct (0 <? length (bufio.Bytes s1)); [|now apply IH].
    destruct (copy buf (bufio.Bytes s1)) as [buf1 size].
    rewrite send_workers by exact Hw. now apply IH.
Qed.

End ReadReturns.

Lemma stretches_hold_sound (sep : list byte) (n : nat) (inp : list byte) :
  stretches_hold sep n inp = true -> every_stretch_holds sep n inp.
Proof.
  intros Hall pre w post Hinp Hw.
  unfold stretches_hold in Hall. rewrite forallb_forall in Hall.
  assert (Hin : In (length pre) (seq 0 (length inp + 1 - n))).
  { apply in_seq. rewrite Hinp, !length_app. lia. }
  specialize (Hall _ Hin). cbv beta in Hall.
  assert (Hs : slice inp (length pre) (length pre + n) = w).
  { rewrite Hinp. unfold slice. rewrite skipn_app_exact.
    replace (length pre + n - length pre) with (length w) by lia.
    apply firstn_app_exact. }
  rewrite Hs in Hall.
  destruct (LastIndex_cases w sep) as [[_ E] | (i & E & _)]; [congruence|].
  exists i. apply LastIndex_some in E. exact (proj1 E).
Qed.

(** X12. [Read] returns on every input whose records fit: on a lawful
    reader that makes progress and has no fault, with at least one worker
    and a non-empty boundary, if every stretch of [ChunkSize] consecutive
    bytes of the input holds an occurrence of the boundary, then [Read]
    does not panic; it returns, and the chunks it has delivered are the
    whole input. *)
Theorem Read_returns_when_records_fit (R : Type) `{io.Reader R}
    (content : R -> list byte) (r : ParallelReader) (stream : R) (fuel : nat) :
  io.Lawful content -> io.Progressing (R := R) -> io.FaultFree (R := R) ->
  0 < Concurrency r -> ChunkBoundary r <> [] ->
  every_stretch_holds (ChunkBoundary r) (ChunkSize r) (content stream) ->
  102 * length (content stream) + ChunkSize r + 104 < fuel ->
  ending (Read fuel r stream) = Returned /\
  concat (delivered (Read fuel r stream)) = content stream.
Proof.
  intros Hlaw Hprog Hfree Hw Hsep Hfits Hfuel.
  destruct (NewScanner_inv content stream (ScanChunksWithBoundary r)
                           (ChunkSize r)) as (HI & Hp & _).
  destruct (Read_run r Hlaw fuel stream)
    as (toks & last & E1 & _ & _ & _ & _ & E6 & E7).
  assert (Hret : ending (Read fuel r stream) = Returned).
  { destruct (@scanAll_good r R _ content Hlaw Hprog Hfree Hsep
                (content stream) Hfits fuel (Concurrency r) _
                (Pool.NewPool (Concurrency r) (ChunkSize r)) (chunks r) []
                Hw HI)
      as [Hret | Hout].
    - split; [now left|]. exists []. now rewrite Hp.
    - exact Hret.
    - now destruct (E7 Hfuel). }
  split; [exact Hret|]. rewrite E1. now apply E6.
Qed.

(** "abc\ndef\n" read in windows of 6 bytes: every 6 bytes in a row hold
    a newline. *)
Lemma Read_returns_when_records_fit_witness :
  ending (Read 1000 (set_ChunkSize (NewParallelReader 4) 6)
               (strings.NewReader
                  (of_string "abc" ++ [x0a] ++ of_string "def" ++ [x0a])))
  = Returned /\
  concat (delivered
            (Read 1000 (set_ChunkSize (NewParallelReader 4) 6)
                  (strings.NewReader
                     (of_string "abc" ++ [x0a] ++ of_string "def" ++ [x0a]))))
  = of_string "abc" ++ [x0a] ++ of_string "def" ++ [x0a].
Proof.
  apply (@Read_returns_when_records_fit strings.Reader _ strings.content
           (set_ChunkSize (NewParallelReader 4) 6)
           (strings.NewReader
              (of_string "abc" ++ [x0a] ++ of_string "def" ++ [x0a])) 1000
           strings_Reader_lawful strings_Reader_progressing
           strings_Reader_faultfree).
  - cbn. lia.
  - discriminate.
  - apply stretches_hold_sound. vm_compute. reflexivity.
  - vm_compute. lia.
Defined.

Section ReadEdges.

Context (R : Type) `{io.Reader R}.
Variable content : R -> list byte.
Hypothesis Hlaw : io.Lawful content.

(** From a scanner that is not done, [Scan] does not return false
    without an error when the split function leaves nothing out. *)
Lemma scanLoop_false_has_error (G P Q : list byte -> Prop)
    (f : bufio.SplitFunc) (M fuel : nat) (s : bufio.Scanner R) :
  SplitSpec G P Q f -> SplitExact G f ->
  Inv content f M s -> bufio.done s = false ->
  match bufio.scanLoop fuel s with
  | bufio.Return false s' => bufio.Err s' <> None
  | _ => True
  end.
Proof.
  intros Hspec Hex. revert s.
  induction fuel as [|fuel IH]; intros s HI Hd; cbn [bufio.scanLoop];
    [exact I|].
  pose proof (@scanStep_spec R _ content Hlaw _ _ _ _ Hspec M s HI Hd) as Hstep.
  destruct (bufio.scanStep s) as [b s1|msg|s1|]; cbn [step_ok] in Hstep;
    try exact I.
  - destruct b; [exact I|]. intros Herr. exact (Hstep Herr Hex).
  - destruct Hstep as (HI1 & Hd1 & _). now apply IH.
Qed.

Lemma scanAll_pool (G P Q : list byte -> Prop) (f : bufio.SplitFunc)
    (M fuel w1 w2 : nat) (s : bufio.Scanner R) (p1 p2 : Pool.t)
    (ch1 ch2 : Chan.chan chunk) (calls : list (list byte)) :
  SplitSpec G P Q f -> 0 < w1 -> 0 < w2 ->
  Inv content f M s -> PoolOK M p1 -> PoolOK M p2 ->
  scanAll fuel w1 s p1 ch1 calls = scanAll fuel w2 s p2 ch2 calls.
Proof.
  intros Hspec Hw1 Hw2. revert s p1 p2 calls.
  induction fuel as [|fuel IH]; intros s p1 p2 calls HI HP1 HP2;
    cbn [scanAll]; [reflexivity|].
  pose proof (@Scan_spec R _ content Hlaw _ _ _ _ Hspec M fuel s HI) as Hscan.
  destruct (bufio.Scan fuel s) as [b s1|msg|s1|]; try reflexivity.
  destruct b; [|reflexivity]. cbn [scan_ok] in Hscan.
  destruct Hscan as [_ (t & HI1 & Htok & Hlen & _)].
  unfold bufio.Bytes. rewrite Htok.
  destruct (Borrow_ok HP1) as [Hb1 HP1']. destruct (Borrow_ok HP2) as [Hb2 HP2'].
  destruct (Pool.Borrow p1) as [buf1 q1]. destruct (Pool.Borrow p2) as [buf2 q2].
  cbn [fst snd] in *.
  destruct (0 <? length t); [|now apply IH].
  pose proof (@copy_chunk buf1 t ltac:(lia)) as Hc1.
  pose proof (@copy_chunk buf2 t ltac:(lia)) as Hc2.
  pose proof (length_copy buf1 t) as Hl1.
  pose proof (length_copy buf2 t) as Hl2.
  destruct (copy buf1 t) as [b1 n1]. destruct (copy buf2 t) as [b2 n2].
  cbn [fst snd] in *. rewrite !send_workers by assumption.
  cbn [buffer]. rewrite Hc1, Hc2.
  apply IH; [exact HI1 | |]; apply Return_ok; auto; lia.
Qed.

Variable r : ParallelReader.

Lemma ScanChunksWithBoundary_spec_empty :
  ChunkBoundary r = [] ->
  SplitSpec (fun gap => gap = []) (ends_with (ChunkBoundary r))
            (fun _ => False) (ScanChunksWithBoundary r).
Proof.
  intros Hb. pose proof (ScanChunksWithBoundary_spec r) as Hspec.
  split.
  - exact (split_token Hspec).
  - exact (split_more Hspec).
  - exact (split_err Hspec).
  - intros data atEOF adv t e E.
    destruct (split_final Hspec _ _ E) as (gap & _ & _ & Hfree).
    exfalso. apply (Hfree 0). exists [], t. rewrite Hb. now split.
  - exact (split_moves Hspec).
  - reflexivity.
  - now intros g1 g2 -> ->.
Qed.

Lemma scanAll_empty_boundary (fuel w : nat) (s : bufio.Scanner R)
    (pool : Pool.t) (ch : Chan.chan chunk) (calls : list (list byte)) :
  ChunkBoundary r = [] ->
  Inv content (ScanChunksWithBoundary r) (ChunkSize r) s ->
  bufio.done s = false ->
  ending (scanAll fuel w s pool ch calls) <> Returned.
Proof.
  intros Hb. revert s pool ch calls.
  induction fuel as [|fuel IH]; intros s pool ch calls HI Hd; cbn [scanAll];
    [discriminate|].
  pose proof (@Scan_spec R _ content Hlaw _ _ _ _
                (ScanChunksWithBoundary_spec_empty Hb) (ChunkSize r) fuel s HI)
    as Hscan.
  pose proof (@scanLoop_false_has_error _ _ _ _ (ChunkSize r) fuel s
                (ScanChunksWithBoundary_spec_empty Hb)
                (ScanChunksWithBoundary_exact r) HI Hd) as Hfalse.
  unfold bufio.Scan in *. rewrite Hd in *.
  destruct (bufio.scanLoop fuel s) as [b s1|msg|s1|]; try discriminate.
  destruct b.
  - destruct Hscan as [_ (t & HI1 & _ & _ & _ & gap & _ & _ & Hkind)].
    destruct Hkind as [[Hd1 _] | [_ []]].
    destruct (Pool.Borrow pool) as [buf pool1].
    destruct (0 <? length (bufio.Bytes s1)); [|now apply IH].
    destruct (copy buf (bufio.Bytes s1)) as [buf1 size].
    destruct (send w ch pool1 _ calls) as [[[ch1 pool2] calls1]|];
      [now apply IH | discriminate].
  - destruct (bufio.Err s1); [discriminate | congruence].
Qed.

End ReadEdges.

(** X13. An empty [ChunkBoundary] is found everywhere, so the scanner
    never delivers its final token: on a lawful reader, [Read] with an
    empty boundary never returns; it ends in a panic (or, when
    [Concurrency] is 0, possibly in a send that blocks before that). *)
Theorem Read_empty_boundary_never_returns (R : Type) `{io.Reader R}
    (content : R -> list byte) (r : ParallelReader) (stream : R) (fuel : nat) :
  io.Lawful content -> ChunkBoundary r = [] ->
  ending (Read fuel r stream) <> Returned /\
  (102 * length (content stream) + ChunkSize r + 104 < fuel ->
   (exists e, ending (Read fuel r stream) = Panicked e) \/
   (exists msg, ending (Read fuel r stream) = ScanPanicked msg) \/
   (Concurrency r = 0 /\ ending (Read fuel r stream) = Blocked)).
Proof.
  intros Hlaw Hb.
  destruct (NewScanner_inv content stream (ScanChunksWithBoundary r)
                           (ChunkSize r)) as (HI & _ & _).
  pose proof (@scanAll_empty_boundary R _ content Hlaw r fuel
                (Concurrency r) _
                (Pool.NewPool (Concurrency r) (ChunkSize r)) (chunks r) []
                Hb HI eq_refl)
    as Hnot.
  fold (Read fuel r stream) in Hnot. split; [exact Hnot|].
  intros Hfuel.
  destruct (Read_run r Hlaw fuel stream)
    as (toks & last & _ & _ & _ & _ & _ & _ & E7).
  specialize (E7 Hfuel).
  pose proof (@Read_not_blocked R _ fuel r stream) as Hnb.
  destruct (ending (Read fuel r stream)) as [|e|msg| |];
    [congruence | left; now exists e | right; left; now exists msg
     | | congruence].
  right; right. split; [|reflexivity].
  destruct (Concurrency r); [reflexivity|].
  exfalso. apply Hnb; [lia | reflexivity].
Qed.

(** "abcdef" with an empty boundary and [ChunkSize = 4]: "abcd" and "ef"
    are delivered, then the scanner panics. *)
Lemma Read_empty_boundary_never_returns_witness :
  ending (Read 200 (set_ChunkBoundary (set_ChunkSize (NewParallelReader 4) 4) [])
               (strings.NewReader (of_string "abcdef")))
  <> Returned.
Proof.
  apply (@Read_empty_boundary_never_returns strings.Reader _ strings.content
           (set_ChunkBoundary (set_ChunkSize (NewParallelReader 4) 4) [])
           (strings.NewReader (of_string "abcdef")) 200
           strings_Reader_lawful eq_refl).
Defined.

(** X14. The chunks do not depend on the buffers: with at least one
    worker, from any pool of buffers of [ChunkSize] bytes, however many it
    holds and whatever bytes they hold, the loop of [Read] ends in the
    same way and delivers the same chunks as with the fresh pool of
    [Read]; in particular [Read] is indifferent to the value of
    [Concurrency] as long as it is at least 1. *)
Theorem Read_does_not_depend_on_the_pool (R : Type) `{io.Reader R}
    (content : R -> list byte) (r : ParallelReader) (stream : R) (fuel : nat)
    (pool : Pool.t) (n : nat) :
  io.Lawful content -> PoolOK (ChunkSize r) pool ->
  0 < Concurrency r -> 0 < n ->
  scanAll fuel (Concurrency r)
    (bufio.NewScanner stream (make (ChunkSize r)) (ChunkSize r)
                      (ScanChunksWithBoundary r))
    pool (chunks r) []
  = Read fuel r stream /\
  Read fuel (set_Concurrency r n) stream = Read fuel r stream.
Proof.
  intros Hlaw HP Hw Hn.
  destruct (NewScanner_inv content stream (ScanChunksWithBoundary r)
                           (ChunkSize r)) as (HI & _ & _).
  split.
  - apply (@scanAll_pool R _ content Hlaw _ _ _ _ (ChunkSize r) fuel _ _ _ _ _
             _ _ [] (ScanChunksWithBoundary_spec r) Hw Hw HI HP).
    apply NewPool_ok.
  - apply (@scanAll_pool R _ content Hlaw _ _ _ _ (ChunkSize r) fuel _ _ _ _ _
             _ _ [] (ScanChunksWithBoundary_spec r) Hn Hw HI);
      apply NewPool_ok.
Qed.

(** A pool that already holds a buffer full of stale bytes. *)
Lemma Read_does_not_depend_on_the_pool_witness :
  scanAll 9 4
    (bufio.NewScanner (strings.NewReader (of_string "ab" ++ [x0a] ++ of_string "c"))
                      (make 4) 4
                      (ScanChunksWithBoundary (set_ChunkSize (NewParallelReader 4) 4)))
    (Pool.Return (Pool.NewPool 4 4) (of_string "ZZZZ"))
    (chunks (set_ChunkSize (NewParallelReader 4) 4)) []
  = Read 9 (set_ChunkSize (NewParallelReader 4) 4)
         (strings.NewReader (of_string "ab" ++ [x0a] ++ of_string "c")).
Proof.
  apply (@Read_does_not_depend_on_the_pool strings.Reader _ strings.content
           (set_ChunkSize (NewParallelReader 4) 4)
           (strings.NewReader (of_string "ab" ++ [x0a] ++ of_string "c")) 9
           (Pool.Return (Pool.NewPool 4 4) (of_string "ZZZZ")) 4
           strings_Reader_lawful).
  - apply Return_ok; [apply NewPool_ok | reflexivity].
  - cbn. lia.
  - lia.
Defined.

(* ================================================================== *)
(** * [ReadFixed] on a lawful reader *)
(* ================================================================== *)

(** X15. On a lawful reader and with a positive [ChunkSize], the chunks
    that [ReadFixed] sends have exactly [ChunkSize] bytes, except that
    the last one may be a short final read (of [n] bytes,
    [0 < n < ChunkSize]); none is empty; they begin the fixed-size
    cutting of the stream and are all of it when the call returns.  The
    call panics only with a fault of the reader, and on a reader that
    never signals [EOF] it never returns: with a worker, and once the
    reader makes progress, it panics with the fault of the reader. *)
Theorem ReadFixed_chunks_on_a_lawful_reader (R : Type) `{io.Reader R}
    (content : R -> list byte) (r : ParallelReader) (stream : R) (fuel : nat) :
  io.Lawful content -> 0 < ChunkSize r ->
  Forall (fun c => length c = ChunkSize r)
         (removelast (delivered (ReadFixed fuel r stream))) /\
  Forall (fun c => 0 < length c <= ChunkSize r)
         (delivered (ReadFixed fuel r stream)) /\
  (exists more,
     chunksOf (ChunkSize r) (content stream)
     = delivered (ReadFixed fuel r stream) ++ more) /\
  (ending (ReadFixed fuel r stream) = Returned ->
   delivered (ReadFixed fuel r stream) = chunksOf (ChunkSize r) (content stream)
   /\ concat (delivered (ReadFixed fuel r stream)) = content stream) /\
  (forall e, ending (ReadFixed fuel r stream) = Panicked e ->
             exists msg, e = ReadFault msg) /\
  (io.NeverEOF (R := R) -> ending (ReadFixed fuel r stream) <> Returned) /\
  (io.Progressing (R := R) ->
   length (content stream) + ChunkSize r + 1 < fuel ->
   ending (ReadFixed fuel r stream) <> OutOfFuel) /\
  (io.NeverEOF (R := R) -> io.Progressing (R := R) -> 0 < Concurrency r ->
   length (content stream) + ChunkSize r + 1 < fuel ->
   exists msg, ending (ReadFixed fuel r stream) = Panicked (ReadFault msg)).
Proof.
  intros Hlaw HB.
  destruct (@readFixedLoop_spec R _ content Hlaw (ChunkSize r) fuel
              (Concurrency r) stream
              (Pool.NewPool (Concurrency r) (ChunkSize r)) (chunks r) [] HB
              (NewPool_ok (Concurrency r) (ChunkSize r)))
    as (new & E1 & [more E2] & E3 & E4 & E5 & E6 & E7 & E8).
  fold (ReadFixed fuel r stream) in *. cbn [app] in E1. rewrite E1.
  destruct (chunksOf__sizes HB (length (content stream)) (content stream))
    as [S1 S2].
  fold (chunksOf (ChunkSize r) (content stream)) in S1, S2.
  assert (Hall : Forall (fun c => 0 < length c <= ChunkSize r) new).
  { rewrite E2 in S1. now apply Forall_app in S1. }
  split; [|split; [exact Hall|]].
  - assert (Hdec : ending (ReadFixed fuel r stream) = Returned \/
                   ending (ReadFixed fuel r stream) <> Returned)
      by (destruct (ending _); [now left | right; discriminate ..]).
    destruct Hdec as [Hret | Hnot].
    + now rewrite (E3 Hret).
    + apply Forall_removelast. auto.
  - split; [now exists more|]. split.
    + intros Hret. split; [auto|]. rewrite (E3 Hret).
      apply chunksOf__concat; [exact HB | lia].
    + split; [exact E5|]. split; [exact E7|]. split; [exact E8|].
      intros Hno Hprog Hw Hfuel.
      specialize (E7 Hno). specialize (E8 Hprog Hfuel).
      pose proof (@ReadFixed_not_blocked R _ fuel r stream Hw) as Hnb.
      destruct (ending (ReadFixed fuel r stream)) as [|e|msg| |] eqn:Eend;
        [congruence | | now destruct (E6 msg) | congruence | congruence].
      destruct (E5 e eq_refl) as [m ->]. now exists m.
Qed.

(** "abcdefghij" in chunks of 4 bytes: "abcd", "efgh" and the short final
    read "ij". *)
Lemma ReadFixed_chunks_on_a_lawful_reader_witness :
  let r := set_ChunkSize (NewParallelReader 4) 4 in
  let stream := strings.NewReader (of_string "abcdefghij") in
  ending (ReadFixed 9 r stream) = Returned /\
  delivered (ReadFixed 9 r stream)
  = [of_string "abcd"; of_string "efgh"; of_string "ij"].
Proof.
  intros r stream. split; [reflexivity|].
  apply (@ReadFixed_chunks_on_a_lawful_reader strings.Reader _ strings.content
           r stream 9 strings_Reader_lawful); [cbn; lia | reflexivity].
Defined.

(* ================================================================== *)
(** * No empty chunk from [Read]; no worker *)
(* ================================================================== *)

Lemma ReadableBytes_copy (buf token : list byte) :
  ReadableBytes {| buffer := fst (copy buf token);
                   readableSize := snd (copy buf token) |}
  = firstn (length buf) token.
Proof.
  unfold ReadableBytes, copy. cbn.
  assert (Hl : length (firstn (Nat.min (length buf) (length token)) token)
               = Nat.min (length buf) (length token))
    by (rewrite length_firstn; lia).
  rewrite <- Hl at 1. rewrite firstn_app_exact.
  destruct (Nat.le_ge_cases (length buf) (length token)) as [Hle|Hge].
  - now rewrite Nat.min_l.
  - rewrite Nat.min_r by exact Hge. now rewrite !firstn_all2 by lia.
Qed.

Section NoEmptyChunk.

Context (R : Type) `{io.Reader R}.

Lemma scanAll_nonempty (B fuel w : nat) (s : bufio.Scanner R) (pool : Pool.t)
    (ch : Chan.chan chunk) (calls : list (list byte)) :
  0 < B -> PoolOK B pool -> Forall (fun c => c <> []) calls ->
  Forall (fun c => c <> []) (delivered (scanAll fuel w s pool ch calls)).
Proof.
  intros HB. revert s pool ch calls.
  induction fuel as [|fuel IH]; intros s pool ch calls HP Hcalls;
    cbn [scanAll]; [exact Hcalls|].
  destruct (bufio.Scan fuel s) as [b s1|msg|s1|]; try exact Hcalls.
  destruct b; [|destruct (bufio.Err s1); exact Hcalls].
  destruct (Borrow_ok HP) as [Hbuf HP1].
  destruct (Pool.Borrow pool) as [buf pool1]. cbn [fst snd] in Hbuf, HP1.
  destruct (Nat.ltb_spec 0 (length (bufio.Bytes s1))) as [Hpos|Hzero];
    [|now apply IH].
  pose proof (ReadableBytes_copy buf (bufio.Bytes s1)) as Hrb.
  pose proof (length_copy buf (bufio.Bytes s1)) as Hlc.
  destruct (copy buf (bufio.Bytes s1)) as [buf1 size]. cbn [fst snd] in Hrb, Hlc.
  destruct (send w ch pool1 _ calls) as [[[ch1 pool2] calls1]|] eqn:Esend;
    [|exact Hcalls].
  apply send_pool with (B := B) in Esend; [|exact HP1 | cbn [buffer]; lia].
  destruct Esend as [HP2 ->]. apply IH; [exact HP2|].
  apply Forall_app. split; [exact Hcalls|]. constructor; [|constructor].
  rewrite Hrb. intros Hnil.
  apply (f_equal (@length byte)) in Hnil. rewrite length_firstn in Hnil.
  cbn [length] in Hnil. lia.
Qed.

Lemma Read_ChunkSize_0 (fuel : nat) (r : ParallelReader) (stream : R) :
  ChunkSize r = 0 -> delivered (Read fuel r stream) = [].
Proof.
  intros H0. unfold Read. rewrite H0.
  destruct fuel as [|[|fuel]]; reflexivity.
Qed.

End NoEmptyChunk.

(** X16. [Read] never sends an empty chunk, whatever the reader, the
    input and the configuration: a token is sent only when it holds a
    byte, and the buffer it is copied to holds [ChunkSize] bytes; with
    [ChunkSize = 0] nothing is sent at all. *)
Theorem Read_never_sends_an_empty_chunk (R : Type) `{io.Reader R}
    (r : ParallelReader) (stream : R) (fuel : nat) :
  Forall (fun c => c <> []) (delivered (Read fuel r stream)) /\
  (ChunkSize r = 0 -> delivered (Read fuel r stream) = []).
Proof.
  split; [|apply Read_ChunkSize_0].
  destruct (ChunkSize r) as [|B] eqn:EB.
  - rewrite Read_ChunkSize_0 by exact EB. constructor.
  - unfold Read. rewrite EB.
    apply scanAll_nonempty with (B := S B);
      [lia | apply NewPool_ok | constructor].
Qed.

Lemma send_no_worker (ch : Chan.chan chunk) (p : Pool.t) (c : chunk)
    (calls : list (list byte)) :
  match send 0 ch p c calls with
  | Some (ch1, p1, calls1) =>
    length (Chan.queue ch) < Chan.cap ch /\ Chan.cap ch1 = Chan.cap ch /\
    length (Chan.queue ch1) = S (length (Chan.queue ch)) /\
    calls1 = calls ++ [ReadableBytes c]
  | None => Chan.cap ch <= length (Chan.queue ch)
  end.
Proof.
  unfold send, Chan.try_send.
  destruct (Nat.ltb_spec (length (Chan.queue ch)) (Chan.cap ch)); [|lia].
  cbn [Chan.cap Chan.queue]. rewrite length_app. cbn [length].
  repeat split; [assumption | lia].
Qed.

(** "abc" with [ChunkSize = 0]: nothing is sent. *)
Lemma Read_never_sends_an_empty_chunk_witness :
  delivered (Read 5 (set_ChunkSize (NewParallelReader 4) 0)
                  (strings.NewReader (of_string "abc")))
  = [].
Proof.
  apply (@Read_never_sends_an_empty_chunk strings.Reader _
           (set_ChunkSize (NewParallelReader 4) 0)
           (strings.NewReader (of_string "abc")) 5).
  reflexivity.
Defined.

Section NoWorker.

Context (R : Type) `{io.Reader R}.

Lemma no_worker_stop (ch : Chan.chan chunk) (calls : list (list byte))
    (e : status) :
  (e = Blocked -> Chan.cap ch <= length (Chan.queue ch)) ->
  length (Chan.queue ch) <= Chan.cap ch ->
  exists new : list (list byte),
    calls = calls ++ new /\
    length (Chan.queue ch) + length new <= Chan.cap ch /\
    (e = Blocked -> length (Chan.queue ch) + length new = Chan.cap ch).
Proof.
  intros He Hq. exists []. rewrite app_nil_r. cbn [length].
  split; [reflexivity|]. split; [lia|]. intros Hb. specialize (He Hb). lia.
Qed.

Lemma no_worker_step (ch ch1 : Chan.chan chunk) (calls new : list (list byte))
    (c : list byte) (e : status) :
  Chan.cap ch1 = Chan.cap ch ->
  length (Chan.queue ch1) = S (length (Chan.queue ch)) ->
  length (Chan.queue ch1) + length new <= Chan.cap ch1 /\
  (e = Blocked -> length (Chan.queue ch1) + length new = Chan.cap ch1) ->
  length (Chan.queue ch) + length (c :: new) <= Chan.cap ch /\
  (e = Blocked -> length (Chan.queue ch) + length (c :: new) = Chan.cap ch).
Proof.
  intros Hc Hq [H1 H2]. cbn [length]. split; [lia|].
  intros Hb. specialize (H2 Hb). lia.
Qed.

Lemma scanAll_no_worker (fuel : nat) (s : bufio.Scanner R) (pool : Pool.t)
    (ch : Chan.chan chunk) (calls : list (list byte)) :
  length (Chan.queue ch) <= Chan.cap ch ->
  exists new,
    delivered (scanAll fuel 0 s pool ch calls) = calls ++ new /\
    length (Chan.queue ch) + length new <= Chan.cap ch /\
    (ending (scanAll fuel 0 s pool ch calls) = Blocked ->
     length (Chan.queue ch) + length new = Chan.cap ch).
Proof.
  revert s pool ch calls.
  induction fuel as [|fuel IH]; intros s pool ch calls Hq; cbn [scanAll].
  - now apply no_worker_stop.
  - destruct (bufio.Scan fuel s) as [b s1|msg|s1|];
      try (now apply no_worker_stop).
    destruct b; [|destruct (bufio.Err s1); now apply no_worker_stop].
    destruct (Pool.Borrow pool) as [buf pool1].
    destruct (0 <? length (bufio.Bytes s1)); [|now apply IH].
    destruct (copy buf (bufio.Bytes s1)) as [buf1 size].
    pose proof (send_no_worker ch pool1
                  {| buffer := buf1; readableSize := size |} calls) as Hsend.
    destruct (send 0 ch pool1 _ calls) as [[[ch1 pool2] calls1]|].
    + destruct Hsend as (Hroom & Hc1 & Hq1 & ->).
      destruct (IH s1 pool2 ch1
                  (calls ++ [ReadableBytes {| buffer := buf1;
                                              readableSize := size |}]))
        as (new & E1 & E23); [lia|].
      exists (ReadableBytes {| buffer := buf1; readableSize := size |} :: new).
      rewrite E1, <- app_assoc. split; [reflexivity|].
      now apply no_worker_step with (ch1 := ch1).
    + now apply no_worker_stop.
Qed.

Lemma readFixedLoop_no_worker (fuel : nat) (stream : R) (pool : Pool.t)
    (ch : Chan.chan chunk) (calls : list (list byte)) :
  length (Chan.queue ch) <= Chan.cap ch ->
  exists new,
    delivered (readFixedLoop fuel 0 stream pool ch calls) = calls ++ new /\
    length (Chan.queue ch) + length new <= Chan.cap ch /\
    (ending (readFixedLoop fuel 0 stream pool ch calls) = Blocked ->
     length (Chan.queue ch) + length new = Chan.cap ch).
Proof.
  revert stream pool ch calls.
  induction fuel as [|fuel IH]; intros stream pool ch calls Hq;
    cbn [readFixedLoop].
  - now apply no_worker_stop.
  - destruct (Pool.Borrow pool) as [buf pool1].
    destruct (io.ReadFull fuel stream buf) as [[[[buf1 n] err] stream1]|];
      [|now apply no_worker_stop].
    pose proof (send_no_worker ch pool1
                  {| buffer := buf1; readableSize := n |} calls) as Hsend.
    destruct err as [[]|]; try (now apply no_worker_stop).
    + (* ErrUnexpectedEOF *)
      destruct (send 0 ch pool1 _ calls) as [[[ch1 pool2] calls1]|];
        [|now apply no_worker_stop].
      destruct Hsend as (Hroom & Hc1 & Hq1 & ->). cbn [ending delivered].
      exists [ReadableBytes {| buffer := buf1; readableSize := n |}].
      cbn [length]. split; [reflexivity|]. split; [lia | discriminate].
    + destruct (send 0 ch pool1 _ calls) as [[[ch1 pool2] calls1]|];
        [|now apply no_worker_stop].
      destruct Hsend as (Hroom & Hc1 & Hq1 & ->).
      destruct (IH stream1 pool2 ch1
                  (calls ++ [ReadableBytes {| buffer := buf1;
                                              readableSize := n |}]))
        as (new & E1 & E23); [lia|].
      exists (ReadableBytes {| buffer := buf1; readableSize := n |} :: new).
      rewrite E1, <- app_assoc. split; [reflexivity|].
      now apply no_worker_step with (ch1 := ch1).
Qed.

End NoWorker.

(** X17. With [Concurrency = 0] no goroutine receives from [r.chunks]:
    [Read] and [ReadFixed] send no more chunks than the queue, empty at
    the start, can hold, and a call that blocks has filled it. *)
Theorem no_worker_no_more_than_the_queue (R : Type) `{io.Reader R}
    (r : ParallelReader) (stream : R) (fuel : nat) :
  Concurrency r = 0 -> Chan.queue (chunks r) = [] ->
  (length (delivered (Read fuel r stream)) <= Chan.cap (chunks r) /\
   (ending (Read fuel r stream) = Blocked ->
    length (delivered (Read fuel r stream)) = Chan.cap (chunks r))) /\
  (length (delivered (ReadFixed fuel r stream)) <= Chan.cap (chunks r) /\
   (ending (ReadFixed fuel r stream) = Blocked ->
    length (delivered (ReadFixed fuel r stream)) = Chan.cap (chunks r))).
Proof.
  intros Hw Hq. unfold Read, ReadFixed. rewrite Hw. split.
  - destruct (@scanAll_no_worker R _ fuel
                (bufio.NewScanner stream (make (ChunkSize r)) (ChunkSize r)
                                  (ScanChunksWithBoundary r))
                (Pool.NewPool 0 (ChunkSize r)) (chunks r) [])
      as (new & E1 & E2 & E3); [rewrite Hq; cbn; lia|].
    rewrite Hq in E2, E3. cbn [length app Nat.add] in E1, E2, E3.
    rewrite E1. now split.
  - destruct (@readFixedLoop_no_worker R _ fuel stream
                (Pool.NewPool 0 (ChunkSize r)) (chunks r) [])
      as (new & E1 & E2 & E3); [rewrite Hq; cbn; lia|].
    rewrite Hq in E2, E3. cbn [length app Nat.add] in E1, E2, E3.
    rewrite E1. now split.
Qed.

(** "abcdefgh" in chunks of 1 byte, on a reader made where
    [runtime.NumCPU()] is 4 and whose [Concurrency] is then set to 0: four
    chunks are queued and the fifth send blocks. *)
Lemma no_worker_no_more_than_the_queue_witness :
  length (delivered
            (ReadFixed 9 (set_Concurrency (set_ChunkSize (NewParallelReader 4) 1) 0)
                       (strings.NewReader (of_string "abcdefgh"))))
  = 4.
Proof.
  apply (@no_worker_no_more_than_the_queue strings.Reader _
           (set_Concurrency (set_ChunkSize (NewParallelReader 4) 1) 0)
           (strings.NewReader (of_string "abcdefgh")) 9 eq_refl eq_refl).
  reflexivity.
Defined.

(* ================================================================== *)
(** * [ReadFixed] on a source that fails *)
(* ================================================================== *)

Section ErrReaderFacts.

Variable str : list byte.
Variable e : error.

Lemma ReadFull_ErrReader_full (fuel p : nat) (buf : list byte) :
  0 < length buf -> length buf <= length str - p ->
  io.ReadFull (S fuel)
              {| iotest.data := str; iotest.pos := p; iotest.err := e |} buf
  = Some (store buf 0 (firstn (length buf) (skipn p str)), length buf, None,
          {| iotest.data := str; iotest.pos := p + length buf;
             iotest.err := e |}).
Proof.
  intros HB Hle. unfold io.ReadFull, io.ReadAtLeast. rewrite Nat.ltb_irrefl.
  cbn [io.readAtLeastLoop].
  replace (0 <? length buf) with true by (symmetry; apply Nat.ltb_lt; lia).
  cbn [andb is_nil io.Read iotest.ErrReader_io]. unfold iotest.ReadErr.
  cbn [iotest.data iotest.pos iotest.err].
  replace (length str <=? p) with false by (symmetry; apply Nat.leb_gt; lia).
  rewrite Nat.sub_0_r.
  assert (Hbs : length (firstn (length buf) (skipn p str)) = length buf)
    by (rewrite length_firstn, length_skipn; lia).
  rewrite Hbs. cbn [Nat.add].
  destruct fuel; cbn [io.readAtLeastLoop]; rewrite Nat.ltb_irrefl;
    cbn [andb]; rewrite Nat.leb_refl; reflexivity.
Qed.

Lemma ReadFull_ErrReader_short (fuel p : nat) (buf : list byte) :
  length str - p < length buf ->
  exists buf' rd',
    io.ReadFull (S (S fuel))
                {| iotest.data := str; iotest.pos := p; iotest.err := e |} buf
    = Some (buf', length str - p,
            Some (match e with
                  | EOF => if 0 <? length str - p then ErrUnexpectedEOF else EOF
                  | _ => e
                  end), rd') /\
    firstn (length str - p) buf' = skipn p str.
Proof.
  intros Hlt. unfold io.ReadFull, io.ReadAtLeast. rewrite Nat.ltb_irrefl.
  cbn [io.readAtLeastLoop].
  replace (0 <? length buf) with true by (symmetry; apply Nat.ltb_lt; lia).
  cbn [andb is_nil io.Read iotest.ErrReader_io]. unfold iotest.ReadErr.
  cbn [iotest.data iotest.pos iotest.err]. rewrite Nat.sub_0_r.
  destruct (Nat.leb_spec (length str) p) as [Hend|Hmore].
  - (* nothing left: the first read returns the error *)
    replace (length str - p) with 0 by lia. cbn [length Nat.add].
    replace (0 <? length buf) with true by (symmetry; apply Nat.ltb_lt; lia).
    cbn [andb is_nil].
    replace (length buf <=? 0) with false by (symmetry; apply Nat.leb_gt; lia).
    rewrite skipn_all2 by lia. rewrite Nat.ltb_irrefl.
    eexists; eexists. split; [destruct e; reflexivity | reflexivity].
  - assert (Hbs : firstn (length buf) (skipn p str) = skipn p str)
      by (apply firstn_all2; rewrite length_skipn; lia).
    rewrite Hbs, length_skipn. cbn [Nat.add].
    replace (length str - p <? length buf) with true
      by (symmetry; apply Nat.ltb_lt; lia).
    cbn [andb is_nil iotest.data iotest.pos iotest.err].
    replace (length str <=? p + (length str - p)) with true
      by (symmetry; apply Nat.leb_le; lia).
    cbn [length]. rewrite Nat.add_0_r.
    destruct fuel; cbn [io.readAtLeastLoop];
      rewrite andb_false_r;
      replace (length buf <=? length str - p) with false
        by (symmetry; apply Nat.leb_gt; lia);
      replace (0 <? length str - p) with true
        by (symmetry; apply Nat.ltb_lt; lia);
      (eexists; eexists; split; [destruct e; reflexivity|]);
      unfold store; cbn [firstn skipn app Nat.add length];
      rewrite <- (length_skipn p str);
      rewrite (firstn_app_exact (skipn p str));
      apply firstn_app_exact.
Qed.

Lemma readFixedLoop_ErrReader (B w fuel p : nat) (pool : Pool.t)
    (ch : Chan.chan chunk) (calls : list (list byte)) :
  0 < B -> 0 < w -> PoolOK B pool -> length str - p + 3 <= fuel ->
  exists full rest,
    skipn p str = concat full ++ rest /\
    Forall (fun c => length c = B) full /\ length rest < B /\
    readFixedLoop fuel w
      {| iotest.data := str; iotest.pos := p; iotest.err := e |} pool ch calls
    = match e with
      | EOF =>
        {| ending := Returned;
           delivered := calls ++ full
                        ++ match rest with [] => [] | _ :: _ => [rest] end |}
      | ErrUnexpectedEOF =>
        {| ending := Returned; delivered := calls ++ full ++ [rest] |}
      | _ => {| ending := Panicked e; delivered := calls ++ full |}
      end.
Proof.
  intros HB Hw. revert p pool calls.
  induction fuel as [|fuel IH]; intros p pool calls HP Hfuel; [lia|].
  cbn [readFixedLoop].
  destruct (Borrow_ok HP) as [Hbuf HP1].
  destruct (Pool.Borrow pool) as [buf pool1]. cbn [fst snd] in Hbuf, HP1.
  destruct (Nat.le_gt_cases B (length str - p)) as [Hfull|Hshort].
  - (* a full buffer *)
    destruct fuel as [|fuel]; [lia|].
    rewrite ReadFull_ErrReader_full by lia.
    rewrite send_workers by exact Hw.
    unfold ReadableBytes. cbn [buffer readableSize]. rewrite Hbuf.
    set (bs := firstn B (skipn p str)).
    assert (Hbs : length bs = B)
      by (unfold bs; rewrite length_firstn, length_skipn; lia).
    assert (Hchunk : firstn B (store buf 0 bs) = bs).
    { pose proof (@store_prefix buf bs 0 ltac:(lia)) as Hs.
      cbn [Nat.add firstn app] in Hs. now rewrite Hbs in Hs. }
    rewrite Hchunk.
    destruct (IH (p + B) (Pool.Return pool1 (store buf 0 bs)) (calls ++ [bs]))
      as (full & rest & E1 & E2 & E3 & E4).
    { apply Return_ok; [exact HP1|]. rewrite length_store; lia. }
    { lia. }
    exists (bs :: full), rest. cbn [concat]. rewrite <- app_assoc, <- E1.
    split.
    { unfold bs. rewrite Nat.add_comm, <- skipn_skipn.
      symmetry. apply firstn_skipn. }
    split; [now constructor|]. split; [exact E3|].
    rewrite E4. destruct e; rewrite <- ?app_assoc; reflexivity.
  - (* the source fails inside this buffer *)
    destruct fuel as [|[|fuel]]; try lia.
    destruct (@ReadFull_ErrReader_short fuel p buf ltac:(lia))
      as (buf' & rd' & E & Hbytes).
    rewrite E. exists [], (skipn p str). cbn [concat app].
    split; [reflexivity|]. split; [constructor|].
    split; [rewrite length_skipn; lia|].
    rewrite send_workers by exact Hw.
    unfold ReadableBytes. cbn [buffer readableSize]. rewrite Hbytes.
    destruct e; try (now rewrite app_nil_r); try reflexivity.
    (* EOF *)
    destruct (skipn p str) as [|b rest] eqn:Erest.
    + apply (f_equal (@length byte)) in Erest. rewrite length_skipn in Erest.
      cbn [length] in Erest. rewrite Erest. cbn. now rewrite app_nil_r.
    + apply (f_equal (@length byte)) in Erest. rewrite length_skipn in Erest.
      cbn [length] in Erest. rewrite Erest. reflexivity.
Qed.

End ErrReaderFacts.

(** X18. [ReadFixed] on a source that hands over its bytes and then
    fails with the error [e] on every read, for a positive [ChunkSize]
    and with a worker.  The bytes are cut into [full] buffers of
    [ChunkSize] bytes and a [rest] shorter than that.  The full buffers
    are always sent.  When [e] is [io.EOF] the rest is sent if it holds a
    byte, and the call returns.  When [e] is any other error the call
    panics with it and the rest is dropped; except that
    [io.ErrUnexpectedEOF] is taken for the end of the stream: the rest is
    sent, even when it is empty, and the call returns. *)
Theorem ReadFixed_on_a_source_that_fails (r : ParallelReader)
    (str : list byte) (e : error) (fuel : nat) :
  0 < ChunkSize r -> 0 < Concurrency r -> length str + 3 <= fuel ->
  exists full rest,
    str = concat full ++ rest /\
    Forall (fun c => length c = ChunkSize r) full /\
    length rest < ChunkSize r /\
    ReadFixed fuel r (iotest.NewErrReader str e)
    = match e with
      | EOF =>
        {| ending := Returned;
           delivered := full ++ match rest with [] => [] | _ :: _ => [rest] end |}
      | ErrUnexpectedEOF =>
        {| ending := Returned; delivered := full ++ [rest] |}
      | _ => {| ending := Panicked e; delivered := full |}
      end.
Proof.
  intros HB Hw Hfuel.
  destruct (@readFixedLoop_ErrReader str e (ChunkSize r) (Concurrency r) fuel 0
              (Pool.NewPool (Concurrency r) (ChunkSize r)) (chunks r) []
              HB Hw (NewPool_ok _ _) ltac:(lia))
    as (full & rest & E1 & E2 & E3 & E4).
  exists full, rest. cbn [skipn] in E1. split; [exact E1|].
  split; [exact E2|]. split; [exact E3|].
  unfold ReadFixed, iotest.NewErrReader. rewrite E4.
  destruct e; reflexivity.
Qed.

(** "abcdefghij" then [io.ErrUnexpectedEOF], in buffers of 5 bytes: the
    rest is empty, and it is sent. *)
Lemma ReadFixed_on_a_source_that_fails_witness :
  exists full rest,
    of_string "abcdefghij" = concat full ++ rest /\
    Forall (fun c => length c = 5) full /\
    length rest < 5 /\
    ReadFixed 20 (set_ChunkSize (NewParallelReader 4) 5)
              (iotest.NewErrReader (of_string "abcdefghij") ErrUnexpectedEOF)
    = {| ending := Returned; delivered := full ++ [rest] |}.
Proof.
  apply (@ReadFixed_on_a_source_that_fails
           (set_ChunkSize (NewParallelReader 4) 5)
           (of_string "abcdefghij") ErrUnexpectedEOF 20).
  - cbn. lia.
  - cbn. lia.
  - cbn. lia.
Defined.
